(** * Instrumentation-based profile-guided optimisation (gen/pgo.cpp)

    A shallow embedding of the PGO support of the LDC code generator:
    the structural hash ([PGOHash]), the pass that numbers the region
    counters ([MapRegionCounters]), the pass that propagates the raw
    counts through the statement tree ([ComputeRegionCounts]), the
    loading of the counts of one function ([loadRegionCounts]) and the
    synthesis of branch weights ([createProfileWeights] and the loop
    adapters).

    Conventions.  Unsigned machine integers are values of [Z] with the
    wrap-around written out ([wrap32], [wrap64]).  A [RootObject*] is its
    address, a value of [N]; the null pointer is [0].  An [assert] that
    fails is the result [None] of a function into [option]. *)

From stdpp Require Import gmap list strings.

Local Open Scope Z_scope.

(* ===================================================================== *)
(** * Machine arithmetic                                                  *)
(* ===================================================================== *)

Definition wrap32 (z : Z) : Z := z mod 2 ^ 32.
Definition wrap64 (z : Z) : Z := z mod 2 ^ 64.

Definition add64 (a b : Z) : Z := wrap64 (a + b).
Definition sub64 (a b : Z) : Z := wrap64 (a - b).

Definition UINT32_MAX : Z := 2 ^ 32 - 1.

(** The values a [uint64_t] can hold. *)
Definition u64 (z : Z) : Prop := 0 <= z < 2 ^ 64.

(** A pointer to a [RootObject]. *)
Abbreviation ptr := N.

Definition nullptr : ptr := 0%N.

(* ===================================================================== *)
(** * PGOHash                                                             *)
(* ===================================================================== *)

Module PGOHash.

(** [enum HashType : unsigned char]. *)
Inductive HashType : Set :=
| None_
| LabelStmt
| WhileStmt
| DoStmt
| ForStmt
| ForeachStmt
| ForeachRangeStmt
| SwitchStmt
| CaseStmt
| DefaultStmt
| CaseGoto
| IfStmt
| TryCatchStmt
| TryCatchCatch
| TryFinallyStmt
| ConditionalExpr
| AndAndExpr
| OrOrExpr
| LastHashType.

(** The enumerators count up from [None = 0], [LabelStmt = 1]. *)
Definition value (t : HashType) : Z :=
  match t with
  | None_ => 0
  | LabelStmt => 1
  | WhileStmt => 2
  | DoStmt => 3
  | ForStmt => 4
  | ForeachStmt => 5
  | ForeachRangeStmt => 6
  | SwitchStmt => 7
  | CaseStmt => 8
  | DefaultStmt => 9
  | CaseGoto => 10
  | IfStmt => 11
  | TryCatchStmt => 12
  | TryCatchCatch => 13
  | TryFinallyStmt => 14
  | ConditionalExpr => 15
  | AndAndExpr => 16
  | OrOrExpr => 17
  | LastHashType => 18
  end.

Definition NumBitsPerType : Z := 6.
(** [sizeof(uint64_t) * 8 / NumBitsPerType] *)
Definition NumTypesPerWord : Z := 8 * 8 / NumBitsPerType.
Definition TooBig : Z := Z.shiftl 1 NumBitsPerType.

(** The bytes of a 64-bit word, least significant first: what
    [endian::byte_swap<uint64_t, little>] leaves in memory on a host of
    either byte order. *)
Definition little_bytes (w : Z) : list Z :=
  map (λ i : nat, Z.land (Z.shiftr w (8 * Z.of_nat i)) 255) (seq 0 8).

(** [endian::read<uint64_t, little, unaligned>]: the first eight bytes
    of a buffer as a little-endian word. *)
Definition read_little (bs : list Z) : Z :=
  foldr (λ b acc, b + 256 * acc) 0 (take 8 bs).

(** The hasher.  [llvm::MD5] is a streaming digest: its state is the
    sequence of bytes passed to [update] so far, and [final] is a function
    of that sequence. *)
Record t : Type := mk {
  Working : Z;        (* uint64_t *)
  Count : Z;          (* unsigned *)
  MD5 : list Z        (* the bytes given to MD5.update *)
}.

(** [PGOHash() : Working(0), Count(0) {}] *)
Definition init : t := {| Working := 0; Count := 0; MD5 := [] |}.

(** The two assertions of [combine]. *)
Definition valid (ty : HashType) : bool :=
  negb (value ty =? 0) && (value ty <? TooBig).

Definition combine (h : t) (ty : HashType) : t :=
  (* Pass through MD5 if enough work has built up. *)
  let h1 :=
    if negb (Count h =? 0) && (Count h mod NumTypesPerWord =? 0)
    then {| Working := 0; Count := Count h;
            MD5 := MD5 h ++ little_bytes (Working h) |}
    else h in
  (* Accumulate the current type. *)
  {| Working := Z.lor (wrap64 (Z.shiftl (Working h1) NumBitsPerType)) (value ty);
     Count := wrap32 (Count h1 + 1);
     MD5 := MD5 h1 |}.

Section Finalize.
(** [MD5.final]: the 16 bytes of the digest of a byte stream. *)
Variable MD5_final : list Z → list Z.

(** [finalize()].  On [MD5.update(Working)]: [llvm::MD5::update] is
    declared for [ArrayRef<uint8_t>] and for [StringRef]; the [uint64_t]
    argument converts to [ArrayRef<uint8_t>] through the constructor from
    one element, [ArrayRef(const T &OneElt)], after the integral
    conversion to [uint8_t].  So this call adds one byte, the low 8 bits
    of the word, where [combine] adds the 8 bytes of the word. *)
Definition finalize (h : t) : Z :=
  (* Use Working as the hash directly if we never used MD5. *)
  if Count h <=? NumTypesPerWord then Working h
  else
    (* Check for remaining work in Working. *)
    let md5 :=
      if negb (Working h =? 0) then MD5 h ++ [Working h mod 2 ^ 8]
      else MD5 h in
    (* Finalize the MD5 and return the hash. *)
    read_little (MD5_final md5).
End Finalize.

(** The hasher after a sequence of tokens. *)
Definition combine_all (h : t) (tys : list HashType) : t :=
  foldl combine h tys.

End PGOHash.

(* ===================================================================== *)
(** * CodeGenPGO: the per-function state                                  *)
(* ===================================================================== *)

Module CodeGenPGO.

Record t : Type := mk {
  FuncName : string;
  NumRegionCounters : Z;                     (* unsigned *)
  FunctionHash : Z;                          (* uint64_t *)
  RegionCounterMap : option (gmap N Z);      (* unique_ptr<DenseMap> *)
  StmtCountMap : option (gmap N Z);          (* unique_ptr<DenseMap> *)
  RegionCounts : list Z                      (* std::vector<uint64_t> *)
}.

(** Pointer math to add an extra counter for one statement/expression. *)
Definition getCounterPtr (p : ptr) (counter_idx : N) : ptr :=
  (p + counter_idx)%N.

(** Modelled from the spec: [haveRegionCounts] is declared in gen/pgo.h,
    which is not among the sources.  Region counts are loaded when the
    sequence of raw counts is not empty. *)
Definition haveRegionCounts (pgo : t) : bool :=
  match RegionCounts pgo with [] => false | _ => true end.

(** Modelled from the spec: [getRegionCount] is declared in gen/pgo.h.
    The raw count of the counter that the node owns: the raw counts are
    indexed as the counter map is.  Without a counter map or without
    counts the answer is 0; a node without an entry reads counter 0, as
    [operator[]] of the map makes it. *)
Definition getRegionCount (pgo : t) (S : ptr) : Z :=
  match RegionCounterMap pgo with
  | None => 0
  | Some m =>
      if haveRegionCounts pgo
      then default 0 (RegionCounts pgo !! Z.to_nat (default 0 (m !! S)))
      else 0
  end.

(** Modelled from the spec: [getStmtCount] is declared in gen/pgo.h.
    Whether an execution count is known for the node, and the count. *)
Definition getStmtCount (pgo : t) (S : ptr) : bool * Z :=
  match StmtCountMap pgo with
  | None => (false, 0)
  | Some m =>
      match m !! S with
      | None => (false, 0)
      | Some c => (true, c)
      end
  end.

(** An [llvm::MDNode*] as returned by the weight functions: null, or
    branch-weight metadata over 32-bit weights. *)
Inductive MDNode : Type :=
| null
| BranchWeights (ws : list Z).

(** Calculate what to divide by to scale weights. *)
Definition calculateWeightScale (MaxWeight : Z) : Z :=
  if MaxWeight <? UINT32_MAX then 1 else wrap64 (MaxWeight / UINT32_MAX + 1).

(** Scale an individual branch weight (and add 1).  Both assertions are
    checked; the result is the [uint32_t] the function returns. *)
Definition scaleBranchWeight (Weight Scale : Z) : option Z :=
  if Scale =? 0 then None
  else
    let Scaled := wrap64 (Weight / Scale + 1) in
    if Scaled <=? UINT32_MAX then Some (wrap32 Scaled) else None.

Definition createProfileWeights (TrueCount FalseCount : Z) : option MDNode :=
  (* Check for empty weights. *)
  if (TrueCount =? 0) && (FalseCount =? 0) then Some null
  else
    (* Calculate how to scale down to 32-bits. *)
    let Scale := calculateWeightScale (Z.max TrueCount FalseCount) in
    t ← scaleBranchWeight TrueCount Scale;
    f ← scaleBranchWeight FalseCount Scale;
    Some (BranchWeights [t; f]).

Definition createProfileWeightsWhileLoop (pgo : t) (Cond : ptr) (LoopCount : Z)
  : option MDNode :=
  if negb (haveRegionCounts pgo) then Some null
  else
    let StmtCount := getStmtCount pgo Cond in
    if negb StmtCount.1 then None
    else
      let CondCount := StmtCount.2 in
      if CondCount =? 0 then Some null
      else createProfileWeights LoopCount
             (sub64 (Z.max CondCount LoopCount) LoopCount).

(** The fields of a [ForStatement] that the adapter reads: the address
    of the statement and its [condition] pointer. *)
Definition createProfileWeightsForLoop (pgo : t) (stmt condition : ptr)
  : option MDNode :=
  if negb (haveRegionCounts pgo) then Some null
  else
    let LoopCount := getRegionCount pgo stmt in
    let StmtCount :=
      getStmtCount pgo
        (if decide (condition ≠ nullptr) then condition
         else getCounterPtr stmt 1) in
    if negb StmtCount.1 then None
    else
      let CondCount := StmtCount.2 in
      if CondCount =? 0 then Some null
      else createProfileWeights LoopCount
             (sub64 (Z.max CondCount LoopCount) LoopCount).

Definition createProfileWeightsForeach (pgo : t) (stmt : ptr) : option MDNode :=
  if negb (haveRegionCounts pgo) then Some null
  else
    let LoopCount := getRegionCount pgo stmt in
    let StmtCount := getStmtCount pgo (getCounterPtr stmt 1) in
    if negb StmtCount.1 then None
    else
      let CondCount := StmtCount.2 in
      if CondCount =? 0 then Some null
      else createProfileWeights LoopCount
             (sub64 (Z.max CondCount LoopCount) LoopCount).

Definition createProfileWeightsForeachRange (pgo : t) (stmt : ptr)
  : option MDNode :=
  if negb (haveRegionCounts pgo) then Some null
  else
    let LoopCount := getRegionCount pgo stmt in
    let StmtCount := getStmtCount pgo (getCounterPtr stmt 1) in
    if negb StmtCount.1 then None
    else
      let CondCount := StmtCount.2 in
      if CondCount =? 0 then Some null
      else createProfileWeights LoopCount
             (sub64 (Z.max CondCount LoopCount) LoopCount).

(** ** Loading the raw counts *)

(** The [std::error_code] of [getFunctionCounts]: success, the three
    [llvm::instrprof_error] values that [loadRegionCounts] tells apart,
    and any other error. *)
Inductive error_code : Type :=
| success
| unknown_function
| hash_mismatch
| malformed
| other_error (code : nat).

(** [IndexedInstrProfReader::getFunctionCounts(FuncName, FuncHash, Counts)]:
    the error code and the contents it leaves in [Counts]. *)
Definition IndexedInstrProfReader : Type := string → Z → error_code * list Z.

(** What [loadRegionCounts] outputs: lines for the logger and compiler
    warnings. *)
Inductive Diagnostic : Type :=
| LogLine (text : string)
| Warning (text : string).

Definition warnings (ds : list Diagnostic) : list string :=
  omap (λ d, match d with Warning w => Some w | LogLine _ => None end) ds.

(** [IF_LOG Logger::println(...)] *)
Definition IF_LOG (logging : bool) (text : string) : list Diagnostic :=
  if logging then [LogLine text] else [].

Definition set_RegionCounts (cs : list Z) (pgo : t) : t :=
  {| FuncName := FuncName pgo;
     NumRegionCounters := NumRegionCounters pgo;
     FunctionHash := FunctionHash pgo;
     RegionCounterMap := RegionCounterMap pgo;
     StmtCountMap := StmtCountMap pgo;
     RegionCounts := cs |}.

(** [loadRegionCounts(PGOReader, fd)]; [pretty] is
    [fd->toPrettyChars()], [logging] whether the logger is enabled. *)
Definition loadRegionCounts (logging : bool) (PGOReader : IndexedInstrProfReader)
    (pretty : string) (pgo : t) : t * list Diagnostic :=
  (* RegionCounts.clear(); *)
  let pgo := set_RegionCounts [] pgo in
  let '(EC, Counts) := PGOReader (FuncName pgo) (FunctionHash pgo) in
  let pgo := set_RegionCounts Counts pgo in
  match EC with
  | success =>
      (pgo,
       IF_LOG logging ("Loaded profile counts for function: " +:+ FuncName pgo))
  | _ =>
      let out :=
        match EC with
        | unknown_function =>
            (* Don't output a compiler warning when profile data is missing
               for a function, because it could be intentional. *)
            IF_LOG logging ("No profile data for function: " +:+ FuncName pgo)
        | hash_mismatch =>
            IF_LOG logging
              ("Ignoring profile data: hash mismatch for function: "
               +:+ FuncName pgo)
            ++ [Warning ("Ignoring profile data for function '" +:+ pretty
                         +:+ "' ('" +:+ FuncName pgo
                         +:+ "'): control-flow hash mismatch")]
        | malformed =>
            IF_LOG logging
              ("Profile data is malformed for function: " +:+ FuncName pgo)
            ++ [Warning ("Ignoring profile data for function '" +:+ pretty
                         +:+ "' ('" +:+ FuncName pgo
                         +:+ "'): control-flow hash mismatch")]
        | _ =>
            IF_LOG logging
              ("Error loading profile counts for function: " +:+ FuncName pgo)
            ++ [Warning ("Error loading profile data for function '" +:+ pretty
                         +:+ "' ('" +:+ FuncName pgo +:+ "')")]
        end in
      (* RegionCounts.clear(); *)
      (set_RegionCounts [] pgo, out)
  end.

End CodeGenPGO.

(* ===================================================================== *)
(** * MapRegionCounters: the mapping pass                                 *)
(* ===================================================================== *)

Module MapRegionCounters.

Import PGOHash.

(** The state of the visitor; [stop] is the flag of [StoppableVisitor],
    [CounterMap] the map of the [CodeGenPGO] object it fills. *)
Record t : Type := mk {
  stop : bool;
  NextCounter : Z;                 (* unsigned *)
  Hash : PGOHash.t;
  CounterMap : gmap N Z            (* DenseMap<const RootObject*, unsigned> *)
}.

(** [MapRegionCounters(CounterMap) : NextCounter(0), CounterMap(CounterMap)]
    over the freshly allocated map. *)
Definition init : t :=
  {| stop := false; NextCounter := 0; Hash := PGOHash.init; CounterMap := ∅ |}.

(** [stop = true;] *)
Definition set_stop (b : bool) (v : t) : t :=
  {| stop := b; NextCounter := NextCounter v; Hash := Hash v;
     CounterMap := CounterMap v |}.

(** [CounterMap[key] = NextCounter++;] *)
Definition assign (key : ptr) (v : t) : t :=
  {| stop := stop v; NextCounter := wrap32 (NextCounter v + 1); Hash := Hash v;
     CounterMap := <[key := NextCounter v]> (CounterMap v) |}.

(** [Hash.combine(ty);] *)
Definition hash (ty : HashType) (v : t) : t :=
  {| stop := stop v; NextCounter := NextCounter v;
     Hash := PGOHash.combine (Hash v) ty; CounterMap := CounterMap v |}.

(** The macro [SKIP_VISITED(Stmt)]: return when the node has a counter. *)
Definition SKIP_VISITED (Stmt : ptr) (v : t) (rest : t → t) : t :=
  if decide (is_Some (CounterMap v !! Stmt)) then v else rest v.

(** The objects the visitor is called on, each with the fields its
    [visit] reads.  [CaseRangeStatement] has no constructor: case ranges
    are lowered to case statements before this pass, and its [visit]
    asserts so. *)
Inductive Node : Type :=
| Other     (* a plain Statement, Expression, Declaration or Initializer *)
| FuncDeclaration (fbody : ptr)
| IfStatement (stmt : ptr)
| WhileStatement (stmt : ptr)
| DoStatement (stmt : ptr)
| ForStatement (stmt : ptr)
| ForeachStatement (stmt : ptr)
| ForeachRangeStatement (stmt : ptr)
| LabelStatement (stmt : ptr)
| SwitchStatement (stmt : ptr)
| CaseStatement (stmt : ptr) (gototarget : bool)
| DefaultStatement (stmt : ptr) (gototarget : bool)
| TryCatchStatement (stmt : ptr) (catches : list ptr)
| TryFinallyStatement (stmt : ptr) (_body finalbody : ptr)
| CondExp (expr : ptr)
| AndAndExp (expr : ptr)
| OrOrExp (expr : ptr).

Definition visit (n : Node) (v : t) : t :=
  match n with
  | Other => v
  | FuncDeclaration fbody =>
      if negb (NextCounter v =? 0) then
        (* This is a nested function declaration.  Stop recursion at
           this depth. *)
        set_stop true v
      else assign fbody v
  | IfStatement stmt =>
      SKIP_VISITED stmt v (λ v, hash IfStmt (assign stmt v))
  | WhileStatement stmt =>
      SKIP_VISITED stmt v (λ v, hash WhileStmt (assign stmt v))
  | DoStatement stmt =>
      SKIP_VISITED stmt v (λ v, hash DoStmt (assign stmt v))
  | ForStatement stmt =>
      SKIP_VISITED stmt v (λ v, hash ForStmt (assign stmt v))
  | ForeachStatement stmt =>
      SKIP_VISITED stmt v (λ v, hash ForeachStmt (assign stmt v))
  | ForeachRangeStatement stmt =>
      SKIP_VISITED stmt v (λ v, hash ForeachRangeStmt (assign stmt v))
  | LabelStatement stmt =>
      SKIP_VISITED stmt v (λ v, hash LabelStmt (assign stmt v))
  | SwitchStatement stmt =>
      SKIP_VISITED stmt v (λ v, hash SwitchStmt (assign stmt v))
  | CaseStatement stmt gototarget =>
      SKIP_VISITED stmt v (λ v,
        let v := hash CaseStmt (assign stmt v) in
        (* Iff this statement is the target of a goto case statement, add
           an extra counter for this case. *)
        if gototarget
        then hash CaseGoto (assign (CodeGenPGO.getCounterPtr stmt 1) v)
        else v)
  | DefaultStatement stmt gototarget =>
      SKIP_VISITED stmt v (λ v,
        let v := hash DefaultStmt (assign stmt v) in
        if gototarget
        then hash CaseGoto (assign (CodeGenPGO.getCounterPtr stmt 1) v)
        else v)
  | TryCatchStatement stmt catches =>
      SKIP_VISITED stmt v (λ v,
        let v := hash TryCatchStmt (assign stmt v) in
        (* for (auto c : *stmt->catches) *)
        foldl (λ v c, hash TryCatchCatch (assign c v)) v catches)
  | TryFinallyStatement stmt _body finalbody =>
      (* If there is nothing to "try" or no cleanup, do nothing: *)
      if decide (_body = nullptr ∨ finalbody = nullptr) then v
      else SKIP_VISITED stmt v (λ v, hash TryFinallyStmt (assign stmt v))
  | CondExp expr =>
      SKIP_VISITED expr v (λ v, hash ConditionalExpr (assign expr v))
  | AndAndExp expr =>
      SKIP_VISITED expr v (λ v, hash AndAndExpr (assign expr v))
  | OrOrExp expr =>
      SKIP_VISITED expr v (λ v, hash OrOrExpr (assign expr v))
  end.

(** The syntax tree as the walker sees it: a node and its structural
    children in order. *)
#[local] Unset Elimination Schemes.
Inductive Tree : Type :=
| Tr (n : Node) (children : list Tree).
#[local] Set Elimination Schemes.

(** Modelled from the spec: [RecursiveWalker] is defined in
    gen/recursivevisitor.h, which is not among the sources.  One
    depth-first walk that calls the visitor on a node before its
    children; when the visitor sets [stop] the walk into that subtree is
    halted and the traversal continues with the siblings. *)
Fixpoint walk (tr : Tree) (v : t) {struct tr} : t :=
  match tr with
  | Tr n children =>
      let v := visit n v in
      if stop v then set_stop false v
      else foldl (λ v c, walk c v) v children
  end.

(** [CodeGenPGO::mapRegionCounters(D)], for the declaration [D] with the
    body pointer [fbody] and the structural children [children]: the
    object with its counter map, number of counters and hash set, or
    [None] when one of the two assertions fails. *)
Definition mapRegionCounters (MD5_final : list Z → list Z)
    (fbody : ptr) (children : list Tree) (pgo : CodeGenPGO.t)
  : option CodeGenPGO.t :=
  let regioncounter := walk (Tr (FuncDeclaration fbody) children) init in
  if negb (0 <? NextCounter regioncounter) then None
  else if negb (NextCounter regioncounter =?
                Z.of_nat (size (CounterMap regioncounter))) then None
  else Some {| CodeGenPGO.FuncName := CodeGenPGO.FuncName pgo;
               CodeGenPGO.NumRegionCounters := NextCounter regioncounter;
               CodeGenPGO.FunctionHash :=
                 PGOHash.finalize MD5_final (Hash regioncounter);
               CodeGenPGO.RegionCounterMap := Some (CounterMap regioncounter);
               CodeGenPGO.StmtCountMap := CodeGenPGO.StmtCountMap pgo;
               CodeGenPGO.RegionCounts := CodeGenPGO.RegionCounts pgo |}.

End MapRegionCounters.

(* ===================================================================== *)
(** * ComputeRegionCounts: the counting pass                              *)
(* ===================================================================== *)

Module ComputeRegionCounts.

Import CodeGenPGO.

(** ** The syntax tree

    Every node carries its address.  A child that [recurse] tests for
    null is an [option]; the operands of the three expressions with a
    counter are never null. *)

#[local] Unset Elimination Schemes.

Inductive Expression : Type :=
| OtherExp (E : ptr) (operands : list Expression)
| CondExp (E : ptr) (econd e1 e2 : Expression)
| AndAndExp (E : ptr) (e1 e2 : Expression)
| OrOrExp (E : ptr) (e1 e2 : Expression).

Inductive Statement : Type :=
| OtherStatement (S : ptr)
| ExpStatement (S : ptr) (exp : option Expression)
| CompoundStatement (S : ptr) (statements : list Statement)
| ReturnStatement (S : ptr) (exp : option Expression)
| ThrowStatement (S : ptr) (exp : option Expression)
| GotoStatement (S : ptr)
| LabelStatement (S : ptr) (statement : option Statement)
| BreakStatement (S : ptr) (target : ptr)
| ContinueStatement (S : ptr) (target : ptr)
| WhileStatement (S : ptr) (condition : option Expression)
    (_body : option Statement)
| DoStatement (S : ptr) (_body : option Statement)
    (condition : option Expression)
| ForStatement (S : ptr) (_init : option Statement)
    (condition increment : option Expression) (_body : option Statement)
| ForeachStatement (S : ptr) (aggr : option Expression)
    (_body : option Statement)
| ForeachRangeStatement (S : ptr) (lwr upr : option Expression)
    (_body : option Statement)
| SwitchStatement (S : ptr) (condition : option Expression)
    (_body : option Statement)
| CaseStatement (S : ptr) (gototarget : bool) (statement : option Statement)
| DefaultStatement (S : ptr) (gototarget : bool) (statement : option Statement)
| GotoDefaultStatement (S : ptr)
| GotoCaseStatement (S : ptr)
| IfStatement (S : ptr) (condition : option Expression)
    (ifbody elsebody : option Statement)
| TryCatchStatement (S : ptr) (_body : option Statement) (catches : list Catch)
| TryFinallyStatement (S : ptr) (_body finalbody : option Statement)
with Catch : Type :=
| mkCatch (c : ptr) (handler : option Statement).

#[local] Set Elimination Schemes.

Record FuncDeclaration : Type := mkFuncDeclaration {
  fbody : option Statement
}.

(** The address of a node. *)
Definition addrE (e : Expression) : ptr :=
  match e with
  | OtherExp E _ | CondExp E _ _ _ | AndAndExp E _ _ | OrOrExp E _ _ => E
  end.

Definition addrS (s : Statement) : ptr :=
  match s with
  | OtherStatement S_ | ExpStatement S_ _ | CompoundStatement S_ _
  | ReturnStatement S_ _ | ThrowStatement S_ _ | GotoStatement S_
  | LabelStatement S_ _ | BreakStatement S_ _ | ContinueStatement S_ _
  | WhileStatement S_ _ _ | DoStatement S_ _ _ | ForStatement S_ _ _ _ _
  | ForeachStatement S_ _ _ | ForeachRangeStatement S_ _ _ _
  | SwitchStatement S_ _ _ | CaseStatement S_ _ _ | DefaultStatement S_ _ _
  | GotoDefaultStatement S_ | GotoCaseStatement S_ | IfStatement S_ _ _ _
  | TryCatchStatement S_ _ _ | TryFinallyStatement S_ _ _ => S_
  end.

(** The value of a pointer field: the address of the child, or null. *)
Definition ptrE (e : option Expression) : ptr := from_option addrE nullptr e.
Definition ptrS (s : option Statement) : ptr := from_option addrS nullptr s.

(** ** The state of the visitor *)

Record BreakContinue : Type := mkBreakContinue {
  BreakCount : Z;
  ContinueCount : Z
}.

Record LoopLabel : Type := mkLoopLabel {
  label : ptr;
  stackindex : nat
}.

Record t : Type := mk {
  RecordNextStmtCount : bool;
  CurrentCount : Z;                          (* uint64_t *)
  CountMap : gmap N Z;                       (* DenseMap<const RootObject*, uint64_t> *)
  BreakContinueStack : list BreakContinue;   (* back() is the last element *)
  LoopLabels : list LoopLabel
}.

(** The constructor leaves [CurrentCount] uninitialised; the visit of the
    function declaration sets it before it is read. *)
Definition init : t :=
  {| RecordNextStmtCount := false; CurrentCount := 0; CountMap := ∅;
     BreakContinueStack := []; LoopLabels := [] |}.

Definition set_RecordNextStmtCount (b : bool) (v : t) : t :=
  {| RecordNextStmtCount := b; CurrentCount := CurrentCount v;
     CountMap := CountMap v; BreakContinueStack := BreakContinueStack v;
     LoopLabels := LoopLabels v |}.

(** [CountMap[key] = Count;] *)
Definition set_CountMap (key : ptr) (Count : Z) (v : t) : t :=
  {| RecordNextStmtCount := RecordNextStmtCount v; CurrentCount := CurrentCount v;
     CountMap := <[key := Count]> (CountMap v);
     BreakContinueStack := BreakContinueStack v; LoopLabels := LoopLabels v |}.

Definition set_BreakContinueStack (stack : list BreakContinue) (v : t) : t :=
  {| RecordNextStmtCount := RecordNextStmtCount v; CurrentCount := CurrentCount v;
     CountMap := CountMap v; BreakContinueStack := stack;
     LoopLabels := LoopLabels v |}.

Definition set_LoopLabels (labels : list LoopLabel) (v : t) : t :=
  {| RecordNextStmtCount := RecordNextStmtCount v; CurrentCount := CurrentCount v;
     CountMap := CountMap v; BreakContinueStack := BreakContinueStack v;
     LoopLabels := labels |}.

Definition RecordStmtCount (S : ptr) (v : t) : t :=
  if RecordNextStmtCount v
  then set_RecordNextStmtCount false (set_CountMap S (CurrentCount v) v)
  else v.

(** Set the current count. *)
Definition setCount (Count : Z) (v : t) : t :=
  {| RecordNextStmtCount := RecordNextStmtCount v; CurrentCount := Count;
     CountMap := CountMap v; BreakContinueStack := BreakContinueStack v;
     LoopLabels := LoopLabels v |}.

(** [BreakContinueStack.push_back(BreakContinue());] *)
Definition push_back (v : t) : t :=
  set_BreakContinueStack
    (BreakContinueStack v ++ [{| BreakCount := 0; ContinueCount := 0 |}]) v.

(** [BreakContinueStack.pop_back_val()]; undefined on an empty stack. *)
Definition pop_back_val (v : t) : option (BreakContinue * t) :=
  BC ← last (BreakContinueStack v);
  Some (BC, set_BreakContinueStack (removelast (BreakContinueStack v)) v).

Definition add_BreakCount (n : Z) (BC : BreakContinue) : BreakContinue :=
  {| BreakCount := add64 (BreakCount BC) n; ContinueCount := ContinueCount BC |}.

Definition add_ContinueCount (n : Z) (BC : BreakContinue) : BreakContinue :=
  {| BreakCount := BreakCount BC; ContinueCount := add64 (ContinueCount BC) n |}.

(** The frame a break or continue statement adds to: the one a visited
    label recorded for [target], or the innermost.  [None] when one of
    the assertions fails. *)
Definition target_frame (target : ptr) (v : t) : option nat :=
  if decide (BreakContinueStack v = []) then None
  else if decide (target ≠ nullptr) then
    '(_, LL) ← list_find (λ LL, label LL = target) (LoopLabels v);
    if decide (stackindex LL < length (BreakContinueStack v))%nat
    then Some (stackindex LL) else None
  else Some (length (BreakContinueStack v) - 1)%nat.

(** [CurrentCount = 0; RecordNextStmtCount = true;] *)
Definition leave (v : t) : t := set_RecordNextStmtCount true (setCount 0 v).

(** ** The visitor *)

Section Recurse.
Context {A : Type} (visit : A → t → option t).

(** [recurse(x)]: visit the child unless the pointer is null. *)
Definition recurse (x : option A) (v : t) : option t :=
  match x with
  | Some a => visit a v
  | None => Some v
  end.

(** [recurse] over the elements of an array, in order. *)
Fixpoint recurse_all (xs : list A) (v : t) : option t :=
  match xs with
  | [] => Some v
  | x :: xs => v ← visit x v; recurse_all xs v
  end.
End Recurse.

Section Visit.
Variable PGO : CodeGenPGO.t.

(** Modelled from the spec: the [visit] of an expression that carries no
    counter is inherited from [RecursiveVisitor] (gen/recursivevisitor.h,
    not among the sources): its operands are visited in order. *)
Fixpoint visitE (e : Expression) (v : t) {struct e} : option t :=
  match e with
  | OtherExp E operands => recurse_all visitE operands v
  | CondExp E econd e1 e2 =>
      let v := RecordStmtCount E v in
      let ParentCount := CurrentCount v in
      v ← visitE econd v;
      (* Counter tracks the "true" part of a conditional operator. *)
      let TrueCount := getRegionCount PGO E in
      let v := setCount TrueCount v in
      let v := set_CountMap (addrE e1) TrueCount v in
      v ← visitE e1 v;
      let OutCount := CurrentCount v in
      let FalseCount := sub64 ParentCount TrueCount in
      let v := setCount FalseCount v in
      let v := set_CountMap (addrE e2) FalseCount v in
      v ← visitE e2 v;
      let OutCount := add64 OutCount (CurrentCount v) in
      Some (set_RecordNextStmtCount true (setCount OutCount v))
  | AndAndExp E e1 e2 =>
      let v := RecordStmtCount E v in
      let ParentCount := CurrentCount v in
      v ← visitE e1 v;
      (* Counter tracks the right hand side of a logical and operator. *)
      let RHSCount := getRegionCount PGO E in
      let v := setCount RHSCount v in
      let v := set_CountMap (addrE e2) RHSCount v in
      v ← visitE e2 v;
      let v := setCount (sub64 (add64 ParentCount RHSCount) (CurrentCount v)) v in
      Some (set_RecordNextStmtCount true v)
  | OrOrExp E e1 e2 =>
      let v := RecordStmtCount E v in
      let ParentCount := CurrentCount v in
      v ← visitE e1 v;
      (* Counter tracks the right hand side of a logical or operator. *)
      let RHSCount := getRegionCount PGO E in
      let v := setCount RHSCount v in
      let v := set_CountMap (addrE e2) RHSCount v in
      v ← visitE e2 v;
      let v := setCount (sub64 (add64 ParentCount RHSCount) (CurrentCount v)) v in
      Some (set_RecordNextStmtCount true v)
  end.

(** The statements.  Modelled from the spec: the [visit] of an
    expression statement and of a compound statement are inherited from
    [RecursiveVisitor] (gen/recursivevisitor.h, not among the sources):
    the structural children are visited in order.  [OtherStatement] is
    any statement that reaches the [visit] of a plain [Statement]. *)
Fixpoint visitS (s : Statement) (v : t) {struct s} : option t :=
  match s with
  | OtherStatement S_ => Some (RecordStmtCount S_ v)
  | ExpStatement S_ exp => recurse visitE exp v
  | CompoundStatement S_ statements => recurse_all visitS statements v
  | ReturnStatement S_ exp =>
      let v := RecordStmtCount S_ v in
      v ← recurse visitE exp v;
      Some (leave v)
  | ThrowStatement S_ exp =>
      let v := RecordStmtCount S_ v in
      v ← recurse visitE exp v;
      Some (leave v)
  | GotoStatement S_ =>
      let v := RecordStmtCount S_ v in
      Some (leave v)
  | LabelStatement S_ statement =>
      let v := set_RecordNextStmtCount false v in
      (* Counter tracks the block following the label. *)
      let BlockCount := getRegionCount PGO S_ in
      let v := setCount BlockCount v in
      let v := set_CountMap S_ BlockCount v in
      let v :=
        set_LoopLabels
          (LoopLabels v
           ++ [{| label := S_; stackindex := length (BreakContinueStack v) |}])
          v in
      recurse visitS statement v
  | BreakStatement S_ target =>
      let v := RecordStmtCount S_ v in
      i ← target_frame target v;
      let v :=
        set_BreakContinueStack
          (alter (add_BreakCount (CurrentCount v)) i (BreakContinueStack v)) v in
      Some (leave v)
  | ContinueStatement S_ target =>
      let v := RecordStmtCount S_ v in
      i ← target_frame target v;
      let v :=
        set_BreakContinueStack
          (alter (add_ContinueCount (CurrentCount v)) i (BreakContinueStack v))
          v in
      Some (leave v)
  | WhileStatement S_ condition _body =>
      let v := RecordStmtCount S_ v in
      let ParentCount := CurrentCount v in
      let v := push_back v in
      (* Visit the body region first so the break/continue adjustments
         can be included when visiting the condition. *)
      let BodyCount := getRegionCount PGO S_ in
      let v := setCount BodyCount v in
      let v := set_CountMap (ptrS _body) (CurrentCount v) v in
      v ← recurse visitS _body v;
      let BackedgeCount := CurrentCount v in
      (* ...then go back and propagate counts through the condition. *)
      '(BC, v) ← pop_back_val v;
      let CondCount :=
        add64 (add64 ParentCount BackedgeCount) (ContinueCount BC) in
      let v := setCount CondCount v in
      let v := set_CountMap (ptrE condition) CondCount v in
      v ← recurse visitE condition v;
      let v := setCount (sub64 (add64 (BreakCount BC) CondCount) BodyCount) v in
      Some (set_RecordNextStmtCount true v)
  | DoStatement S_ _body condition =>
      let v := RecordStmtCount S_ v in
      let FallThroughCount := CurrentCount v in
      (* The instr count includes the fallthrough from the parent scope. *)
      let v := push_back v in
      let BodyCount := getRegionCount PGO S_ in
      let v := setCount BodyCount v in
      let v := set_CountMap (ptrS _body) BodyCount v in
      v ← recurse visitS _body v;
      let BackedgeCount := CurrentCount v in
      '(BC, v) ← pop_back_val v;
      (* The count at the start of the condition is equal to the count
         at the end of the body, plus any continues. *)
      let CondCount := add64 BackedgeCount (ContinueCount BC) in
      let v := setCount CondCount v in
      let v := set_CountMap (ptrE condition) CondCount v in
      v ← recurse visitE condition v;
      let LoopCount := sub64 BodyCount FallThroughCount in
      let v := setCount (sub64 (add64 (BreakCount BC) CondCount) LoopCount) v in
      Some (set_RecordNextStmtCount true v)
  | ForStatement S_ _init condition increment _body =>
      let v := RecordStmtCount S_ v in
      v ← recurse visitS _init v;
      let ParentCount := CurrentCount v in
      let v := push_back v in
      (* Visit the body region first. *)
      let BodyCount := getRegionCount PGO S_ in
      let v := setCount BodyCount v in
      let v := set_CountMap (ptrS _body) BodyCount v in
      v ← recurse visitS _body v;
      let BackedgeCount := CurrentCount v in
      '(BC, v) ← pop_back_val v;
      (* The increment is essentially part of the body but it needs to
         include the count for all the continue statements. *)
      v ← match increment with
          | Some inc =>
              let IncCount := add64 BackedgeCount (ContinueCount BC) in
              let v := setCount IncCount v in
              let v := set_CountMap (addrE inc) IncCount v in
              visitE inc v
          | None => Some v
          end;
      (* ...then go back and propagate counts through the condition. *)
      let CondCount :=
        add64 (add64 ParentCount BackedgeCount) (ContinueCount BC) in
      let v := setCount CondCount v in
      (* If condition is nullptr, store CondCount in a derived ptr *)
      let v :=
        set_CountMap
          (match condition with
           | Some c => addrE c
           | None => getCounterPtr S_ 1
           end) CondCount v in
      v ← recurse visitE condition v;
      let v := setCount (sub64 (add64 (BreakCount BC) CondCount) BodyCount) v in
      Some (set_RecordNextStmtCount true v)
  | ForeachStatement S_ aggr _body =>
      let v := RecordStmtCount S_ v in
      v ← recurse visitE aggr v;
      let ParentCount := CurrentCount v in
      let v := push_back v in
      (* Visit the body region first. *)
      let BodyCount := getRegionCount PGO S_ in
      let v := setCount BodyCount v in
      let v := set_CountMap (ptrS _body) BodyCount v in
      v ← recurse visitS _body v;
      let BackedgeCount := CurrentCount v in
      '(BC, v) ← pop_back_val v;
      let CondCount :=
        add64 (add64 ParentCount BackedgeCount) (ContinueCount BC) in
      (* save the condition count as the second counter for the foreach
         statement (there is no explicit condition statement). *)
      let v := set_CountMap (getCounterPtr S_ 1) CondCount v in
      let v := setCount (sub64 (add64 (BreakCount BC) CondCount) BodyCount) v in
      Some (set_RecordNextStmtCount true v)
  | ForeachRangeStatement S_ lwr upr _body =>
      let v := RecordStmtCount S_ v in
      v ← recurse visitE lwr v;
      v ← recurse visitE upr v;
      let ParentCount := CurrentCount v in
      let v := push_back v in
      (* Visit the body region first. *)
      let BodyCount := getRegionCount PGO S_ in
      let v := setCount BodyCount v in
      let v := set_CountMap (ptrS _body) BodyCount v in
      v ← recurse visitS _body v;
      let BackedgeCount := CurrentCount v in
      '(BC, v) ← pop_back_val v;
      let CondCount :=
        add64 (add64 ParentCount BackedgeCount) (ContinueCount BC) in
      let v := set_CountMap (getCounterPtr S_ 1) CondCount v in
      let v := setCount (sub64 (add64 (BreakCount BC) CondCount) BodyCount) v in
      Some (set_RecordNextStmtCount true v)
  | SwitchStatement S_ condition _body =>
      let v := RecordStmtCount S_ v in
      v ← recurse visitE condition v;
      let v := setCount 0 v in
      let v := push_back v in
      v ← recurse visitS _body v;
      (* If the switch is inside a loop, add the continue counts. *)
      '(BC, v) ← pop_back_val v;
      let v :=
        if decide (BreakContinueStack v ≠ []) then
          set_BreakContinueStack
            (alter (add_ContinueCount (ContinueCount BC))
               (length (BreakContinueStack v) - 1)%nat (BreakContinueStack v))
            v
        else v in
      (* Counter tracks the exit block of the switch. *)
      let v := setCount (getRegionCount PGO S_) v in
      Some (set_RecordNextStmtCount true v)
  | CaseStatement S_ gototarget statement =>
      (* Counter for this particular case.  This counts only jumps from
         the switch header and does not include fallthrough from the
         case before this one. *)
      let CaseCount := getRegionCount PGO S_ in
      let v := set_CountMap S_ CaseCount v in
      (* If this Case is the target of a goto case, it will have its own
         extra counter and behaves like a LabelStatement. *)
      let v :=
        if gototarget then
          let cntr := getCounterPtr S_ 1 in
          let v := setCount (getRegionCount PGO cntr) v in
          set_CountMap cntr (getRegionCount PGO cntr) v
        else setCount (add64 (CurrentCount v) CaseCount) v in
      let v := set_RecordNextStmtCount true v in
      recurse visitS statement v
  | DefaultStatement S_ gototarget statement =>
      (* Identical to CaseStatement handler. *)
      let CaseCount := getRegionCount PGO S_ in
      let v := set_CountMap S_ CaseCount v in
      let v :=
        if gototarget then
          let cntr := getCounterPtr S_ 1 in
          let v := setCount (getRegionCount PGO cntr) v in
          set_CountMap cntr (getRegionCount PGO cntr) v
        else setCount (add64 (CurrentCount v) CaseCount) v in
      let v := set_RecordNextStmtCount true v in
      recurse visitS statement v
  | GotoDefaultStatement S_ =>
      (* Identical to GotoStatement *)
      let v := RecordStmtCount S_ v in
      Some (leave v)
  | GotoCaseStatement S_ =>
      (* Identical to GotoStatement *)
      let v := RecordStmtCount S_ v in
      Some (leave v)
  | IfStatement S_ condition ifbody elsebody =>
      let v := RecordStmtCount S_ v in
      let ParentCount := CurrentCount v in
      v ← recurse visitE condition v;
      (* Counter tracks the "then" part of an if statement.  The count
         for the "else" part, if it exists, will be calculated from this
         counter. *)
      let ThenCount := getRegionCount PGO S_ in
      let v := setCount ThenCount v in
      let v := set_CountMap (ptrS ifbody) ThenCount v in
      v ← recurse visitS ifbody v;
      let OutCount := CurrentCount v in
      let ElseCount := sub64 ParentCount ThenCount in
      '(OutCount, v) ←
        match elsebody with
        | Some e =>
            let v := setCount ElseCount v in
            let v := set_CountMap (addrS e) ElseCount v in
            v ← visitS e v;
            Some (add64 OutCount (CurrentCount v), v)
        | None => Some (add64 OutCount ElseCount, v)
        end;
      let v := setCount OutCount v in
      Some (set_RecordNextStmtCount true v)
  | TryCatchStatement S_ _body catches =>
      let v := RecordStmtCount S_ v in
      (* Safest to store the current count in the body too. *)
      let v := set_RecordNextStmtCount true v in
      v ← recurse visitS _body v;
      v ← recurse_all visitCatch catches v;
      (* Try counter tracks the continuation block of the try statement. *)
      let v := setCount (getRegionCount PGO S_) v in
      Some (set_RecordNextStmtCount true v)
  | TryFinallyStatement S_ _body finalbody =>
      let v := RecordStmtCount S_ v in
      let ParentCount := CurrentCount v in
      let v := set_RecordNextStmtCount true v in
      v ← recurse visitS _body v;
      (* Finally is always executed, so has same incoming count as the
         parent count of the try statement. *)
      let v := setCount ParentCount v in
      let v := set_RecordNextStmtCount true v in
      v ← recurse visitS finalbody v;
      (* The TryFinally counter tracks the continuation block of the try
         statement. *)
      let v := setCount (getRegionCount PGO S_) v in
      Some (set_RecordNextStmtCount true v)
  end
(** The body of the loop over the catches of a try statement. *)
with visitCatch (c : Catch) (v : t) {struct c} : option t :=
  match c with
  | mkCatch c handler =>
      (* Catch counter tracks the entry block of catch handler *)
      let v := setCount (getRegionCount PGO c) v in
      let v := set_RecordNextStmtCount true v in
      recurse visitS handler v
  end.

(** [visit(FuncDeclaration *fd)] *)
Definition visitFuncDeclaration (fd : FuncDeclaration) (v : t) : option t :=
  (* Counter tracks entry to the function body. *)
  let BodyCount := getRegionCount PGO (ptrS (fbody fd)) in
  let v := setCount BodyCount v in
  let v := set_CountMap (ptrS (fbody fd)) BodyCount v in
  recurse visitS (fbody fd) v.

End Visit.

(** [CodeGenPGO::computeRegionCounts(FD)]: the object with its map of
    statement counts filled by the walk. *)
Definition computeRegionCounts (FD : FuncDeclaration) (pgo : CodeGenPGO.t)
  : option CodeGenPGO.t :=
  Walker ← visitFuncDeclaration pgo FD init;
  Some {| FuncName := FuncName pgo;
          NumRegionCounters := NumRegionCounters pgo;
          FunctionHash := FunctionHash pgo;
          RegionCounterMap := RegionCounterMap pgo;
          StmtCountMap := Some (CountMap Walker);
          RegionCounts := RegionCounts pgo |}.

End ComputeRegionCounts.

(* ===================================================================== *)
(** * CodeGenPGO: the weights of more than two branches                    *)
(* ===================================================================== *)

Module WeightsArray.

Import CodeGenPGO.

(** [*std::max_element(first, last)]: the largest element of a range that
    is not empty. *)
Definition max_element (Weights : list Z) : Z :=
  match Weights with
  | [] => 0
  | W :: Ws => foldl Z.max W Ws
  end.

(** [createProfileWeights(llvm::ArrayRef<uint64_t> Weights)], the overload
    for the targets of a switch. *)
Definition createProfileWeights (Weights : list Z) : option MDNode :=
  (* We need at least two elements to create meaningful weights. *)
  if Z.of_nat (length Weights) <? 2 then Some null
  else
    (* Check for empty weights. *)
    let MaxWeight := max_element Weights in
    if MaxWeight =? 0 then Some null
    else
      (* Calculate how to scale down to 32-bits. *)
      let Scale := calculateWeightScale MaxWeight in
      ScaledWeights ← mapM (λ W, scaleBranchWeight W Scale) Weights;
      Some (BranchWeights ScaledWeights).

End WeightsArray.

(* ===================================================================== *)
(** * CodeGenPGO: the entry points of the code generator                  *)
(* ===================================================================== *)

Module EntryPoints.

Import CodeGenPGO.

(** [llvm::GlobalValue::LinkageTypes] *)
Inductive LinkageTypes : Set :=
| ExternalLinkage
| AvailableExternallyLinkage
| LinkOnceAnyLinkage
| LinkOnceODRLinkage
| WeakAnyLinkage
| WeakODRLinkage
| AppendingLinkage
| InternalLinkage
| PrivateLinkage
| ExternalWeakLinkage
| CommonLinkage.

(** [llvm::GlobalValue::VisibilityTypes] *)
Inductive VisibilityTypes : Set :=
| DefaultVisibility
| HiddenVisibility
| ProtectedVisibility.

(** [llvm::GlobalValue::isLocalLinkage] *)
Definition isLocalLinkage (Linkage : LinkageTypes) : bool :=
  match Linkage with
  | InternalLinkage | PrivateLinkage => true
  | _ => false
  end.

(** An [llvm::GlobalVariable] that holds a string: its name, the string,
    whether it is constant, its linkage and its visibility. *)
Record GlobalVariable : Type := mkGlobalVariable {
  VarName : string;
  Initializer : string;
  isConstant : bool;
  VarLinkage : LinkageTypes;
  Visibility : VisibilityTypes
}.

(** [setVisibility] *)
Definition setVisibility (V : VisibilityTypes) (GV : GlobalVariable)
  : GlobalVariable :=
  {| VarName := VarName GV; Initializer := Initializer GV;
     isConstant := isConstant GV; VarLinkage := VarLinkage GV; Visibility := V |}.

(** [createFuncNameVar(Linkage)], of the builds with [LDC_LLVM_VER < 308]:
    the variable that holds the name of the function. *)
Definition createFuncNameVar (FuncName : string) (Linkage : LinkageTypes)
  : GlobalVariable :=
  (* We generally want to match the function's linkage, but
     available_externally and extern_weak both have the wrong semantics,
     and anything that doesn't need to link across compilation units
     doesn't need to be visible at all. *)
  let Linkage :=
    match Linkage with
    | ExternalWeakLinkage => LinkOnceAnyLinkage
    | AvailableExternallyLinkage => LinkOnceODRLinkage
    | InternalLinkage | ExternalLinkage => PrivateLinkage
    | _ => Linkage
    end in
  let FuncNameVar :=
    {| VarName := "__llvm_profile_name_" +:+ FuncName; Initializer := FuncName;
       isConstant := true; VarLinkage := Linkage;
       Visibility := DefaultVisibility |} in
  (* Hide the symbol so that we correctly get a copy for each executable. *)
  if negb (isLocalLinkage (VarLinkage FuncNameVar))
  then setVisibility HiddenVisibility FuncNameVar
  else FuncNameVar.

(** The members of [CodeGenPGO] that the passes do not use, beside those
    they do. *)
Record t : Type := mk {
  PGO : CodeGenPGO.t;
  emitInstrumentation : bool;
  FuncNameVar : option GlobalVariable
}.

Definition set_PGO (pgo : CodeGenPGO.t) (st : t) : t :=
  {| PGO := pgo; emitInstrumentation := emitInstrumentation st;
     FuncNameVar := FuncNameVar st |}.

Definition set_emitInstrumentation (b : bool) (st : t) : t :=
  {| PGO := PGO st; emitInstrumentation := b; FuncNameVar := FuncNameVar st |}.

Definition set_FuncNameVar (GV : option GlobalVariable) (st : t) : t :=
  {| PGO := PGO st; emitInstrumentation := emitInstrumentation st;
     FuncNameVar := GV |}.

Definition set_FuncName (name : string) (st : t) : t :=
  set_PGO {| FuncName := name;
             NumRegionCounters := NumRegionCounters (PGO st);
             FunctionHash := FunctionHash (PGO st);
             RegionCounterMap := RegionCounterMap (PGO st);
             StmtCountMap := StmtCountMap (PGO st);
             RegionCounts := RegionCounts (PGO st) |} st.

(** The call of the intrinsic [llvm.instrprof.increment] that
    [emitCounterIncrement] creates: the variable with the name, the hash,
    the number of counters and the index of the counter. *)
Record Increment : Type := mkIncrement {
  NameVar : option GlobalVariable;
  Hash : Z;             (* i64 *)
  NumCounters : Z;      (* i32 *)
  Index : Z             (* i32 *)
}.

(** What the entry points read of an [llvm::Function]. *)
Record Function : Type := mkFunction {
  getName : string;
  getLinkage : LinkageTypes
}.

(** What the entry points and the two passes read of the declaration of
    the function: the flag, the name for messages, the body pointer and the
    nodes below the declaration as the walker of the mapping pass meets
    them, and the statements as the counting pass visits them. *)
Record Declaration : Type := mkDeclaration {
  D_emitInstrumentation : bool;
  toPrettyChars : string;
  D_fbody : ptr;
  D_children : list MapRegionCounters.Tree;
  D_statements : ComputeRegionCounts.FuncDeclaration
}.

Section Globals.

(** The version of LLVM that LDC is built with. *)
Variable LDC_LLVM_VER : Z.
(** [global.params.genInstrProf] *)
Variable genInstrProf : bool.
(** Whether the logger is enabled. *)
Variable logging : bool.
(** [gIR->getPGOReader()] *)
Variable PGOReader : option IndexedInstrProfReader.
(** [llvm::getPGOFuncName(Name, Linkage, "", Version)] and
    [llvm::createPGOFuncNameVar(module, Linkage, FuncName)] of LLVM 3.8 and
    later, for the version of the reader or else the current version of the
    profile format. *)
Variable getPGOFuncName : string → LinkageTypes → string.
Variable createPGOFuncNameVar : LinkageTypes → string → GlobalVariable.
(** [MD5.final] *)
Variable MD5_final : list Z → list Z.

(** [setFuncName(Name, Linkage)].  [RawFuncName[0]] asserts that the name
    is not empty. *)
Definition setFuncName (Name : string) (Linkage : LinkageTypes) (st : t)
  : option t :=
  if 308 <=? LDC_LLVM_VER then
    let st := set_FuncName (getPGOFuncName Name Linkage) st in
    (* If we're generating a profile, create a variable for the name. *)
    if genInstrProf && emitInstrumentation st
    then Some (set_FuncNameVar
                 (Some (createPGOFuncNameVar Linkage (FuncName (PGO st)))) st)
    else Some st
  else
    match Name with
    | EmptyString => None
    | String c rest =>
        (* Function names may be prefixed with a binary '1' to indicate
           that the backend should not modify the symbols due to any
           platform naming convention.  Do not include that '1' in the PGO
           profile name. *)
        let RawFuncName := if Ascii.eqb c (Ascii.ascii_of_nat 1) then rest else Name in
        let st := set_FuncName RawFuncName st in
        (* If we're generating a profile, create a variable for the name. *)
        if genInstrProf && emitInstrumentation st
        then Some (set_FuncNameVar
                     (Some (createFuncNameVar (FuncName (PGO st)) Linkage)) st)
        else Some st
    end.

(** [applyFunctionAttributes(Fn)]: the entry count that is set on the
    function, if one is. *)
Definition applyFunctionAttributes (st : t) : option Z :=
  if negb (haveRegionCounts (PGO st)) then None
  else
    let FunctionCount := getRegionCount (PGO st) nullptr in
    Some FunctionCount.

(** [emitCounterIncrement(S)]: the calls that are created, or [None] when
    the statement is not found in the counter map. *)
Definition emitCounterIncrement (st : t) (S : ptr) : option (list Increment) :=
  match RegionCounterMap (PGO st) with
  | Some m =>
      if negb genInstrProf || negb (emitInstrumentation st) then Some []
      else
        counter ← m !! S;
        Some [ {| NameVar := FuncNameVar st;
                  Hash := FunctionHash (PGO st);
                  NumCounters := NumRegionCounters (PGO st);
                  Index := counter |} ]
  | None => Some []
  end.

(** [assignRegionCounters(D, fn)]: the object, the output of the loading
    and the entry count set on the function, or [None] when an assertion
    fails. *)
Definition assignRegionCounters (D : Declaration) (fn : Function) (st : t)
  : option (t * list Diagnostic * option Z) :=
  if negb genInstrProf && negb (bool_decide (is_Some PGOReader))
  then Some (st, [], None)
  else
    let st := set_emitInstrumentation (D_emitInstrumentation D) st in
    st ← setFuncName (getName fn) (getLinkage fn) st;
    pgo ← MapRegionCounters.mapRegionCounters MD5_final (D_fbody D)
             (D_children D) (PGO st);
    let st := set_PGO pgo st in
    match PGOReader with
    | Some reader =>
        let '(pgo, out) :=
          loadRegionCounts logging reader (toPrettyChars D) (PGO st) in
        pgo ← ComputeRegionCounts.computeRegionCounts (D_statements D) pgo;
        let st := set_PGO pgo st in
        Some (st, out, applyFunctionAttributes st)
    | None => Some (st, [], None)
    end.

End Globals.

End EntryPoints.


(* ===================================================================== *)
(** * Notions used in the statements                                       *)
(* ===================================================================== *)

(** ** Branch weights *)

Section WeightsNotions.
Import CodeGenPGO.

(** The scale as the specification words it. *)
Definition weight_scale (MaxWeight : Z) : Z :=
  if MaxWeight <? 2 ^ 32 - 1 then 1 else MaxWeight / (2 ^ 32 - 1) + 1.

(** A profile object with loaded counts in which the condition at address
    8 has the recorded count [C]. *)
Definition loop_profile (C : Z) : CodeGenPGO.t :=
  {| FuncName := "f";
     NumRegionCounters := 2;
     FunctionHash := 2;
     RegionCounterMap := Some {[ 16%N := 0; 24%N := 1 ]};
     StmtCountMap := Some {[ 8%N := C; 25%N := C ]};
     RegionCounts := [1; 10] |}.

End WeightsNotions.

(** ** Loading the raw counts *)

Section LoadingNotions.
Import CodeGenPGO.

(** A text names the function when the name occurs in it. *)
Definition names (text name : string) : Prop :=
  ∃ before after : string, text = before +:+ name +:+ after.

(** A reader that reports a hash mismatch after writing three counts. *)
Definition stale_reader : IndexedInstrProfReader :=
  λ _ _, (hash_mismatch, [1; 2; 3]).

Definition foo_profile : CodeGenPGO.t :=
  {| FuncName := "foo"; NumRegionCounters := 3; FunctionHash := 11;
     RegionCounterMap := None; StmtCountMap := None; RegionCounts := [9] |}.

End LoadingNotions.

(** ** The structural hash *)

Section HashingNotions.
Import PGOHash.

(** The tokens packed six bits each, the first token in the highest
    position. *)
Definition pack (tys : list HashType) : Z :=
  foldl (λ acc ty, acc * 2 ^ 6 + value ty) 0 tys.

(** Two sequences of twelve tokens that differ in the eleventh: a label
    statement in one, a foreach statement in the other. *)
Definition tokens_label : list HashType :=
  replicate 10 IfStmt ++ [LabelStmt; IfStmt].
Definition tokens_foreach : list HashType :=
  replicate 10 IfStmt ++ [ForeachStmt; IfStmt].

End HashingNotions.

(** ** The mapping pass *)

Section MappingNotions.
Import PGOHash MapRegionCounters.

(** The nodes of a tree in the order of the walk. *)
Fixpoint nodes (tr : Tree) : list Node :=
  match tr with
  | Tr n children => n :: (children ≫= nodes)
  end.

(** The number of counters the visit of a node can assign. *)
Definition counters_of (n : Node) : Z :=
  match n with
  | Other => 0
  | CaseStatement _ gototarget | DefaultStatement _ gototarget =>
      if gototarget then 2 else 1
  | TryCatchStatement _ catches => 1 + Z.of_nat (length catches)
  | _ => 1
  end.

Definition capacity (ns : list Node) : Z :=
  foldr (λ n acc, counters_of n + acc) 0 ns.

(** The addresses of the statements and expressions that can receive a
    counter: the key of the first counter of a node. *)
Definition object_of (n : Node) : list ptr :=
  match n with
  | Other => []
  | FuncDeclaration p | IfStatement p | WhileStatement p | DoStatement p
  | ForStatement p | ForeachStatement p | ForeachRangeStatement p
  | LabelStatement p | SwitchStatement p | CaseStatement p _
  | DefaultStatement p _ | TryCatchStatement p _ | TryFinallyStatement p _ _
  | CondExp p | AndAndExp p | OrOrExp p => [p]
  end.

(** The addresses of the catch clauses of a node. *)
Definition catches_of (n : Node) : list ptr :=
  match n with
  | TryCatchStatement _ catches => catches
  | _ => []
  end.

(** The objects of a function are laid out as objects are in memory:
    - every object lies at an even address, so that [getCounterPtr p 1] is
      the address of no object;
    - a catch clause is not a statement or an expression;
    - the catch clauses of a try statement are distinct objects;
    - a catch clause belongs to one try statement: two nodes that share a
      catch clause are the same statement.
    A statement or an expression may occur several times in the tree. *)
Definition well_formed (ns : list Node) : bool :=
  bool_decide (Forall (λ p, N.even p = true)
                 ((ns ≫= object_of) ++ (ns ≫= catches_of)))
  && bool_decide (Forall (λ c, c ∉ ns ≫= object_of) (ns ≫= catches_of))
  && bool_decide (Forall (λ n, NoDup (catches_of n)) ns)
  && bool_decide (Forall (λ n1, Forall (λ n2,
                      object_of n1 = object_of n2
                      ∨ Forall (λ c, c ∉ catches_of n2) (catches_of n1)) ns) ns).

(** The counter map is a bijection between its keys and the indices below
    [NextCounter]. *)
Record dense (v : MapRegionCounters.t) : Prop := {
  dense_range : ∀ k i, CounterMap v !! k = Some i → 0 <= i < NextCounter v;
  dense_cover : ∀ i, 0 <= i < NextCounter v → ∃ k, CounterMap v !! k = Some i;
  dense_inj : ∀ k1 k2 i,
    CounterMap v !! k1 = Some i → CounterMap v !! k2 = Some i → k1 = k2;
  dense_size : NextCounter v = Z.of_nat (size (CounterMap v))
}.

(** A key at an odd address is the second counter of a node that has its
    first; a catch clause with a counter belongs to statements that have
    theirs. *)
Record keyed (ns : list Node) (v : MapRegionCounters.t) : Prop := {
  keyed_odd : ∀ k,
    is_Some (CounterMap v !! k) → N.even k = false →
    is_Some (CounterMap v !! (k - 1)%N);
  keyed_catch : ∀ n c,
    n ∈ ns → c ∈ catches_of n → is_Some (CounterMap v !! c) →
    ∃ p, object_of n = [p] ∧ is_Some (CounterMap v !! p)
}.

Definition inv (ns : list Node) (v : MapRegionCounters.t) : Prop :=
  dense v ∧ keyed ns v.

(** From [v] to [v']: the invariant holds again, at most [extra] counters
    were assigned, no entry of the map changed, and every new entry has an
    index that was not yet assigned. *)
Definition advances (ns : list Node) (extra : Z) (v v' : MapRegionCounters.t)
  : Prop :=
  inv ns v'
  ∧ NextCounter v <= NextCounter v' <= NextCounter v + extra
  ∧ CounterMap v ⊆ CounterMap v'
  ∧ (∀ k j, CounterMap v' !! k = Some j → CounterMap v !! k = None →
            NextCounter v <= j).

(** A function whose body is a try statement with two catch clauses; the
    try body holds an if statement and the first handler a while loop. *)
Definition try_function : list Tree :=
  [Tr (TryCatchStatement 32 [48; 64]%N)
      [Tr (IfStatement 80) []; Tr (WhileStatement 96) []; Tr Other []]].

(** [MD5.final] replaced by a constant, for running the pass. *)
Definition no_digest : list Z → list Z := λ _, replicate 16 0.

Definition empty_profile : CodeGenPGO.t :=
  {| CodeGenPGO.FuncName := "f"; CodeGenPGO.NumRegionCounters := 0;
     CodeGenPGO.FunctionHash := 0; CodeGenPGO.RegionCounterMap := None;
     CodeGenPGO.StmtCountMap := None; CodeGenPGO.RegionCounts := [] |}.

(** A function with a case statement that is the target of a goto and an
    if statement that occurs twice in the tree. *)
Definition switch_function : list Tree :=
  [Tr (SwitchStatement 112)
      [Tr (CaseStatement 128 true) [Tr (IfStatement 144) []];
       Tr (DefaultStatement 160 false) [Tr (IfStatement 144) []]]].

End MappingNotions.

(** ** The counting pass *)

Section CountingNotions.
Import CodeGenPGO ComputeRegionCounts.

(** A property of a child that may be absent. *)
Definition child {A : Type} (P : A → Prop) (x : option A) : Prop :=
  match x with
  | Some a => P a
  | None => True
  end.

Definition handler_of (c : Catch) : option Statement :=
  match c with mkCatch _ handler => handler end.

Definition depth (v : ComputeRegionCounts.t) : nat :=
  length (BreakContinueStack v).

(** A statement none of whose assertions can fail: every break and
    continue statement lies in a loop or a switch ([inside] tells whether
    the statement itself does) and names no label. *)
Fixpoint safe (inside : bool) (s : Statement) : bool :=
  match s with
  | BreakStatement _ target | ContinueStatement _ target =>
      inside && bool_decide (target = nullptr)
  | CompoundStatement _ statements => forallb (safe inside) statements
  | LabelStatement _ statement | CaseStatement _ _ statement
  | DefaultStatement _ _ statement =>
      from_option (safe inside) true statement
  | WhileStatement _ _ _body | DoStatement _ _body _
  | ForeachStatement _ _ _body | ForeachRangeStatement _ _ _ _body
  | SwitchStatement _ _ _body =>
      from_option (safe true) true _body
  | ForStatement _ _init _ _ _body =>
      from_option (safe inside) true _init && from_option (safe true) true _body
  | IfStatement _ _ ifbody elsebody =>
      from_option (safe inside) true ifbody
      && from_option (safe inside) true elsebody
  | TryCatchStatement _ _body catches =>
      from_option (safe inside) true _body
      && forallb (λ c, match c with
                       | mkCatch _ handler => from_option (safe inside) true handler
                       end) catches
  | TryFinallyStatement _ _body finalbody =>
      from_option (safe inside) true _body
      && from_option (safe inside) true finalbody
  | _ => true
  end.

(** The addresses of the nodes of an expression, its own first. *)
Fixpoint addrsE (e : Expression) : list ptr :=
  match e with
  | OtherExp E operands => E :: (operands ≫= addrsE)
  | CondExp E econd e1 e2 => E :: addrsE econd ++ addrsE e1 ++ addrsE e2
  | AndAndExp E e1 e2 | OrOrExp E e1 e2 => E :: addrsE e1 ++ addrsE e2
  end.

Definition keysE (e : option Expression) : list ptr := from_option addrsE [] e.

(** The keys of the count map that the visit of a statement can write: the
    addresses of its nodes, the values of the pointer fields it records a
    count for (null for an absent child) and the derived pointers. *)
Fixpoint keysS (s : Statement) : list ptr :=
  match s with
  | OtherStatement S_ | GotoStatement S_ | BreakStatement S_ _
  | ContinueStatement S_ _ | GotoDefaultStatement S_ | GotoCaseStatement S_ =>
      [S_]
  | ExpStatement S_ exp | ReturnStatement S_ exp | ThrowStatement S_ exp =>
      S_ :: keysE exp
  | CompoundStatement S_ statements => S_ :: (statements ≫= keysS)
  | LabelStatement S_ statement => S_ :: from_option keysS [] statement
  | WhileStatement S_ condition _body | DoStatement S_ _body condition =>
      S_ :: ptrS _body :: ptrE condition
         :: from_option keysS [] _body ++ keysE condition
  | ForStatement S_ _init condition increment _body =>
      S_ :: getCounterPtr S_ 1 :: ptrS _body :: ptrE condition :: ptrE increment
         :: from_option keysS [] _init ++ from_option keysS [] _body
            ++ keysE increment ++ keysE condition
  | ForeachStatement S_ aggr _body =>
      S_ :: getCounterPtr S_ 1 :: ptrS _body
         :: keysE aggr ++ from_option keysS [] _body
  | ForeachRangeStatement S_ lwr upr _body =>
      S_ :: getCounterPtr S_ 1 :: ptrS _body
         :: keysE lwr ++ keysE upr ++ from_option keysS [] _body
  | SwitchStatement S_ condition _body =>
      S_ :: keysE condition ++ from_option keysS [] _body
  | CaseStatement S_ _ statement | DefaultStatement S_ _ statement =>
      S_ :: getCounterPtr S_ 1 :: from_option keysS [] statement
  | IfStatement S_ condition ifbody elsebody =>
      S_ :: ptrS ifbody :: ptrS elsebody
         :: keysE condition ++ from_option keysS [] ifbody
            ++ from_option keysS [] elsebody
  | TryCatchStatement S_ _body catches =>
      S_ :: from_option keysS [] _body
            ++ (catches ≫= λ c, match c with
                                | mkCatch _ handler => from_option keysS [] handler
                                end)
  | TryFinallyStatement S_ _body finalbody =>
      S_ :: from_option keysS [] _body ++ from_option keysS [] finalbody
  end.

(** The statements whose visit overwrites the count recorded for them with
    their own raw counter. *)
Definition own_counter (s : Statement) : bool :=
  match s with
  | LabelStatement _ _ | CaseStatement _ _ _ | DefaultStatement _ _ _ => true
  | _ => false
  end.

(** A child for which the visit keeps the count recorded at its entry: it
    is absent, or it is not a label, case or default statement and its
    address is not among its other keys. *)
Definition keeps_count (x : option Statement) : Prop :=
  match x with
  | Some s => own_counter s = false ∧ addrS s ∉ tail (keysS s)
  | None => True
  end.

(** An expression no node of which occurs twice. *)
Definition distinct_nodes (x : option Expression) : Prop :=
  match x with
  | Some e => NoDup (addrsE e)
  | None => True
  end.

(** The visit of a safe statement returns, whatever the state, as long as
    the stack of loops is not empty when the statement lies in a loop. *)
Definition returns (PGO : CodeGenPGO.t) (s : Statement) : Prop :=
  ∀ inside v, safe inside s = true → (inside = true → (0 < depth v)%nat) →
              ∃ v', visitS PGO s v = Some v'.

(** A function with one while loop: [while (c) { s; }]. *)
Definition while_loop : Statement :=
  WhileStatement 32 (Some (OtherExp 48 []))
    (Some (CompoundStatement 64 [OtherStatement 80])).

(** The counters of a function and of one loop or branch at address 32,
    with the raw counts [entry] and [own]. *)
Definition counts_of (entry own : Z) : CodeGenPGO.t :=
  {| FuncName := "f"; NumRegionCounters := 2; FunctionHash := 0;
     RegionCounterMap := Some {[ 16%N := 0; 32%N := 1 ]};
     StmtCountMap := None;
     RegionCounts := [entry; own] |}.

(** A function with one do loop: [do { s; } while (c);]. *)
Definition do_loop : Statement :=
  DoStatement 32 (Some (CompoundStatement 64 [OtherStatement 80]))
    (Some (OtherExp 48 [])).

(** A function with one if statement without else: [if (c) { s; t; }]. *)
Definition if_statement : Statement :=
  IfStatement 32 (Some (OtherExp 48 []))
    (Some (CompoundStatement 64 [OtherStatement 80; OtherStatement 96])) None.

(** An if statement whose then branch is a label: [if (c) L: s;]. *)
Definition if_label : Statement :=
  IfStatement 32 (Some (OtherExp 48 []))
    (Some (LabelStatement 64 (Some (OtherStatement 80)))) None.

Definition label_profile : CodeGenPGO.t :=
  {| FuncName := "f"; NumRegionCounters := 3; FunctionHash := 0;
     RegionCounterMap := Some {[ 16%N := 0; 32%N := 1; 64%N := 2 ]};
     StmtCountMap := None;
     RegionCounts := [100; 60; 75] |}.

(** A loop that is left by a break and restarted by a continue:
    [while (c) { if (a) break; if (b) continue; s; }], and the raw counts of
    a run that enters the loop 10 times. *)
Definition loop_with_jumps : Statement :=
  WhileStatement 32 (Some (OtherExp 48 []))
    (Some (CompoundStatement 64
       [IfStatement 80 (Some (OtherExp 96 [])) (Some (BreakStatement 112 0)) None;
        IfStatement 128 (Some (OtherExp 144 [])) (Some (ContinueStatement 160 0)) None;
        OtherStatement 176])).

Definition jumps_profile : CodeGenPGO.t :=
  {| FuncName := "f"; NumRegionCounters := 4; FunctionHash := 0;
     RegionCounterMap := Some {[ 16%N := 0; 32%N := 1; 80%N := 2; 128%N := 3 ]};
     StmtCountMap := None;
     RegionCounts := [10; 50; 3; 7] |}.

End CountingNotions.

(** ** The walk of the mapping pass *)

Section WalkNotions.
Import PGOHash MapRegionCounters.

(** The keys that the first visit of a node adds to the counter map: the
    node itself, the second slot of a case or default statement that is the
    target of a goto, and the catch clauses of a try statement. *)
Definition keys_of (n : Node) : list ptr :=
  match n with
  | Other | FuncDeclaration _ => []
  | IfStatement p | WhileStatement p | DoStatement p | ForStatement p
  | ForeachStatement p | ForeachRangeStatement p | LabelStatement p
  | SwitchStatement p | CondExp p | AndAndExp p | OrOrExp p => [p]
  | CaseStatement p gototarget | DefaultStatement p gototarget =>
      p :: (if gototarget then [CodeGenPGO.getCounterPtr p 1] else [])
  | TryCatchStatement p catches => p :: catches
  | TryFinallyStatement p _body finalbody =>
      if decide (_body = nullptr ∨ finalbody = nullptr) then [] else [p]
  end.

(** The key a node is skipped by, when it has a counter. *)
Definition first_key (n : Node) : option ptr := head (keys_of n).

(** The tokens that the first visit of a node adds to the hash. *)
Definition tokens_of (n : Node) : list HashType :=
  match n with
  | Other | FuncDeclaration _ => []
  | IfStatement _ => [IfStmt]
  | WhileStatement _ => [WhileStmt]
  | DoStatement _ => [DoStmt]
  | ForStatement _ => [ForStmt]
  | ForeachStatement _ => [ForeachStmt]
  | ForeachRangeStatement _ => [ForeachRangeStmt]
  | LabelStatement _ => [LabelStmt]
  | SwitchStatement _ => [SwitchStmt]
  | CaseStatement _ gototarget =>
      CaseStmt :: (if gototarget then [CaseGoto] else [])
  | DefaultStatement _ gototarget =>
      DefaultStmt :: (if gototarget then [CaseGoto] else [])
  | TryCatchStatement _ catches =>
      TryCatchStmt :: replicate (length catches) TryCatchCatch
  | TryFinallyStatement _ _body finalbody =>
      if decide (_body = nullptr ∨ finalbody = nullptr) then []
      else [TryFinallyStmt]
  | CondExp _ => [ConditionalExpr]
  | AndAndExp _ => [AndAndExpr]
  | OrOrExp _ => [OrOrExpr]
  end.

(** The nodes below the declaration of a function that belong to the
    function: the nodes of the tree but for the nested function
    declarations and what lies below them. *)
Fixpoint reached (tr : Tree) : list Node :=
  match tr with
  | Tr (FuncDeclaration _) _ => []
  | Tr n children => n :: (children ≫= reached)
  end.

(** The first visit of a node: its tokens are hashed, it takes one counter
    per token and its keys enter the map. *)
Definition first_visit (n : Node) (v v' : MapRegionCounters.t) : Prop :=
  Hash v' = combine_all (Hash v) (tokens_of n)
  ∧ NextCounter v' = NextCounter v + Z.of_nat (length (tokens_of n))
  ∧ stop v' = stop v
  ∧ ∀ k, is_Some (CounterMap v' !! k) ↔ is_Some (CounterMap v !! k) ∨ k ∈ keys_of n.

(** The walk of a sequence of nodes: the nodes visited for the first time
    are some of the nodes, in order; their tokens are hashed and their keys
    enter the map; every node that takes a counter has one. *)
Definition walked (ns : list Node) (v v' : MapRegionCounters.t) : Prop :=
  ∃ visited,
    sublist visited ns
    ∧ Hash v' = combine_all (Hash v) (visited ≫= tokens_of)
    ∧ NextCounter v' = NextCounter v + Z.of_nat (length (visited ≫= tokens_of))
    ∧ stop v' = false
    ∧ (∀ k, is_Some (CounterMap v' !! k)
            ↔ is_Some (CounterMap v !! k) ∨ k ∈ visited ≫= keys_of)
    ∧ (∀ n p, n ∈ ns → first_key n = Some p → is_Some (CounterMap v' !! p)).

End WalkNotions.

(** ** The counts of the counting pass *)

Section CountsNotions.
Import CodeGenPGO ComputeRegionCounts.

(** Every count that the state of the pass holds has the property [P]: the
    current count, the recorded counts and the counts of the frames. *)
Definition within (P : Z → Prop) (v : ComputeRegionCounts.t) : Prop :=
  P (CurrentCount v)
  ∧ map_Forall (λ _ c, P c) (CountMap v)
  ∧ Forall (λ BC, P (BreakCount BC) ∧ P (ContinueCount BC)) (BreakContinueStack v).

(** A statement that control enters at its beginning and leaves at its end
    only: it holds no return, throw, goto, break or continue statement, no
    label, no switch and no try statement. *)
Fixpoint jump_free (s : Statement) : bool :=
  match s with
  | OtherStatement _ | ExpStatement _ _ => true
  | CompoundStatement _ statements => forallb jump_free statements
  | WhileStatement _ _ _body | DoStatement _ _body _
  | ForeachStatement _ _ _body | ForeachRangeStatement _ _ _ _body =>
      from_option jump_free true _body
  | ForStatement _ _init _ _ _body =>
      from_option jump_free true _init && from_option jump_free true _body
  | IfStatement _ _ ifbody elsebody =>
      from_option jump_free true ifbody && from_option jump_free true elsebody
  | _ => false
  end.

(** The statements of a statement, itself first. *)
Fixpoint substatements (s : Statement) : list Statement :=
  s :: match s with
       | CompoundStatement _ statements => statements ≫= substatements
       | LabelStatement _ statement | CaseStatement _ _ statement
       | DefaultStatement _ _ statement =>
           from_option substatements [] statement
       | WhileStatement _ _ _body | DoStatement _ _body _
       | ForeachStatement _ _ _body | ForeachRangeStatement _ _ _ _body
       | SwitchStatement _ _ _body =>
           from_option substatements [] _body
       | ForStatement _ _init _ _ _body =>
           from_option substatements [] _init
           ++ from_option substatements [] _body
       | IfStatement _ _ ifbody elsebody =>
           from_option substatements [] ifbody
           ++ from_option substatements [] elsebody
       | TryCatchStatement _ _body catches =>
           from_option substatements [] _body
           ++ (catches ≫= λ c, match c with
                               | mkCatch _ handler =>
                                   from_option substatements [] handler
                               end)
       | TryFinallyStatement _ _body finalbody =>
           from_option substatements [] _body
           ++ from_option substatements [] finalbody
       | _ => []
       end.

(** The key under which the visit of a loop records the count of its
    condition, which is the key the loop adapters look up. *)
Definition condition_key (s : Statement) : option ptr :=
  match s with
  | WhileStatement _ condition _ | DoStatement _ _ condition =>
      Some (ptrE condition)
  | ForStatement S_ _ condition _ _ =>
      Some (match condition with
            | Some c => addrE c
            | None => getCounterPtr S_ 1
            end)
  | ForeachStatement S_ _ _ | ForeachRangeStatement S_ _ _ _ =>
      Some (getCounterPtr S_ 1)
  | _ => None
  end.

(** The object that [computeRegionCounts] leaves when its walk ends in the
    state [Walker]. *)
Definition counted (pgo : CodeGenPGO.t) (Walker : ComputeRegionCounts.t)
  : CodeGenPGO.t :=
  {| FuncName := FuncName pgo;
     NumRegionCounters := NumRegionCounters pgo;
     FunctionHash := FunctionHash pgo;
     RegionCounterMap := RegionCounterMap pgo;
     StmtCountMap := Some (CountMap Walker);
     RegionCounts := RegionCounts pgo |}.

(** The count map has an entry for the key. *)
Definition has (k : ptr) (v : ComputeRegionCounts.t) : Prop :=
  is_Some (CountMap v !! k).

(** No entry of the count map is removed from [v] to [v']. *)
Definition grows (v v' : ComputeRegionCounts.t) : Prop :=
  ∀ k, has k v → has k v'.

(** The statement is visited in the course of a visit that ends in [v']:
    its visit returns, and what it leaves in the count map stays to the
    end. *)
Definition visited_before (PGO : CodeGenPGO.t) (l : Statement)
    (v' : ComputeRegionCounts.t) : Prop :=
  ∃ w w', visitS PGO l w = Some w' ∧ grows w' v'.

(** The visit of the statement returns with the current count and the
    stack of loops as they were, whenever the current count is a 64-bit
    value. *)
Definition conserves (PGO : CodeGenPGO.t) (s : Statement) : Prop :=
  ∀ v, u64 (CurrentCount v) →
       ∃ v', visitS PGO s v = Some v'
             ∧ CurrentCount v' = CurrentCount v
             ∧ BreakContinueStack v' = BreakContinueStack v.




(** A conditional expression [c ? a : b] over plain operands. *)
Definition conditional : Expression :=
  CondExp 32 (OtherExp 48 []) (OtherExp 64 []) (OtherExp 80 []).

(** A function with one for loop without condition: [for (;; i) { s; }]. *)
Definition for_loop : Statement :=
  ForStatement 32 None None (Some (OtherExp 48 [])) (Some (OtherStatement 64)).

(** A function with one foreach loop: [foreach (x; a) { s; }]. *)
Definition foreach_loop : Statement :=
  ForeachStatement 32 (Some (OtherExp 48 [])) (Some (OtherStatement 64)).

End CountsNotions.

(** ** The entry points *)

Section EntryNotions.
Import EntryPoints.

(** A declaration that asks for instrumentation, over the function with
    a try statement and the function with a switch. *)
Definition instrumented : Declaration :=
  {| D_emitInstrumentation := true; toPrettyChars := "m.f"; D_fbody := 16%N;
     D_children := try_function ++ switch_function;
     D_statements := ComputeRegionCounts.mkFuncDeclaration None |}.

(** The object before code generation. *)
Definition fresh : EntryPoints.t :=
  {| PGO := empty_profile; emitInstrumentation := false; FuncNameVar := None |}.

End EntryNotions.


(* ===================================================================== *)
(** * Properties                                                          *)
(* ===================================================================== *)

(** ** Machine arithmetic *)

Lemma wrap64_small z : u64 z → wrap64 z = z.
Proof. unfold u64, wrap64. intros H. apply Z.mod_small. lia. Qed.

Lemma wrap64_range z : u64 (wrap64 z).
Proof. unfold u64, wrap64. apply Z.mod_pos_bound. lia. Qed.

Lemma add64_range a b : u64 (add64 a b).
Proof. apply wrap64_range. Qed.

Lemma sub64_range a b : u64 (sub64 a b).
Proof. apply wrap64_range. Qed.

Lemma sub64_exact a b : u64 a → 0 <= b <= a → sub64 a b = a - b.
Proof. unfold u64, sub64. intros Ha Hb. apply wrap64_small. unfold u64. lia. Qed.

Lemma add64_exact a b : 0 <= a → 0 <= b → a + b < 2 ^ 64 → add64 a b = a + b.
Proof. intros. apply wrap64_small. unfold u64. lia. Qed.

(** The guarded subtraction of the loop adapters. *)
Lemma guarded_sub_exact C L :
  u64 C → u64 L → sub64 (Z.max C L) L = Z.max C L - L ∧ 0 <= Z.max C L - L < 2 ^ 64.
Proof.
  unfold u64. intros HC HL. split; [|lia].
  apply sub64_exact; unfold u64; lia.
Qed.

(** ** Branch weights *)

Section Weights.
Import CodeGenPGO.

Lemma calculateWeightScale_scale m : u64 m → calculateWeightScale m = weight_scale m.
Proof.
  unfold u64, calculateWeightScale, weight_scale, UINT32_MAX. intros Hm.
  destruct (m <? 2 ^ 32 - 1) eqn:E; [done|].
  apply wrap64_small. unfold u64.
  assert (0 <= m / (2 ^ 32 - 1)) by (apply Z.div_pos; lia).
  assert (m / (2 ^ 32 - 1) < 2 ^ 64 - 1); [|lia].
  apply Z.div_lt_upper_bound; lia.
Qed.

Lemma weight_scale_pos m : 0 <= m → 0 < weight_scale m.
Proof.
  unfold weight_scale. intros Hm. destruct (m <? 2 ^ 32 - 1); [lia|].
  assert (0 <= m / (2 ^ 32 - 1)) by (apply Z.div_pos; lia). lia.
Qed.

(** A count no greater than the maximum scales to less than [UINT32_MAX],
    so that adding one stays within 32 bits. *)
Lemma scaled_bound w m :
  0 <= w <= m → 0 <= w / weight_scale m + 1 <= UINT32_MAX.
Proof.
  unfold weight_scale, UINT32_MAX. intros Hw.
  destruct (m <? 2 ^ 32 - 1) eqn:E.
  - apply Z.ltb_lt in E. rewrite Z.div_1_r. lia.
  - apply Z.ltb_ge in E.
    assert (Hq : 0 <= m / (2 ^ 32 - 1)) by (apply Z.div_pos; lia).
    assert (0 <= w / (m / (2 ^ 32 - 1) + 1)) by (apply Z.div_pos; lia).
    assert (w / (m / (2 ^ 32 - 1) + 1) < 2 ^ 32 - 1); [|lia].
    apply Z.div_lt_upper_bound; [lia|].
    pose proof (Z.div_mod m (2 ^ 32 - 1) ltac:(lia)) as Hdm.
    pose proof (Z.mod_pos_bound m (2 ^ 32 - 1) ltac:(lia)) as Hmod.
    nia.
Qed.

Lemma scaleBranchWeight_ok w m :
  u64 m → 0 <= w <= m →
  scaleBranchWeight w (calculateWeightScale m) = Some (w / weight_scale m + 1).
Proof.
  intros Hm Hw. rewrite calculateWeightScale_scale by done.
  pose proof (weight_scale_pos m ltac:(lia)) as Hpos.
  pose proof (scaled_bound w m Hw) as Hb. unfold UINT32_MAX in Hb.
  unfold scaleBranchWeight.
  destruct (weight_scale m =? 0) eqn:E0; [apply Z.eqb_eq in E0; lia|].
  rewrite wrap64_small by (unfold u64; lia).
  unfold UINT32_MAX.
  destruct (w / weight_scale m + 1 <=? 2 ^ 32 - 1) eqn:E1;
    [|apply Z.leb_gt in E1; lia].
  f_equal. unfold wrap32. apply Z.mod_small. lia.
Qed.

Lemma createProfileWeights_nonzero T F :
  u64 T → u64 F → ¬ (T = 0 ∧ F = 0) →
  createProfileWeights T F =
    Some (BranchWeights [T / weight_scale (Z.max T F) + 1;
                         F / weight_scale (Z.max T F) + 1]).
Proof.
  unfold u64. intros HT HF Hnz. unfold createProfileWeights.
  destruct ((T =? 0) && (F =? 0)) eqn:E.
  { apply andb_true_iff in E as [?%Z.eqb_eq ?%Z.eqb_eq]. tauto. }
  rewrite !scaleBranchWeight_ok by (unfold u64; lia). done.
Qed.

(** C6.  [createProfileWeights(TrueCount, FalseCount)] returns no weights
    (a null node) exactly when both counts are zero.  Otherwise, with the
    scale 1 if the larger count is below 2^32-1 and max/(2^32-1) + 1 if
    not, it returns the two weights count/scale + 1, and each fits in 32
    bits (no assertion fails).  The counts 0, 0 give no weights; the
    counts 3, 0 give the scale 1 and the weights 4, 1. *)
Theorem createProfileWeights_spec (TrueCount FalseCount : Z) :
  u64 TrueCount → u64 FalseCount →
  (createProfileWeights TrueCount FalseCount = Some null
     ↔ TrueCount = 0 ∧ FalseCount = 0)
  ∧ (¬ (TrueCount = 0 ∧ FalseCount = 0) →
     let scale :=
       if Z.max TrueCount FalseCount <? 2 ^ 32 - 1 then 1
       else Z.max TrueCount FalseCount / (2 ^ 32 - 1) + 1 in
     calculateWeightScale (Z.max TrueCount FalseCount) = scale
     ∧ createProfileWeights TrueCount FalseCount =
         Some (BranchWeights [TrueCount / scale + 1; FalseCount / scale + 1])
     ∧ 0 <= TrueCount / scale + 1 < 2 ^ 32
     ∧ 0 <= FalseCount / scale + 1 < 2 ^ 32)
  ∧ createProfileWeights 0 0 = Some null
  ∧ calculateWeightScale (Z.max 3 0) = 1
  ∧ createProfileWeights 3 0 = Some (BranchWeights [4; 1]).
Proof.
  intros HT HF.
  assert (Hnz : ¬ (TrueCount = 0 ∧ FalseCount = 0) →
                createProfileWeights TrueCount FalseCount =
                  Some (BranchWeights
                          [TrueCount / weight_scale (Z.max TrueCount FalseCount) + 1;
                           FalseCount / weight_scale (Z.max TrueCount FalseCount) + 1]))
    by (apply createProfileWeights_nonzero; done).
  split; [|split; [|split; [|split]]].
  - split.
    + intros Hnull.
      destruct (decide (TrueCount = 0 ∧ FalseCount = 0)) as [|Hn]; [tauto|].
      rewrite (Hnz Hn) in Hnull. discriminate.
    + intros [-> ->]. reflexivity.
  - intros Hn. cbv zeta.
    change (if Z.max TrueCount FalseCount <? 2 ^ 32 - 1 then 1
            else Z.max TrueCount FalseCount / (2 ^ 32 - 1) + 1)
      with (weight_scale (Z.max TrueCount FalseCount)).
    pose proof (scaled_bound TrueCount (Z.max TrueCount FalseCount)) as Hb1.
    pose proof (scaled_bound FalseCount (Z.max TrueCount FalseCount)) as Hb2.
    unfold UINT32_MAX, u64 in *.
    split; [apply calculateWeightScale_scale; unfold u64; lia|].
    split; [apply Hnz, Hn|]. lia.
  - reflexivity.
  - reflexivity.
  - reflexivity.
Qed.

Lemma createProfileWeights_spec_witness :
  u64 (2 ^ 40) ∧ u64 7 ∧
  createProfileWeights (2 ^ 40) 7 = Some (BranchWeights [4278255361; 1]).
Proof.
  split; [unfold u64; lia|]. split; [unfold u64; lia|].
  pose proof (createProfileWeights_spec (2 ^ 40) 7
                ltac:(unfold u64; lia) ltac:(unfold u64; lia))
    as (_ & H & _).
  destruct (H ltac:(lia)) as (_ & Hw & _).
  rewrite Hw. vm_compute. reflexivity.
Defined.

(** *** The loop adapters *)

(** C7, as stated, fails: with a recorded condition count of zero the
    while-loop adapter returns no weights, not the weights of the pair
    (L, max(C, L) - L); here L = 10 and C = 0. *)
Lemma loop_adapter_zero_condition_count :
  haveRegionCounts (loop_profile 0) = true
  ∧ getStmtCount (loop_profile 0) 8%N = (true, 0)
  ∧ createProfileWeights 10 (Z.max 0 10 - 10) = Some (BranchWeights [11; 1])
  ∧ createProfileWeightsWhileLoop (loop_profile 0) 8%N 10 = Some null
  ∧ createProfileWeightsWhileLoop (loop_profile 0) 8%N 10
      ≠ createProfileWeights 10 (Z.max 0 10 - 10).
Proof. repeat split; vm_compute; congruence. Qed.

(** C7, amended.  For every 64-bit loop trip count L and every non-zero
    64-bit condition count C recorded for the condition of a loop, with
    region counts loaded, the while-loop adapter hands the pair of counts
    (L, max(C, L) - L) to [createProfileWeights]; the subtraction is guarded
    and never underflows.  For L = 10 and C = 7 the pair is (10, 0), whose
    weights are 11 and 1. *)
Theorem createProfileWeightsWhileLoop_pair (pgo : CodeGenPGO.t) (Cond : ptr)
    (L C : Z) :
  u64 L → u64 C → C ≠ 0 →
  haveRegionCounts pgo = true →
  getStmtCount pgo Cond = (true, C) →
  createProfileWeightsWhileLoop pgo Cond L
    = createProfileWeights L (Z.max C L - L)
  ∧ sub64 (Z.max C L) L = Z.max C L - L
  ∧ 0 <= Z.max C L - L < 2 ^ 64
  ∧ (L = 10 → C = 7 →
     Z.max C L - L = 0
     ∧ createProfileWeightsWhileLoop pgo Cond L = Some (BranchWeights [11; 1])).
Proof.
  intros HL HC Hnz Hhave Hcount.
  destruct (guarded_sub_exact C L HC HL) as [Hsub Hrange].
  assert (Hpair : createProfileWeightsWhileLoop pgo Cond L
                  = createProfileWeights L (Z.max C L - L)).
  { unfold createProfileWeightsWhileLoop. rewrite Hhave, Hcount. simpl.
    destruct (C =? 0) eqn:E; [apply Z.eqb_eq in E; done|].
    by rewrite Hsub. }
  split; [exact Hpair|]. split; [exact Hsub|]. split; [exact Hrange|].
  intros -> ->. split; [reflexivity|]. rewrite Hpair. reflexivity.
Qed.

Lemma createProfileWeightsWhileLoop_pair_witness :
  createProfileWeightsWhileLoop (loop_profile 7) 8%N 10
    = createProfileWeights 10 (Z.max 7 10 - 10).
Proof.
  apply (createProfileWeightsWhileLoop_pair (loop_profile 7) 8%N 10 7);
    unfold u64; (lia || reflexivity).
Defined.

(** C9.  Each of the four loop adapters (while, for, foreach and foreach
    range) returns no weights when the count recorded for the entry of the
    loop condition is zero, whatever the trip count of the loop, and when no
    region counts are loaded. *)
Theorem loop_adapters_no_weights (pgo : CodeGenPGO.t) (stmt condition : ptr)
    (LoopCount : Z) :
  (haveRegionCounts pgo = false →
   createProfileWeightsWhileLoop pgo condition LoopCount = Some null
   ∧ createProfileWeightsForLoop pgo stmt condition = Some null
   ∧ createProfileWeightsForeach pgo stmt = Some null
   ∧ createProfileWeightsForeachRange pgo stmt = Some null)
  ∧ (getStmtCount pgo condition = (true, 0) →
     createProfileWeightsWhileLoop pgo condition LoopCount = Some null)
  ∧ (getStmtCount pgo
       (if decide (condition ≠ nullptr) then condition else getCounterPtr stmt 1)
       = (true, 0) →
     createProfileWeightsForLoop pgo stmt condition = Some null)
  ∧ (getStmtCount pgo (getCounterPtr stmt 1) = (true, 0) →
     createProfileWeightsForeach pgo stmt = Some null
     ∧ createProfileWeightsForeachRange pgo stmt = Some null).
Proof.
  unfold createProfileWeightsWhileLoop, createProfileWeightsForLoop,
    createProfileWeightsForeach, createProfileWeightsForeachRange.
  split; [intros ->; done|].
  split; [|split].
  - intros ->. simpl. by destruct (haveRegionCounts pgo).
  - intros ->. simpl. by destruct (haveRegionCounts pgo).
  - intros ->. simpl. by destruct (haveRegionCounts pgo).
Qed.

Lemma loop_adapters_no_weights_witness :
  getRegionCount (loop_profile 0) 24%N = 10
  ∧ createProfileWeightsWhileLoop (loop_profile 0) 8%N 10 = Some null
  ∧ createProfileWeightsForLoop (loop_profile 0) 24%N 8%N = Some null
  ∧ createProfileWeightsForeach (loop_profile 0) 24%N = Some null
  ∧ createProfileWeightsForeachRange (loop_profile 0) 24%N = Some null.
Proof.
  destruct (loop_adapters_no_weights (loop_profile 0) 24%N 8%N 10)
    as (_ & Hw & Hf & He).
  split; [reflexivity|].
  split; [apply Hw; reflexivity|].
  split; [apply Hf; reflexivity|].
  apply He; reflexivity.
Defined.

End Weights.

(** ** Loading the raw counts *)

Section Loading.
Import CodeGenPGO.

Lemma names_intro before name after : names (before +:+ name +:+ after) name.
Proof. by exists before, after. Qed.

Lemma string_app_assoc (a b c : string) : (a +:+ b) +:+ c = a +:+ (b +:+ c).
Proof.
  induction a as [|x a IH]; [done|].
  change (String x ((a +:+ b) +:+ c) = String x (a +:+ (b +:+ c))).
  by rewrite IH.
Qed.

Lemma warnings_app ds1 ds2 : warnings (ds1 ++ ds2) = warnings ds1 ++ warnings ds2.
Proof. unfold warnings. apply omap_app. Qed.

Lemma warnings_IF_LOG logging text : warnings (IF_LOG logging text) = [].
Proof. by destruct logging. Qed.

(** C8.  Whatever the reader answers other than success, and whatever it
    left in the vector of counts, [loadRegionCounts] returns (compilation
    goes on) with [RegionCounts] empty and the rest of the object as it
    was.  For an unknown function no warning is issued; for a hash mismatch,
    for malformed data and for any other error exactly one warning is
    issued, and its text contains the name of the function. *)
Theorem loadRegionCounts_failure (logging : bool)
    (PGOReader : IndexedInstrProfReader) (pretty : string) (pgo : CodeGenPGO.t) :
  (PGOReader (FuncName pgo) (FunctionHash pgo)).1 ≠ success →
  let EC := (PGOReader (FuncName pgo) (FunctionHash pgo)).1 in
  let result := loadRegionCounts logging PGOReader pretty pgo in
  RegionCounts result.1 = []
  ∧ haveRegionCounts result.1 = false
  ∧ result.1 = set_RegionCounts [] pgo
  ∧ (EC = unknown_function → warnings result.2 = [])
  ∧ (EC ≠ unknown_function →
     ∃ w, warnings result.2 = [w] ∧ names w (FuncName pgo) ∧ names w pretty).
Proof.
  intros Hfail EC result. subst EC result. unfold loadRegionCounts.
  change (FuncName (set_RegionCounts [] pgo)) with (FuncName pgo).
  change (FunctionHash (set_RegionCounts [] pgo)) with (FunctionHash pgo).
  destruct (PGOReader (FuncName pgo) (FunctionHash pgo)) as [EC Counts].
  simpl in Hfail.
  destruct EC; try done; simpl;
    (split; [done|]); (split; [done|]); (split; [done|]);
    rewrite ?warnings_app, ?warnings_IF_LOG; simpl;
    (split; [done|]); intros Hne; try done.
  - eexists; split; [reflexivity|]. split.
    + exists ("Ignoring profile data for function '" +:+ pretty +:+ "' ('"),
        "'): control-flow hash mismatch".
      by rewrite !string_app_assoc.
    + apply names_intro.
  - eexists; split; [reflexivity|]. split.
    + exists ("Ignoring profile data for function '" +:+ pretty +:+ "' ('"),
        "'): control-flow hash mismatch".
      by rewrite !string_app_assoc.
    + apply names_intro.
  - eexists; split; [reflexivity|]. split.
    + exists ("Error loading profile data for function '" +:+ pretty +:+ "' ('"),
        "')".
      by rewrite !string_app_assoc.
    + apply names_intro.
Qed.

Lemma loadRegionCounts_failure_witness :
  RegionCounts (loadRegionCounts true stale_reader "m.foo" foo_profile).1 = []
  ∧ warnings (loadRegionCounts true stale_reader "m.foo" foo_profile).2
    = ["Ignoring profile data for function 'm.foo' ('foo'): control-flow hash mismatch"%string].
Proof.
  pose proof (loadRegionCounts_failure true stale_reader "m.foo" foo_profile
                ltac:(discriminate)) as (Hc & _).
  split; [exact Hc|]. reflexivity.
Defined.

End Loading.

(** ** The structural hash *)

Section Hashing.
Import PGOHash.

Lemma pack_snoc tys ty : pack (tys ++ [ty]) = pack tys * 2 ^ 6 + value ty.
Proof. unfold pack. by rewrite foldl_app. Qed.

Lemma combine_all_snoc h tys ty :
  combine_all h (tys ++ [ty]) = combine (combine_all h tys) ty.
Proof. unfold combine_all. by rewrite foldl_app. Qed.

Lemma valid_range ty : valid ty = true → 0 < value ty < 2 ^ 6.
Proof. destruct ty; intros H; vm_compute in H; try discriminate H; simpl; lia. Qed.

(** Shifting six places makes room for one token. *)
Lemma shift_or_token w v : 0 <= w → 0 <= v < 2 ^ 6 → Z.lor (Z.shiftl w 6) v = w * 2 ^ 6 + v.
Proof.
  intros Hw Hv. rewrite Z.shiftl_mul_pow2 by lia.
  symmetry. apply Z.add_nocarry_lor.
  apply Z.bits_inj'. intros n Hn. rewrite Z.land_spec, Z.bits_0.
  destruct (decide (n < 6)) as [Hlt|Hge].
  - rewrite Z.mul_pow2_bits_low by lia. done.
  - destruct (decide (v = 0)) as [->|Hv0]; [by rewrite Z.bits_0, andb_false_r|].
    assert (Z.log2 v < 6) by (apply Z.log2_lt_pow2; lia).
    rewrite (Z.bits_above_log2 v n) by lia. by rewrite andb_false_r.
Qed.

Lemma pack_bound tys :
  Forall (λ ty, valid ty = true) tys → 0 <= pack tys < 2 ^ (6 * Z.of_nat (length tys)).
Proof.
  induction tys as [|ty tys IH] using rev_ind; intros Hall.
  - vm_compute. split; [discriminate|done].
  - apply Forall_app in Hall as [Hall Hty]. apply Forall_singleton, valid_range in Hty.
    specialize (IH Hall). rewrite pack_snoc, length_app. simpl length.
    replace (6 * Z.of_nat (length tys + 1)) with (6 * Z.of_nat (length tys) + 6) by lia.
    rewrite Z.pow_add_r by lia. nia.
Qed.

(** As long as at most one word of tokens has been combined, the hasher
    holds the packed tokens and has passed nothing to MD5. *)
Lemma combine_all_short tys :
  Forall (λ ty, valid ty = true) tys → (length tys <= 10)%nat →
  combine_all init tys
    = {| Working := pack tys; Count := Z.of_nat (length tys); MD5 := [] |}.
Proof.
  induction tys as [|ty tys IH] using rev_ind; intros Hall Hlen; [done|].
  rewrite length_app in Hlen. simpl in Hlen.
  pose proof (pack_bound tys (proj1 (proj1 (Forall_app _ _ _) Hall))) as Hb.
  apply Forall_app in Hall as [Hall Hty]. apply Forall_singleton, valid_range in Hty.
  rewrite combine_all_snoc, IH by (done || lia).
  rewrite pack_snoc, length_app. simpl length.
  unfold combine. cbn [Count Working PGOHash.MD5].
  assert (Hnofold : negb (Z.of_nat (length tys) =? 0)
                    && (Z.of_nat (length tys) mod NumTypesPerWord =? 0) = false).
  { change NumTypesPerWord with 10.
    destruct (Z.of_nat (length tys) =? 0) eqn:E0; [done|]. simpl.
    apply Z.eqb_neq in E0. apply Z.eqb_neq.
    rewrite Z.mod_small by lia. done. }
  rewrite Hnofold. cbn [Count Working PGOHash.MD5].
  assert (Hpow : 2 ^ (6 * Z.of_nat (length tys)) <= 2 ^ 54)
    by (apply Z.pow_le_mono_r; lia).
  f_equal.
  - change NumBitsPerType with 6.
    unfold wrap64. rewrite Z.mod_small.
    + apply shift_or_token; lia.
    + rewrite Z.shiftl_mul_pow2 by lia. lia.
  - unfold wrap32. rewrite Z.mod_small; lia.
Qed.

(** The first half of C5: for a sequence of at most [NumTypesPerWord] = 10
    tokens, [finalize] returns the packed word itself, whatever the digest,
    and nothing has been passed to MD5. *)
Lemma finalize_short (MD5_final : list Z → list Z) tys :
  Forall (λ ty, valid ty = true) tys → (length tys <= 10)%nat →
  finalize MD5_final (combine_all init tys) = pack tys
  ∧ PGOHash.MD5 (combine_all init tys) = [].
Proof.
  intros Hall Hlen. rewrite combine_all_short by done.
  split; [|done]. unfold finalize. cbn [Count Working].
  change NumTypesPerWord with 10.
  destruct (Z.of_nat (length tys) <=? 10) eqn:E; [done|].
  apply Z.leb_gt in E. lia.
Qed.

(** C5.  The code at a failing input.  After twelve tokens the first word
    has been passed to MD5 and the partial word holds the last two tokens:
    75 = 1 * 64 + 11 for [tokens_label], 331 = 5 * 64 + 11 for
    [tokens_foreach].  [finalize] passes to MD5 the single byte 75 in both
    cases, not the partial word, so the two sequences have the same hash
    whatever the digest function is. *)
Theorem finalize_remainder_low_byte (MD5_final : list Z → list Z) :
  Working (combine_all init tokens_label) = 75
  ∧ Working (combine_all init tokens_foreach) = 331
  ∧ PGOHash.MD5 (combine_all init tokens_label) = little_bytes (pack (replicate 10 IfStmt))
  ∧ PGOHash.MD5 (combine_all init tokens_foreach) = little_bytes (pack (replicate 10 IfStmt))
  ∧ finalize MD5_final (combine_all init tokens_label)
    = read_little (MD5_final (little_bytes (pack (replicate 10 IfStmt)) ++ [75]))
  ∧ finalize MD5_final (combine_all init tokens_foreach)
    = read_little (MD5_final (little_bytes (pack (replicate 10 IfStmt)) ++ [75]))
  ∧ finalize MD5_final (combine_all init tokens_label)
    = finalize MD5_final (combine_all init tokens_foreach).
Proof.
  assert (H1 : combine_all init tokens_label
               = {| Working := 75; Count := 12;
                    MD5 := little_bytes (pack (replicate 10 IfStmt)) |})
    by (vm_compute; reflexivity).
  assert (H2 : combine_all init tokens_foreach
               = {| Working := 331; Count := 12;
                    MD5 := little_bytes (pack (replicate 10 IfStmt)) |})
    by (vm_compute; reflexivity).
  rewrite H1, H2. repeat split.
Qed.

End Hashing.

(** ** The mapping pass *)

Section Mapping.
Import PGOHash MapRegionCounters.

Lemma Tree_ind' (P : Tree → Prop) :
  (∀ n children, Forall P children → P (Tr n children)) → ∀ tr, P tr.
Proof.
  intros Hstep. fix IH 1. intros [n children]. apply Hstep.
  induction children as [|c children IHc]; constructor; [apply IH|exact IHc].
Qed.

Lemma capacity_app ns1 ns2 : capacity (ns1 ++ ns2) = capacity ns1 + capacity ns2.
Proof. induction ns1 as [|n ns1 IH]; simpl; lia. Qed.

Lemma counters_of_nonneg n : 0 <= counters_of n.
Proof. destruct n; simpl; try lia; destruct gototarget; lia. Qed.

Lemma capacity_nonneg ns : 0 <= capacity ns.
Proof.
  induction ns as [|n ns IH]; simpl; [lia|].
  pose proof (counters_of_nonneg n). lia.
Qed.

(** *** The counters are dense *)

Lemma dense_init : dense init.
Proof.
  split; simpl.
  - intros k i H. by rewrite lookup_empty in H.
  - intros i Hi. lia.
  - intros k1 k2 i H. by rewrite lookup_empty in H.
  - by rewrite map_size_empty.
Qed.

Lemma dense_hash ty v : dense v → dense (hash ty v).
Proof. intros [H1 H2 H3 H4]. by split. Qed.

Lemma dense_set_stop b v : dense v → dense (set_stop b v).
Proof. intros [H1 H2 H3 H4]. by split. Qed.

(** Assigning the next counter to a key without a counter keeps the map
    dense, as long as the counter does not wrap around. *)
Lemma dense_assign key v :
  dense v → CounterMap v !! key = None → NextCounter v + 1 < 2 ^ 32 →
  dense (assign key v)
  ∧ NextCounter (assign key v) = NextCounter v + 1.
Proof.
  intros [Hrange Hcover Hinj Hsize] Hfresh Hwrap.
  assert (Hnext : wrap32 (NextCounter v + 1) = NextCounter v + 1).
  { unfold wrap32. apply Z.mod_small. lia. }
  split; [|exact Hnext]. split; simpl; rewrite ?Hnext.
  - intros k i. rewrite lookup_insert. case_decide.
    + intros [= <-]. lia.
    + intros H'. apply Hrange in H'. lia.
  - intros i Hi. destruct (decide (i = NextCounter v)) as [->|Hne].
    + exists key. by rewrite lookup_insert_eq.
    + destruct (Hcover i ltac:(lia)) as [k Hk]. exists k.
      rewrite lookup_insert_ne; [done|]. intros <-. congruence.
  - intros k1 k2 i. rewrite !lookup_insert. repeat case_decide; subst.
    + done.
    + intros [= <-] H'. apply Hrange in H'. lia.
    + intros H' [= <-]. apply Hrange in H'. lia.
    + apply Hinj.
  - rewrite map_size_insert_None by done. lia.
Qed.

(** *** The keys of the counter map *)

Section Function.
(** The nodes of the function under compilation. *)
Variable ns : list Node.
Hypothesis Hwf : well_formed ns = true.

Lemma wf_object_even n p : n ∈ ns → p ∈ object_of n → N.even p = true.
Proof.
  intros Hn Hp. unfold well_formed in Hwf.
  repeat (apply andb_true_iff in Hwf as [Hwf ?]).
  apply bool_decide_eq_true in Hwf. rewrite Forall_forall in Hwf.
  apply Hwf, elem_of_app. left. apply list_elem_of_bind. eauto.
Qed.

Lemma wf_catch_even n c : n ∈ ns → c ∈ catches_of n → N.even c = true.
Proof.
  intros Hn Hc. unfold well_formed in Hwf.
  repeat (apply andb_true_iff in Hwf as [Hwf ?]).
  apply bool_decide_eq_true in Hwf. rewrite Forall_forall in Hwf.
  apply Hwf, elem_of_app. right. apply list_elem_of_bind. eauto.
Qed.

Lemma wf_catch_not_object n n' c :
  n ∈ ns → n' ∈ ns → c ∈ catches_of n → c ∉ object_of n'.
Proof.
  intros Hn Hn' Hc Ho. unfold well_formed in Hwf.
  repeat (apply andb_true_iff in Hwf as [Hwf ?]).
  match goal with
  | H : bool_decide (Forall (λ c, c ∉ _) _) = true |- _ =>
      apply bool_decide_eq_true in H; rewrite Forall_forall in H;
      apply (H c)
  end.
  - apply list_elem_of_bind. eauto.
  - apply list_elem_of_bind. eauto.
Qed.

Lemma wf_catches_NoDup n : n ∈ ns → NoDup (catches_of n).
Proof.
  intros Hn. unfold well_formed in Hwf.
  repeat (apply andb_true_iff in Hwf as [Hwf ?]).
  match goal with
  | H : bool_decide (Forall (λ n, NoDup _) _) = true |- _ =>
      apply bool_decide_eq_true in H; rewrite Forall_forall in H;
      by apply H
  end.
Qed.

Lemma wf_catch_owner n1 n2 c :
  n1 ∈ ns → n2 ∈ ns → c ∈ catches_of n1 → c ∈ catches_of n2 →
  object_of n1 = object_of n2.
Proof.
  intros Hn1 Hn2 Hc1 Hc2. unfold well_formed in Hwf.
  repeat (apply andb_true_iff in Hwf as [Hwf ?]).
  match goal with
  | H : bool_decide (Forall (λ n1, Forall _ _) _) = true |- _ =>
      apply bool_decide_eq_true in H; rewrite Forall_forall in H;
      specialize (H n1 Hn1); rewrite Forall_forall in H;
      destruct (H n2 Hn2) as [Heq|Hdisj]; [exact Heq|]
  end.
  rewrite Forall_forall in Hdisj. by destruct (Hdisj c Hc1).
Qed.

Lemma keyed_init : keyed ns init.
Proof.
  split; simpl.
  - intros k [x H]. by rewrite lookup_empty in H.
  - intros n c _ _ [x H]. by rewrite lookup_empty in H.
Qed.

Lemma keyed_hash ty v : keyed ns v → keyed ns (hash ty v).
Proof. intros [H1 H2]. by split. Qed.

Lemma keyed_set_stop b v : keyed ns v → keyed ns (set_stop b v).
Proof. intros [H1 H2]. by split. Qed.

Lemma is_Some_insert_mono (m : gmap N Z) k k' x :
  is_Some (m !! k) → is_Some (<[k' := x]> m !! k).
Proof.
  intros [y Hy]. rewrite lookup_insert. case_decide; eauto.
Qed.

(** The first counter of a statement or expression. *)
Lemma keyed_assign_object key v :
  keyed ns v → N.even key = true → (∀ n, n ∈ ns → key ∉ catches_of n) →
  keyed ns (assign key v).
Proof.
  intros [Hodd Hcatch] Heven Hnc. split; simpl.
  - intros k Hk Hko. apply is_Some_insert_mono. apply Hodd; [|done].
    rewrite lookup_insert in Hk. case_decide; [congruence|done].
  - intros n c Hn Hc Hk.
    rewrite lookup_insert in Hk. case_decide as Heq.
    { subst c. by destruct (Hnc n Hn). }
    destruct (Hcatch n c Hn Hc Hk) as (p & Hp & Hsome).
    exists p. split; [done|]. by apply is_Some_insert_mono.
Qed.

(** The second counter of a case or default statement. *)
Lemma keyed_assign_second p v :
  keyed ns v → N.even p = true → is_Some (CounterMap v !! p) →
  keyed ns (assign (CodeGenPGO.getCounterPtr p 1) v).
Proof.
  intros [Hodd Hcatch] Heven Hp. unfold CodeGenPGO.getCounterPtr.
  assert (Hoddk : N.even (p + 1) = false).
  { rewrite N.even_add. rewrite Heven. done. }
  split; simpl.
  - intros k Hk Hko. apply is_Some_insert_mono.
    rewrite lookup_insert in Hk. case_decide as Heq.
    + subst k. by replace (p + 1 - 1)%N with p by lia.
    + by apply Hodd.
  - intros n c Hn Hc Hk.
    rewrite lookup_insert in Hk. case_decide as Heq.
    { subst c. pose proof (wf_catch_even n _ Hn Hc). congruence. }
    destruct (Hcatch n c Hn Hc Hk) as (q & Hq & Hsome).
    exists q. split; [done|]. by apply is_Some_insert_mono.
Qed.

(** The counter of a catch clause of a statement that has its counter. *)
Lemma keyed_assign_catch n0 s0 c0 v :
  keyed ns v → n0 ∈ ns → object_of n0 = [s0] → c0 ∈ catches_of n0 →
  is_Some (CounterMap v !! s0) →
  keyed ns (assign c0 v).
Proof.
  intros [Hodd Hcatch] Hn0 Hs0 Hc0 Hsome. split; simpl.
  - intros k Hk Hko. apply is_Some_insert_mono. apply Hodd; [|done].
    rewrite lookup_insert in Hk. case_decide as Heq; [|done].
    subst k. pose proof (wf_catch_even n0 _ Hn0 Hc0). congruence.
  - intros n c Hn Hc Hk.
    rewrite lookup_insert in Hk. case_decide as Heq.
    + subst c. exists s0. split.
      * rewrite <- Hs0. by apply (wf_catch_owner n n0 c0).
      * by apply is_Some_insert_mono.
    + destruct (Hcatch n c Hn Hc Hk) as (q & Hq & Hsome').
      exists q. split; [done|]. by apply is_Some_insert_mono.
Qed.

(** *** One step of the pass *)

Lemma advances_refl v : inv ns v → advances ns 0 v v.
Proof.
  intros Hinv. split; [done|]. split; [lia|]. split; [done|].
  intros k j H1 H2. congruence.
Qed.

Lemma advances_weaken a b v v' : a <= b → advances ns a v v' → advances ns b v v'.
Proof.
  intros Hab (Hinv & Hb & Hsub & Hnew).
  split; [done|]. split; [lia|]. by split.
Qed.

Lemma advances_trans a b v1 v2 v3 :
  advances ns a v1 v2 → advances ns b v2 v3 → advances ns (a + b) v1 v3.
Proof.
  intros (Hinv2 & Hb2 & Hsub2 & Hnew2) (Hinv3 & Hb3 & Hsub3 & Hnew3).
  split; [done|]. split; [lia|]. split; [by etrans|].
  intros k j Hk3 Hk1. destruct (CounterMap v2 !! k) as [j'|] eqn:Hk2.
  - pose proof (lookup_weaken _ _ _ _ Hk2 Hsub3) as Hk3'.
    assert (j = j') as -> by congruence. by apply (Hnew2 k).
  - pose proof (Hnew3 k j Hk3 Hk2). lia.
Qed.

Lemma advances_hash ty a v v' : advances ns a v v' → advances ns a v (hash ty v').
Proof.
  intros ([Hd Hk] & Hb & Hsub & Hnew).
  split; [split; [by apply dense_hash|by apply keyed_hash]|]. done.
Qed.

Lemma advances_set_stop b a v v' : advances ns a v v' → advances ns a v (set_stop b v').
Proof.
  intros ([Hd Hk] & Hb & Hsub & Hnew).
  split; [split; [by apply dense_set_stop|by apply keyed_set_stop]|]. done.
Qed.

Lemma advances_assign key v :
  inv ns v → CounterMap v !! key = None → NextCounter v + 1 < 2 ^ 32 →
  keyed ns (assign key v) →
  advances ns 1 v (assign key v).
Proof.
  intros [Hd Hk] Hfresh Hwrap Hkeyed.
  destruct (dense_assign key v Hd Hfresh Hwrap) as [Hd' Hnext].
  split; [done|]. split; [lia|]. split.
  - simpl. by apply insert_subseteq.
  - simpl. intros k j. rewrite lookup_insert. case_decide.
    + intros [= <-] _. lia.
    + congruence.
Qed.

(** A node whose visit is the macro [SKIP_VISITED] followed by one
    assignment and one token. *)
Lemma advances_counted ty stmt v :
  inv ns v → N.even stmt = true → (∀ n, n ∈ ns → stmt ∉ catches_of n) →
  NextCounter v + 1 < 2 ^ 32 →
  advances ns 1 v (SKIP_VISITED stmt v (λ v, hash ty (assign stmt v))).
Proof.
  intros Hinv Heven Hnc Hwrap. unfold SKIP_VISITED. case_decide as Hvisited.
  - apply (advances_weaken 0); [lia|]. by apply advances_refl.
  - apply advances_hash, advances_assign; try done.
    + by apply eq_None_not_Some.
    + apply keyed_assign_object; (done || apply Hinv).
Qed.

(** The second counter of a case or default statement that is the target
    of a goto. *)
Lemma advances_case ty stmt (gototarget : bool) v :
  inv ns v → N.even stmt = true → (∀ n, n ∈ ns → stmt ∉ catches_of n) →
  NextCounter v + (if gototarget then 2 else 1) < 2 ^ 32 →
  advances ns (if gototarget then 2 else 1) v
    (SKIP_VISITED stmt v (λ v,
       let v := hash ty (assign stmt v) in
       if gototarget
       then hash CaseGoto (assign (CodeGenPGO.getCounterPtr stmt 1) v)
       else v)).
Proof.
  intros Hinv Heven Hnc Hwrap. unfold SKIP_VISITED. case_decide as Hvisited.
  - apply (advances_weaken 0); [destruct gototarget; lia|]. by apply advances_refl.
  - apply eq_None_not_Some in Hvisited.
    assert (Hfirst : advances ns 1 v (hash ty (assign stmt v))).
    { apply advances_hash, advances_assign; try done.
      - destruct gototarget; lia.
      - apply keyed_assign_object; (done || apply Hinv). }
    cbv zeta. destruct gototarget; [|done].
    change 2 with (1 + 1). eapply advances_trans; [exact Hfirst|].
    destruct Hfirst as (Hinv1 & Hb1 & Hsub1 & Hnew1).
    apply advances_hash, advances_assign; try done.
    + (* the derived key is fresh: it is odd, and its statement was not
         in the map *)
      unfold CodeGenPGO.getCounterPtr. simpl.
      rewrite lookup_insert_ne by lia.
      apply eq_None_not_Some. intros Hsome.
      destruct Hinv as [_ [Hodd _]].
      pose proof (Hodd (stmt + 1)%N Hsome) as Hprev.
      rewrite N.even_add, Heven in Hprev. specialize (Hprev eq_refl).
      replace (stmt + 1 - 1)%N with stmt in Hprev by lia.
      rewrite Hvisited in Hprev. by destruct Hprev.
    + simpl in *. lia.
    + apply keyed_assign_second; [apply Hinv1|done|].
      simpl. rewrite lookup_insert_eq. eauto.
Qed.

(** The loop over the catch clauses of a try statement that has just
    received its counter. *)
Lemma advances_catches n0 s0 cs v :
  n0 ∈ ns → object_of n0 = [s0] → cs ⊆ catches_of n0 → NoDup cs →
  inv ns v → is_Some (CounterMap v !! s0) →
  (∀ c, c ∈ cs → CounterMap v !! c = None) →
  NextCounter v + Z.of_nat (length cs) < 2 ^ 32 →
  advances ns (Z.of_nat (length cs)) v
    (foldl (λ v c, hash TryCatchCatch (assign c v)) v cs).
Proof.
  intros Hn0 Hs0. revert v.
  induction cs as [|c cs IH]; intros v Hsub Hnd Hinv Hsome Hfresh Hwrap.
  { simpl. by apply advances_refl. }
  simpl foldl. apply NoDup_cons in Hnd as [Hc Hnd].
  assert (Hstep : advances ns 1 v (hash TryCatchCatch (assign c v))).
  { apply advances_hash, advances_assign; try done.
    - apply Hfresh. by left.
    - simpl length in Hwrap. lia.
    - apply (keyed_assign_catch n0 s0); try done; [apply Hinv|].
      apply Hsub. by left. }
  replace (Z.of_nat (length (c :: cs))) with (1 + Z.of_nat (length cs))
    by (simpl length; lia).
  eapply advances_trans; [exact Hstep|].
  destruct Hstep as (Hinv1 & Hb1 & Hsub1 & Hnew1).
  apply IH; try done.
  - intros x Hx. apply Hsub. by right.
  - simpl. by apply is_Some_insert_mono.
  - intros x Hx. simpl. rewrite lookup_insert_ne; [|intros ->; done].
    apply Hfresh. by right.
  - simpl length in Hwrap. simpl in *. lia.
Qed.

Lemma wf_first_key n p :
  n ∈ ns → object_of n = [p] →
  N.even p = true ∧ ∀ n', n' ∈ ns → p ∉ catches_of n'.
Proof.
  intros Hn Hp. split.
  - apply (wf_object_even n); [done|]. rewrite Hp. by left.
  - intros n' Hn' Hc. apply (wf_catch_not_object n' n p Hn' Hn Hc).
    rewrite Hp. by left.
Qed.

(** Every [visit] keeps the invariant and assigns at most
    [counters_of n] counters, each to a key that had none. *)
Lemma visit_advances n v :
  n ∈ ns → inv ns v → NextCounter v + counters_of n < 2 ^ 32 →
  advances ns (counters_of n) v (visit n v).
Proof.
  intros Hn Hinv Hwrap.
  destruct n as [|fbody|stmt|stmt|stmt|stmt|stmt|stmt|stmt|stmt|stmt g|stmt g
                |stmt catches|stmt b f|expr|expr|expr];
    simpl counters_of in *; simpl visit;
    try (destruct (wf_first_key _ _ Hn eq_refl) as [Heven Hnc]);
    try (by apply advances_counted);
    try (by apply advances_case).
  - by apply advances_refl.
  - (* the function declaration *)
    destruct (NextCounter v =? 0) eqn:E; simpl.
    + apply Z.eqb_eq in E. apply advances_assign; try done.
      * destruct Hinv as [[_ _ _ Hsize] _]. rewrite E in Hsize.
        assert (size (CounterMap v) = 0%nat) as Hempty%map_size_empty_inv by lia.
        rewrite Hempty. apply lookup_empty.
      * apply keyed_assign_object; (done || apply Hinv).
    + apply (advances_weaken 0); [lia|]. by apply advances_set_stop, advances_refl.
  - (* try/catch *)
    unfold SKIP_VISITED. case_decide as Hvisited.
    { apply (advances_weaken 0); [lia|]. by apply advances_refl. }
    apply eq_None_not_Some in Hvisited.
    assert (Hfirst : advances ns 1 v (hash TryCatchStmt (assign stmt v))).
    { apply advances_hash, advances_assign; try done; [lia|].
      apply keyed_assign_object; (done || apply Hinv). }
    eapply advances_trans; [exact Hfirst|].
    destruct Hfirst as (Hinv1 & Hb1 & Hsub1 & Hnew1).
    apply (advances_catches (TryCatchStatement stmt catches) stmt); try done.
    + apply (wf_catches_NoDup _ Hn).
    + simpl. rewrite lookup_insert_eq. eauto.
    + intros c Hc. simpl.
      rewrite lookup_insert_ne; [|intros <-; by destruct (Hnc _ Hn)].
      apply eq_None_not_Some. intros Hsome.
      destruct Hinv as [_ [_ Hcatch]].
      destruct (Hcatch _ c Hn Hc Hsome) as (p & [= <-] & Hp).
      rewrite Hvisited in Hp. by destruct Hp.
    + simpl in *. lia.
  - (* try/finally *)
    case_decide.
    + apply (advances_weaken 0); [lia|]. by apply advances_refl.
    + by apply advances_counted.
Qed.

(** Only the visit of a function declaration touches [stop]. *)
Lemma visit_stop n v :
  stop v = false → stop (visit n v) = false ∨ ∃ fbody, n = FuncDeclaration fbody.
Proof.
  intros Hstop.
  assert (Hfold : ∀ cs v, stop v = false →
            stop (foldl (λ v c, hash TryCatchCatch (assign c v)) v cs) = false).
  { induction cs as [|c cs IH]; intros v0 H0; [done|]. simpl. by apply IH. }
  destruct n; simpl; unfold SKIP_VISITED; eauto;
    repeat case_decide; try destruct gototarget; simpl; eauto.
Qed.

(** The walk of a tree, and of a sequence of trees. *)
Lemma walk_advances tr :
  ∀ v, nodes tr ⊆ ns → inv ns v → stop v = false →
       NextCounter v + capacity (nodes tr) < 2 ^ 32 →
       advances ns (capacity (nodes tr)) v (walk tr v) ∧ stop (walk tr v) = false.
Proof.
  induction tr as [n children IH] using Tree_ind'.
  intros v Hsub Hinv Hstop Hwrap. simpl nodes in *. simpl capacity in *.
  assert (Hn : n ∈ ns) by (apply Hsub; by left).
  pose proof (capacity_nonneg (children ≫= nodes)) as Hcap.
  pose proof (counters_of_nonneg n) as Hcn.
  pose proof (visit_advances n v Hn Hinv ltac:(lia)) as Hvisit.
  simpl walk. destruct (stop (visit n v)) eqn:Hstop1.
  { split; [|done]. apply (advances_weaken (counters_of n)); [lia|].
    by apply advances_set_stop. }
  assert (Hchildren : ∀ v1, children ≫= nodes ⊆ ns → inv ns v1 → stop v1 = false →
            NextCounter v1 + capacity (children ≫= nodes) < 2 ^ 32 →
            advances ns (capacity (children ≫= nodes)) v1
              (foldl (λ v c, walk c v) v1 children)
            ∧ stop (foldl (λ v c, walk c v) v1 children) = false).
  { clear -IH. induction children as [|c children IHc]; intros v1 Hsub Hinv Hstop Hwrap.
    { simpl. split; [by apply advances_refl|done]. }
    apply Forall_cons in IH as [IHhd IHtl].
    simpl foldl.
    change ((c :: children) ≫= nodes) with (nodes c ++ (children ≫= nodes)) in *.
    rewrite capacity_app in *.
    pose proof (capacity_nonneg (children ≫= nodes)).
    pose proof (capacity_nonneg (nodes c)).
    destruct (IHhd v1) as [Hadv1 Hstop1]; try done.
    { intros x Hx. apply Hsub, elem_of_app. by left. }
    { lia. }
    destruct (IHc IHtl (walk c v1)) as [Hadv2 Hstop2]; try done.
    { intros x Hx. apply Hsub, elem_of_app. by right. }
    { apply Hadv1. }
    { destruct Hadv1 as (_ & Hb & _). lia. }
    split; [|done]. by eapply advances_trans. }
  destruct (Hchildren (visit n v)) as [Hadv Hstop2]; try done.
  { intros x Hx. apply Hsub. by right. }
  { apply Hvisit. }
  { destruct Hvisit as (_ & Hb & _). lia. }
  split; [|done]. by eapply advances_trans.
Qed.

Lemma walk_children_advances children :
  ∀ v, children ≫= nodes ⊆ ns → inv ns v → stop v = false →
       NextCounter v + capacity (children ≫= nodes) < 2 ^ 32 →
       advances ns (capacity (children ≫= nodes)) v
         (foldl (λ v c, walk c v) v children)
       ∧ stop (foldl (λ v c, walk c v) v children) = false.
Proof.
  induction children as [|c children IHc]; intros v Hsub Hinv Hstop Hwrap.
  { simpl. split; [by apply advances_refl|done]. }
  simpl foldl.
  change ((c :: children) ≫= nodes) with (nodes c ++ (children ≫= nodes)) in *.
  rewrite capacity_app in *.
  pose proof (capacity_nonneg (children ≫= nodes)).
  pose proof (capacity_nonneg (nodes c)).
  destruct (walk_advances c v) as [Hadv1 Hstop1]; try done.
  { intros x Hx. apply Hsub, elem_of_app. by left. }
  { lia. }
  destruct (IHc (walk c v)) as [Hadv2 Hstop2]; try done.
  { intros x Hx. apply Hsub, elem_of_app. by right. }
  { apply Hadv1. }
  { destruct Hadv1 as (_ & Hb & _). lia. }
  split; [|done]. by eapply advances_trans.
Qed.

End Function.

(** *** The loop over the catch clauses *)

Lemma catches_assigned cs :
  ∀ v, NoDup cs → 0 <= NextCounter v →
       NextCounter v + Z.of_nat (length cs) < 2 ^ 32 →
       let v' := foldl (λ v c, hash TryCatchCatch (assign c v)) v cs in
       NextCounter v' = NextCounter v + Z.of_nat (length cs)
       ∧ (∀ (i : nat) c, cs !! i = Some c →
                         CounterMap v' !! c = Some (NextCounter v + Z.of_nat i))
       ∧ (∀ k, k ∉ cs → CounterMap v' !! k = CounterMap v !! k)
       ∧ Hash v' = combine_all (Hash v) (replicate (length cs) TryCatchCatch)
       ∧ stop v' = stop v.
Proof.
  induction cs as [|c cs IH]; intros v Hnd Hpos Hwrap; cbv zeta.
  { simpl. split; [lia|]. split; [done|]. done. }
  apply NoDup_cons in Hnd as [Hc Hnd]. simpl length in Hwrap.
  assert (Hnext : wrap32 (NextCounter v + 1) = NextCounter v + 1).
  { unfold wrap32. apply Z.mod_small. lia. }
  destruct (IH (hash TryCatchCatch (assign c v)) Hnd) as (Hn & Hi & Hk & Hh & Hs).
  { simpl. lia. }
  { simpl. lia. }
  simpl foldl. simpl in Hn, Hi, Hk, Hh, Hs. rewrite Hnext in *.
  split; [simpl length; lia|]. split; [|split; [|split]].
  - intros [|i] x Hx; simpl in Hx.
    + injection Hx as ->. rewrite Hk by done. rewrite lookup_insert_eq. f_equal. lia.
    + rewrite (Hi i x Hx). f_equal. lia.
  - intros k Hk'. apply not_elem_of_cons in Hk' as [Hne Hk'].
    rewrite Hk by done. by rewrite lookup_insert_ne.
  - exact Hh.
  - exact Hs.
Qed.

(** C10.  In the mapping pass of a function with the nodes [ns], when a
    try/catch statement is visited for the first time with [first] the next
    counter: the visit assigns [first] to the statement and
    [first + 1 + i] to its i-th catch clause, in the order of declaration,
    and nothing else; it adds to the hash the token TryCatchStmt and then
    one token TryCatchCatch per catch clause.  The children of the statement
    (the try body and the handlers) are walked from the state the visit
    leaves, so every counter assigned inside them is at least
    [first + 1 + length catches], and the counters of the statement and of
    its catch clauses stay as the visit assigned them. *)
Theorem visit_TryCatchStatement_order (ns : list Node) (stmt : ptr)
    (catches : list ptr) (children : list Tree) (v : MapRegionCounters.t) :
  well_formed ns = true →
  nodes (Tr (TryCatchStatement stmt catches) children) ⊆ ns →
  inv ns v → stop v = false →
  CounterMap v !! stmt = None →
  NextCounter v + capacity (nodes (Tr (TryCatchStatement stmt catches) children))
    < 2 ^ 32 →
  let first := NextCounter v in
  let v1 := visit (TryCatchStatement stmt catches) v in
  let v2 := walk (Tr (TryCatchStatement stmt catches) children) v in
  CounterMap v1 !! stmt = Some first
  ∧ (∀ (i : nat) c, catches !! i = Some c →
                    CounterMap v1 !! c = Some (first + 1 + Z.of_nat i))
  ∧ NextCounter v1 = first + 1 + Z.of_nat (length catches)
  ∧ (∀ k, k ∉ stmt :: catches → CounterMap v1 !! k = CounterMap v !! k)
  ∧ Hash v1
    = combine_all (Hash v)
        (TryCatchStmt :: replicate (length catches) TryCatchCatch)
  ∧ v2 = foldl (λ v c, walk c v) v1 children
  ∧ CounterMap v1 ⊆ CounterMap v2
  ∧ (∀ k j, CounterMap v2 !! k = Some j → CounterMap v1 !! k = None →
            first + 1 + Z.of_nat (length catches) <= j).
Proof.
  intros Hwf Hsub Hinv Hstop Hfresh Hwrap first v1 v2.
  simpl nodes in *. simpl capacity in *.
  pose proof (capacity_nonneg (children ≫= nodes)) as Hcap.
  assert (Hn : TryCatchStatement stmt catches ∈ ns) by (apply Hsub; by left).
  assert (Hpos : 0 <= NextCounter v).
  { destruct Hinv as [[_ _ _ Hsize] _]. lia. }
  assert (Hnext : wrap32 (NextCounter v + 1) = NextCounter v + 1).
  { unfold wrap32. apply Z.mod_small. lia. }
  assert (Hnotin : stmt ∉ catches).
  { intros Hin. apply (wf_catch_not_object ns Hwf _ _ stmt Hn Hn Hin). by left. }
  assert (Hv1 : v1 = foldl (λ v c, hash TryCatchCatch (assign c v))
                       (hash TryCatchStmt (assign stmt v)) catches).
  { subst v1. simpl. unfold SKIP_VISITED. case_decide as Hvis; [|done].
    rewrite Hfresh in Hvis. by destruct Hvis. }
  destruct (catches_assigned catches (hash TryCatchStmt (assign stmt v)))
    as (Hc1 & Hc2 & Hc3 & Hc4 & Hc5).
  { apply (wf_catches_NoDup ns Hwf _ Hn). }
  { simpl. lia. }
  { simpl. lia. }
  rewrite <- Hv1 in Hc1, Hc2, Hc3, Hc4, Hc5. simpl in Hc1, Hc2, Hc3, Hc4, Hc5.
  rewrite Hnext in *.
  pose proof (visit_advances ns Hwf _ v Hn Hinv ltac:(simpl; lia)) as Hvisit.
  fold v1 in Hvisit.
  assert (Hstop1 : stop v1 = false) by congruence.
  assert (Hv2 : v2 = foldl (λ v c, walk c v) v1 children).
  { unfold v2. cbn [walk].
    change (visit (TryCatchStatement stmt catches) v) with v1.
    by rewrite Hstop1. }
  assert (Hsubc : children ≫= nodes ⊆ ns).
  { intros x Hx. apply Hsub. by right. }
  assert (Hinv1 : inv ns v1) by apply Hvisit.
  assert (Hwrap1 : NextCounter v1 + capacity (children ≫= nodes) < 2 ^ 32) by lia.
  destruct (walk_children_advances ns Hwf children v1 Hsubc Hinv1 Hstop1 Hwrap1)
    as [(_ & _ & Hsub2 & Hnew2) _].
  split; [|split; [|split; [|split; [|split; [|split; [|split]]]]]].
  - rewrite Hc3 by done. by rewrite lookup_insert_eq.
  - intros i c Hi. exact (Hc2 i c Hi).
  - subst first. lia.
  - intros k Hk. apply not_elem_of_cons in Hk as [Hne Hk].
    rewrite Hc3 by done. by rewrite lookup_insert_ne.
  - exact Hc4.
  - exact Hv2.
  - by rewrite Hv2.
  - intros k j Hk2 Hk1. rewrite Hv2 in Hk2.
    pose proof (Hnew2 k j Hk2 Hk1). subst first. lia.
Qed.

Lemma visit_TryCatchStatement_order_witness :
  let v := visit (FuncDeclaration 16) init in
  let v1 := visit (TryCatchStatement 32 [48; 64]%N) v in
  NextCounter v = 1
  ∧ CounterMap v1 !! 32%N = Some 1
  ∧ NextCounter v1 = 1 + 1 + Z.of_nat 2.
Proof.
  pose proof (visit_TryCatchStatement_order
                (nodes (Tr (FuncDeclaration 16) try_function))
                32%N [48; 64]%N
                [Tr (IfStatement 80) []; Tr (WhileStatement 96) []; Tr Other []]
                (visit (FuncDeclaration 16) init)) as H.
  destruct H as (H1 & _ & H3 & _).
  - reflexivity.
  - intros x Hx. apply elem_of_cons. right. exact Hx.
  - apply (visit_advances (nodes (Tr (FuncDeclaration 16) try_function)));
      [reflexivity|by left| |vm_compute; reflexivity].
    split; [apply dense_init|apply keyed_init].
  - reflexivity.
  - reflexivity.
  - vm_compute. reflexivity.
  - split; [reflexivity|]. split; [exact H1|exact H3].
Defined.

(** C1.  For a function whose objects are laid out as objects are
    ([well_formed]) and that has fewer than 2^32 counters,
    [mapRegionCounters] passes both of its assertions, and on its return
    [NumRegionCounters] is the number of entries of the counter map, the
    indices in the map are exactly 0, 1, ..., [NumRegionCounters - 1], no
    index is given to two keys, and the index 0 belongs to the body of the
    function. *)
Theorem mapRegionCounters_dense (MD5_final : list Z → list Z) (fbody : ptr)
    (children : list Tree) (pgo : CodeGenPGO.t) :
  well_formed (nodes (Tr (FuncDeclaration fbody) children)) = true →
  capacity (nodes (Tr (FuncDeclaration fbody) children)) < 2 ^ 32 →
  ∃ pgo' m,
    mapRegionCounters MD5_final fbody children pgo = Some pgo'
    ∧ CodeGenPGO.RegionCounterMap pgo' = Some m
    ∧ CodeGenPGO.NumRegionCounters pgo' = Z.of_nat (size m)
    ∧ (∀ i, (∃ k, m !! k = Some i) ↔ 0 <= i < CodeGenPGO.NumRegionCounters pgo')
    ∧ (∀ k1 k2 i, m !! k1 = Some i → m !! k2 = Some i → k1 = k2)
    ∧ m !! fbody = Some 0.
Proof.
  intros Hwf Hcap.
  set (ns := nodes (Tr (FuncDeclaration fbody) children)) in *.
  assert (Hfd : FuncDeclaration fbody ∈ ns) by (by left).
  assert (Hinit : inv ns init) by (split; [apply dense_init|apply keyed_init]).
  pose proof (capacity_nonneg (children ≫= nodes)) as Hcn.
  assert (Hcap' : 1 + capacity (children ≫= nodes) < 2 ^ 32) by exact Hcap.
  pose proof (visit_advances ns Hwf _ init Hfd Hinit ltac:(simpl; lia)) as Hvisit.
  change (visit (FuncDeclaration fbody) init) with (assign fbody init) in Hvisit.
  destruct (walk_children_advances ns Hwf children (assign fbody init))
    as [(Hinvf & Hbf & Hsubf & _) _].
  { intros x Hx. apply elem_of_cons. by right. }
  { apply Hvisit. }
  { done. }
  { change (NextCounter (assign fbody init)) with 1. lia. }
  assert (Hwalk : walk (Tr (FuncDeclaration fbody) children) init
                  = foldl (λ v c, walk c v) (assign fbody init) children) by done.
  set (vf := foldl (λ v c, walk c v) (assign fbody init) children) in *.
  assert (Hbody : CounterMap vf !! fbody = Some 0).
  { apply (lookup_weaken (CounterMap (assign fbody init))); [|done].
    simpl. by rewrite lookup_insert_eq. }
  destruct Hinvf as [[Hrange Hcover Hinj Hsize] _].
  pose proof (Hrange _ _ Hbody) as Hpos.
  unfold mapRegionCounters. rewrite Hwalk.
  destruct (0 <? NextCounter vf) eqn:E1; [|apply Z.ltb_ge in E1; lia].
  destruct (NextCounter vf =? Z.of_nat (size (CounterMap vf))) eqn:E2;
    [|apply Z.eqb_neq in E2; done].
  simpl. eexists _, (CounterMap vf). split; [reflexivity|].
  simpl. split; [done|]. split; [done|]. split; [|split; [|done]].
  - intros i. split.
    + intros [k Hk]. by apply (Hrange k).
    + apply Hcover.
  - apply Hinj.
Qed.

Lemma mapRegionCounters_dense_witness :
  ∃ pgo' m,
    mapRegionCounters no_digest 16 (try_function ++ switch_function) empty_profile
      = Some pgo'
    ∧ CodeGenPGO.RegionCounterMap pgo' = Some m
    ∧ CodeGenPGO.NumRegionCounters pgo' = Z.of_nat (size m)
    ∧ (∀ i, (∃ k, m !! k = Some i) ↔ 0 <= i < CodeGenPGO.NumRegionCounters pgo')
    ∧ (∀ k1 k2 i, m !! k1 = Some i → m !! k2 = Some i → k1 = k2)
    ∧ m !! 16%N = Some 0.
Proof.
  apply (mapRegionCounters_dense no_digest 16 (try_function ++ switch_function)
           empty_profile).
  - vm_compute. reflexivity.
  - vm_compute. reflexivity.
Defined.

End Mapping.

(** ** The counting pass *)

Section Counting.
Import CodeGenPGO ComputeRegionCounts.

(** *** Induction over the syntax tree *)

Lemma Expression_ind' (P : Expression → Prop) :
  (∀ E operands, Forall P operands → P (OtherExp E operands)) →
  (∀ E econd e1 e2, P econd → P e1 → P e2 → P (CondExp E econd e1 e2)) →
  (∀ E e1 e2, P e1 → P e2 → P (AndAndExp E e1 e2)) →
  (∀ E e1 e2, P e1 → P e2 → P (OrOrExp E e1 e2)) →
  ∀ e, P e.
Proof.
  intros Hother Hcond Hand Hor. fix IH 1. intros [E ops|E c e1 e2|E e1 e2|E e1 e2].
  - apply Hother. induction ops as [|o ops IHo]; constructor; [apply IH|exact IHo].
  - apply Hcond; apply IH.
  - apply Hand; apply IH.
  - apply Hor; apply IH.
Qed.

Lemma Statement_ind' (P : Statement → Prop) :
  (∀ S_, P (OtherStatement S_)) →
  (∀ S_ exp, P (ExpStatement S_ exp)) →
  (∀ S_ statements, Forall P statements → P (CompoundStatement S_ statements)) →
  (∀ S_ exp, P (ReturnStatement S_ exp)) →
  (∀ S_ exp, P (ThrowStatement S_ exp)) →
  (∀ S_, P (GotoStatement S_)) →
  (∀ S_ statement, child P statement → P (LabelStatement S_ statement)) →
  (∀ S_ target, P (BreakStatement S_ target)) →
  (∀ S_ target, P (ContinueStatement S_ target)) →
  (∀ S_ condition _body, child P _body → P (WhileStatement S_ condition _body)) →
  (∀ S_ _body condition, child P _body → P (DoStatement S_ _body condition)) →
  (∀ S_ _init condition increment _body,
     child P _init → child P _body →
     P (ForStatement S_ _init condition increment _body)) →
  (∀ S_ aggr _body, child P _body → P (ForeachStatement S_ aggr _body)) →
  (∀ S_ lwr upr _body, child P _body → P (ForeachRangeStatement S_ lwr upr _body)) →
  (∀ S_ condition _body, child P _body → P (SwitchStatement S_ condition _body)) →
  (∀ S_ gototarget statement,
     child P statement → P (CaseStatement S_ gototarget statement)) →
  (∀ S_ gototarget statement,
     child P statement → P (DefaultStatement S_ gototarget statement)) →
  (∀ S_, P (GotoDefaultStatement S_)) →
  (∀ S_, P (GotoCaseStatement S_)) →
  (∀ S_ condition ifbody elsebody,
     child P ifbody → child P elsebody →
     P (IfStatement S_ condition ifbody elsebody)) →
  (∀ S_ _body catches,
     child P _body → Forall (λ c, child P (handler_of c)) catches →
     P (TryCatchStatement S_ _body catches)) →
  (∀ S_ _body finalbody,
     child P _body → child P finalbody →
     P (TryFinallyStatement S_ _body finalbody)) →
  ∀ s, P s.
Proof.
  intros H1 H2 H3 H4 H5 H6 H7 H8 H9 H10 H11 H12 H13 H14 H15 H16 H17 H18 H19
    H20 H21 H22.
  fix IH 1.
  assert (IHc : ∀ x : option Statement, child P x).
  { intros [a|]; simpl; [apply IH|exact I]. }
  intros [S_|S_ exp|S_ ss|S_ exp|S_ exp|S_|S_ st|S_ tg|S_ tg|S_ c b|S_ b c
         |S_ i c inc b|S_ a b|S_ l u b|S_ c b|S_ g st|S_ g st|S_|S_
         |S_ c t e|S_ b cs|S_ b f].
  - apply H1.
  - apply H2.
  - apply H3. induction ss as [|s ss IHs]; constructor; [apply IH|exact IHs].
  - apply H4.
  - apply H5.
  - apply H6.
  - apply H7, IHc.
  - apply H8.
  - apply H9.
  - apply H10, IHc.
  - apply H11, IHc.
  - apply H12; apply IHc.
  - apply H13, IHc.
  - apply H14, IHc.
  - apply H15, IHc.
  - apply H16, IHc.
  - apply H17, IHc.
  - apply H18.
  - apply H19.
  - apply H20; apply IHc.
  - apply H21; [apply IHc|].
    induction cs as [|[c h] cs IHs]; constructor; [apply IHc|exact IHs].
  - apply H22; apply IHc.
Qed.

(** *** The depth of the stack of loops *)

Lemma depth_setCount c v : depth (setCount c v) = depth v.
Proof. done. Qed.
Lemma depth_set_CountMap k c v : depth (set_CountMap k c v) = depth v.
Proof. done. Qed.
Lemma depth_set_RecordNextStmtCount b v :
  depth (set_RecordNextStmtCount b v) = depth v.
Proof. done. Qed.
Lemma depth_set_LoopLabels l v : depth (set_LoopLabels l v) = depth v.
Proof. done. Qed.
Lemma depth_set_BreakContinueStack l v :
  depth (set_BreakContinueStack l v) = length l.
Proof. done. Qed.
Lemma depth_RecordStmtCount S_ v : depth (RecordStmtCount S_ v) = depth v.
Proof. unfold RecordStmtCount. by destruct (RecordNextStmtCount v). Qed.
Lemma depth_leave v : depth (leave v) = depth v.
Proof. done. Qed.
Lemma depth_push_back v : depth (push_back v) = S (depth v).
Proof. unfold depth, push_back. simpl. rewrite length_app. simpl. lia. Qed.

Lemma depth_fold v : length (BreakContinueStack v) = depth v.
Proof. done. Qed.

Create Rewrite HintDb depth.
#[local] Hint Rewrite depth_setCount depth_set_CountMap depth_set_RecordNextStmtCount
  depth_set_LoopLabels depth_set_BreakContinueStack depth_RecordStmtCount
  depth_leave depth_push_back @length_alter depth_fold : depth.

(** Popping returns the last frame and leaves the frames below it. *)
Lemma pop_back_val_Some v BC v' :
  pop_back_val v = Some (BC, v') →
  BreakContinueStack v = BreakContinueStack v' ++ [BC]
  ∧ v' = set_BreakContinueStack (BreakContinueStack v') v
  ∧ depth v = S (depth v').
Proof.
  unfold pop_back_val. intros H.
  apply bind_Some in H as (BC' & Hlast & [= <- <-]).
  apply last_Some in Hlast as [l Hl]. unfold depth. simpl.
  rewrite Hl, removelast_last, length_app. simpl. split; [done|]. split; [done|lia].
Qed.

Lemma pop_back_val_is_Some v :
  (0 < depth v)%nat → ∃ BC v', pop_back_val v = Some (BC, v').
Proof.
  unfold depth, pop_back_val. intros Hd.
  destruct (last (BreakContinueStack v)) as [BC|] eqn:Hlast.
  - simpl. eauto.
  - apply last_None in Hlast. rewrite Hlast in Hd. simpl in Hd. lia.
Qed.

Section Depth.
Variable PGO : CodeGenPGO.t.

(** The visit of an expression does not touch the stack of loops or the
    labels. *)
Lemma visitE_stack e :
  ∀ v v', visitE PGO e v = Some v' →
          BreakContinueStack v' = BreakContinueStack v
          ∧ LoopLabels v' = LoopLabels v.
Proof.
  assert (Hrec : ∀ S_ v, BreakContinueStack (RecordStmtCount S_ v) = BreakContinueStack v
                         ∧ LoopLabels (RecordStmtCount S_ v) = LoopLabels v).
  { intros S_ v. unfold RecordStmtCount. by destruct (RecordNextStmtCount v). }
  induction e as [E ops IH|E c e1 e2 IHc IH1 IH2|E e1 e2 IH1 IH2|E e1 e2 IH1 IH2]
    using Expression_ind'; intros v v' H; simpl in H.
  - revert v H. induction ops as [|o ops IHo]; intros v H; simpl in H.
    + by injection H as ->.
    + apply Forall_cons in IH as [IHhd IHtl].
      apply bind_Some in H as (v1 & H1 & H).
      destruct (IHhd _ _ H1) as [E1 E2].
      destruct (IHo IHtl _ H) as [E3 E4]. split; congruence.
  - apply bind_Some in H as (v1 & H1 & H).
    apply bind_Some in H as (v2 & H2 & H).
    apply bind_Some in H as (v3 & H3 & [= <-]).
    apply IHc in H1 as [Hs1 Hl1]. apply IH1 in H2 as [Hs2 Hl2].
    apply IH2 in H3 as [Hs3 Hl3]. simpl in *.
    destruct (Hrec E v) as [Hr1 Hr2]. split; congruence.
  - apply bind_Some in H as (v1 & H1 & H).
    apply bind_Some in H as (v2 & H2 & [= <-]).
    apply IH1 in H1 as [Hs1 Hl1]. apply IH2 in H2 as [Hs2 Hl2]. simpl in *.
    destruct (Hrec E v) as [Hr1 Hr2]. split; congruence.
  - apply bind_Some in H as (v1 & H1 & H).
    apply bind_Some in H as (v2 & H2 & [= <-]).
    apply IH1 in H1 as [Hs1 Hl1]. apply IH2 in H2 as [Hs2 Hl2]. simpl in *.
    destruct (Hrec E v) as [Hr1 Hr2]. split; congruence.
Qed.

(** The visit of an expression has no assertion: it always returns. *)
Lemma visitE_total e : ∀ v, ∃ v', visitE PGO e v = Some v'.
Proof.
  induction e as [E ops IH|E c e1 e2 IHc IH1 IH2|E e1 e2 IH1 IH2|E e1 e2 IH1 IH2]
    using Expression_ind'; intros v; simpl.
  - revert v. induction ops as [|o ops IHo]; intros v; simpl; [eauto|].
    apply Forall_cons in IH as [IHhd IHtl].
    destruct (IHhd v) as [v1 ->]. simpl. by apply IHo.
  - destruct (IHc (RecordStmtCount E v)) as [v1 ->]. simpl.
    match goal with |- context [visitE PGO e1 ?w] => destruct (IH1 w) as [v2 ->] end.
    simpl.
    match goal with |- context [visitE PGO e2 ?w] => destruct (IH2 w) as [v3 ->] end.
    simpl. eauto.
  - destruct (IH1 (RecordStmtCount E v)) as [v1 ->]. simpl.
    match goal with |- context [visitE PGO e2 ?w] => destruct (IH2 w) as [v2 ->] end.
    simpl. eauto.
  - destruct (IH1 (RecordStmtCount E v)) as [v1 ->]. simpl.
    match goal with |- context [visitE PGO e2 ?w] => destruct (IH2 w) as [v2 ->] end.
    simpl. eauto.
Qed.

Lemma recurse_visitE_total exp v : ∃ v', recurse (visitE PGO) exp v = Some v'.
Proof. destruct exp as [e|]; simpl; [apply visitE_total|eauto]. Qed.

Lemma recurse_visitE_depth exp v v' :
  recurse (visitE PGO) exp v = Some v' → depth v' = depth v.
Proof.
  destruct exp as [e|]; simpl; intros H.
  - unfold depth. by destruct (visitE_stack _ _ _ H) as [-> _].
  - by injection H as ->.
Qed.

Lemma visitE_depth e v v' : visitE PGO e v = Some v' → depth v' = depth v.
Proof. apply (recurse_visitE_depth (Some e)). Qed.

Lemma target_frame_lt target v i :
  target_frame target v = Some i → (i < depth v)%nat.
Proof.
  unfold target_frame, depth.
  destruct (decide (BreakContinueStack v = [])) as [|Hne]; [done|].
  destruct (decide (target ≠ nullptr)) as [Ht|Ht].
  - intros Hi. apply bind_Some in Hi as ([j LL] & _ & Hi).
    destruct (decide (stackindex LL < length (BreakContinueStack v))%nat);
      [|done].
    by injection Hi as <-.
  - intros [= <-]. destruct (BreakContinueStack v); [done|]. simpl. lia.
Qed.

Lemma recurse_child_depth x v v' :
  child (λ s, ∀ v v', visitS PGO s v = Some v' → depth v' = depth v) x →
  recurse (visitS PGO) x v = Some v' → depth v' = depth v.
Proof.
  destruct x as [s|]; simpl; intros IH H; [by apply IH|]. by injection H as ->.
Qed.

Lemma recurse_all_depth {A : Type} (visit : A → ComputeRegionCounts.t → option ComputeRegionCounts.t) xs :
  Forall (λ x, ∀ v v', visit x v = Some v' → depth v' = depth v) xs →
  ∀ v v', recurse_all visit xs v = Some v' → depth v' = depth v.
Proof.
  induction xs as [|x xs IH]; intros Hall v v' H; simpl in H.
  - by injection H as ->.
  - apply Forall_cons in Hall as [Hhd Htl].
    apply bind_Some in H as (v1 & H1 & H).
    rewrite (IH Htl _ _ H). by apply Hhd.
Qed.

#[local] Arguments RecordStmtCount : simpl never.
#[local] Arguments setCount : simpl never.
#[local] Arguments set_CountMap : simpl never.
#[local] Arguments set_RecordNextStmtCount : simpl never.
#[local] Arguments set_LoopLabels : simpl never.
#[local] Arguments set_BreakContinueStack : simpl never.
#[local] Arguments push_back : simpl never.
#[local] Arguments pop_back_val : simpl never.
#[local] Arguments leave : simpl never.
#[local] Arguments target_frame : simpl never.
#[local] Arguments recurse : simpl never.
#[local] Arguments depth : simpl never.

Ltac depth_step :=
  match goal with
  | H : (_ ≫= _) = Some _ |- _ => apply bind_Some in H as (? & ? & H)
  | H : Some _ = Some _ |- _ => injection H as <-
  | H : recurse (visitE _) _ _ = Some _ |- _ => apply recurse_visitE_depth in H
  | H : visitE _ _ _ = Some _ |- _ => apply visitE_depth in H
  | H : pop_back_val _ = Some _ |- _ =>
      apply pop_back_val_Some in H as (_ & _ & H)
  | H : target_frame _ _ = Some _ |- _ => apply target_frame_lt in H
  | IH : child _ ?x, H : recurse (visitS _) ?x _ = Some _ |- _ =>
      apply (recurse_child_depth _ _ _ IH) in H
  | x : (_ * _)%type |- _ => destruct x; simpl in *
  end.

(** The visit of a statement leaves as many frames on the stack of loops
    as it found: each loop and each switch pops the frame it pushed. *)
Lemma visitS_depth s :
  ∀ v v', visitS PGO s v = Some v' → depth v' = depth v.
Proof.
  induction s using Statement_ind'; intros v v' Hv; simpl in Hv.
  all: try (destruct gototarget).
  all: try (destruct increment).
  all: try (destruct elsebody; simpl in *).
  all: repeat depth_step.
  all: try (autorewrite with depth in *; lia).
  - (* compound *)
    by apply (recurse_all_depth (visitS PGO) statements).
  - (* switch *)
    case_decide; autorewrite with depth in *; lia.
  - (* if with else *)
    match goal with
    | IH : ∀ v v', visitS PGO ?s v = Some v' → _,
      Hs : visitS PGO ?s _ = Some _ |- _ => apply IH in Hs
    end.
    autorewrite with depth in *. lia.
  - (* try/catch *)
    match goal with
    | Hall : Forall _ ?cs, Hc : recurse_all (visitCatch PGO) ?cs _ = Some _ |- _ =>
        apply (recurse_all_depth (visitCatch PGO) cs) in Hc;
        [|eapply Forall_impl; [exact Hall|]]
    end.
    + autorewrite with depth in *. lia.
    + intros [c h] Hc w w' Hw. simpl in *.
      apply (recurse_child_depth _ _ _ Hc) in Hw.
      autorewrite with depth in *. lia.
Qed.

Lemma recurse_visitS_depth x v v' :
  recurse (visitS PGO) x v = Some v' → depth v' = depth v.
Proof.
  destruct x as [s|]; simpl; intros H; [by apply visitS_depth in H|].
  by injection H as ->.
Qed.

(** *** The pass returns *)

Lemma recurse_child_returns x inside v :
  child (returns PGO) x → from_option (safe inside) true x = true →
  (inside = true → (0 < depth v)%nat) →
  ∃ v', recurse (visitS PGO) x v = Some v'.
Proof.
  destruct x as [s|]; simpl; intros IH Hsafe Hd; [by apply (IH inside)|eauto].
Qed.

Lemma target_frame_is_Some v :
  (0 < depth v)%nat → ∃ i, target_frame nullptr v = Some i.
Proof.
  unfold target_frame, depth. intros Hd.
  destruct (decide (BreakContinueStack v = [])) as [He|_].
  - rewrite He in Hd. simpl in Hd. lia.
  - destruct (decide (nullptr ≠ nullptr)); [done|eauto].
Qed.

Ltac returns_expression :=
  match goal with
  | |- context [recurse (visitE PGO) ?e ?w] =>
      let He := fresh "He" in
      destruct (recurse_visitE_total e w) as [? He]; rewrite He;
      cbn [mbind option_bind]; apply recurse_visitE_depth in He
  | |- context [visitE PGO ?e ?w] =>
      let He := fresh "He" in
      destruct (visitE_total e w) as [? He]; rewrite He;
      cbn [mbind option_bind]; apply visitE_depth in He
  end.

Ltac solve_depth :=
  autorewrite with depth in *; intros;
  try match goal with
      | Hd : ?i = true → _, Hi : ?i = true |- _ => pose proof (Hd Hi)
      end;
  lia.

Ltac returns_child inside :=
  match goal with
  | IH : child _ ?x |- context [recurse (visitS PGO) ?x ?w] =>
      let Hs := fresh "Hs" in
      destruct (recurse_child_returns x inside w IH) as [? Hs];
      [done|solve_depth|];
      rewrite Hs; cbn [mbind option_bind]; apply recurse_visitS_depth in Hs
  end.

Ltac returns_pop :=
  match goal with
  | |- context [pop_back_val ?w] =>
      let Hp := fresh "Hp" in
      destruct (pop_back_val_is_Some w) as (? & ? & Hp);
      [solve_depth|];
      rewrite Hp; cbn [mbind option_bind];
      apply pop_back_val_Some in Hp as (_ & _ & Hp)
  end.

Lemma catches_return inside catches :
  Forall (λ c, child (returns PGO) (handler_of c)) catches →
  forallb (λ c, match c with
                | mkCatch _ handler => from_option (safe inside) true handler
                end) catches = true →
  ∀ w, (inside = true → (0 < depth w)%nat) →
       ∃ vc, recurse_all (visitCatch PGO) catches w = Some vc.
Proof.
  induction catches as [|[p h] cs IH]; intros Hall Hsafe w Hw; simpl; [eauto|].
  apply Forall_cons in Hall as [Hh Hall]. simpl in Hh, Hsafe.
  apply andb_true_iff in Hsafe as [Hs1 Hs2].
  destruct (recurse_child_returns h inside
              (set_RecordNextStmtCount true (setCount (getRegionCount PGO p) w))
              Hh Hs1) as [w1 Hw1]; [solve_depth|].
  rewrite Hw1. simpl. apply IH; try done.
  apply recurse_visitS_depth in Hw1. solve_depth.
Qed.

(** The visit of a safe statement returns. *)
Lemma visitS_returns s : returns PGO s.
Proof.
  induction s using Statement_ind'; intros inside v Hsafe Hd;
    simpl in Hsafe; simpl visitS;
    repeat match goal with
           | H : _ && _ = true |- _ => apply andb_true_iff in H as [? ?]
           end.
  all: try (eexists; reflexivity).
  all: repeat returns_expression.
  all: try (eexists; reflexivity).
  - (* compound *)
    revert v Hd. induction statements as [|s ss IHss]; intros v Hd; simpl; [eauto|].
    apply Forall_cons in H as [Hhd Htl].
    simpl in Hsafe. apply andb_true_iff in Hsafe as [Hs1 Hs2].
    destruct (Hhd inside v Hs1 Hd) as [v1 Hv1]. rewrite Hv1. simpl.
    apply IHss; try done. intros Hi. apply visitS_depth in Hv1. specialize (Hd Hi). lia.
  - (* label *)
    returns_child inside. eauto.
  - (* break *)
    apply bool_decide_eq_true in H0 as ->.
    destruct (target_frame_is_Some (RecordStmtCount S_ v)) as [i Hi].
    { autorewrite with depth. by apply Hd. }
    rewrite Hi. simpl. eauto.
  - (* continue *)
    apply bool_decide_eq_true in H0 as ->.
    destruct (target_frame_is_Some (RecordStmtCount S_ v)) as [i Hi].
    { autorewrite with depth. by apply Hd. }
    rewrite Hi. simpl. eauto.
  - (* while *)
    returns_child true. returns_pop. returns_expression. eauto.
  - (* do *)
    returns_child true. returns_pop. returns_expression. eauto.
  - (* for *)
    returns_child inside. returns_child true. returns_pop.
    destruct increment; cbn [mbind option_bind]; repeat returns_expression; eauto.
  - (* foreach *)
    returns_child true. returns_pop. eauto.
  - (* foreach range *)
    returns_child true. returns_pop. eauto.
  - (* switch *)
    returns_child true. returns_pop. eauto.
  - (* case *)
    destruct gototarget; returns_child inside; eauto.
  - (* default *)
    destruct gototarget; returns_child inside; eauto.
  - (* if *)
    returns_child inside. destruct elsebody as [e|]; simpl in *; [|eauto].
    match goal with
    | IH : returns PGO e |- context [visitS PGO e ?w] =>
        destruct (IH inside w) as [ve Hve];
        [done|solve_depth|]; rewrite Hve
    end.
    simpl. eauto.
  - (* try/catch *)
    returns_child inside.
    match goal with
    | |- context [recurse_all (visitCatch PGO) catches ?w] =>
        assert (Hc : ∃ vc, recurse_all (visitCatch PGO) catches w = Some vc)
    end.
    { apply (catches_return inside); try done. solve_depth. }
    destruct Hc as [vc ->]. simpl. eauto.
  - (* try/finally *)
    returns_child inside. returns_child inside. eauto.
Qed.

End Depth.

(** *** The keys written by a visit *)

Section Frame.
Variable PGO : CodeGenPGO.t.

#[local] Arguments RecordStmtCount : simpl never.
#[local] Arguments setCount : simpl never.
#[local] Arguments set_CountMap : simpl never.
#[local] Arguments set_RecordNextStmtCount : simpl never.
#[local] Arguments set_LoopLabels : simpl never.
#[local] Arguments set_BreakContinueStack : simpl never.
#[local] Arguments push_back : simpl never.
#[local] Arguments pop_back_val : simpl never.
#[local] Arguments leave : simpl never.
#[local] Arguments target_frame : simpl never.
#[local] Arguments recurse : simpl never.

Lemma CountMap_setCount c v : CountMap (setCount c v) = CountMap v.
Proof. done. Qed.
Lemma CountMap_set_RecordNextStmtCount b v :
  CountMap (set_RecordNextStmtCount b v) = CountMap v.
Proof. done. Qed.
Lemma CountMap_set_LoopLabels l v : CountMap (set_LoopLabels l v) = CountMap v.
Proof. done. Qed.
Lemma CountMap_set_BreakContinueStack l v :
  CountMap (set_BreakContinueStack l v) = CountMap v.
Proof. done. Qed.
Lemma CountMap_push_back v : CountMap (push_back v) = CountMap v.
Proof. done. Qed.
Lemma CountMap_leave v : CountMap (leave v) = CountMap v.
Proof. done. Qed.
Lemma lookup_set_CountMap key c v k :
  k ≠ key → CountMap (set_CountMap key c v) !! k = CountMap v !! k.
Proof. intros Hne. unfold set_CountMap. simpl. by rewrite lookup_insert_ne. Qed.
Lemma lookup_insert_other (m : gmap N Z) key c k :
  k ≠ key → <[key := c]> m !! k = m !! k.
Proof. intros Hne. by rewrite lookup_insert_ne. Qed.
Lemma lookup_set_CountMap_eq key c v :
  CountMap (set_CountMap key c v) !! key = Some c.
Proof. unfold set_CountMap. simpl. by rewrite lookup_insert_eq. Qed.
Lemma lookup_RecordStmtCount S_ v k :
  k ≠ S_ → CountMap (RecordStmtCount S_ v) !! k = CountMap v !! k.
Proof.
  intros Hne. unfold RecordStmtCount.
  destruct (RecordNextStmtCount v); [|done].
  by rewrite CountMap_set_RecordNextStmtCount, lookup_set_CountMap.
Qed.
Lemma pop_back_val_CountMap v BC v' :
  pop_back_val v = Some (BC, v') → CountMap v' = CountMap v.
Proof.
  intros H. apply pop_back_val_Some in H as (_ & -> & _). done.
Qed.

Lemma addrE_addrsE e : addrE e ∈ addrsE e.
Proof. destruct e; simpl; by left. Qed.

Lemma addrS_keysS s : addrS s ∈ keysS s.
Proof. destruct s; simpl; by left. Qed.

Ltac split_keys H :=
  simpl in H;
  rewrite ?not_elem_of_cons, ?not_elem_of_app, ?not_elem_of_cons in H;
  destruct_and?.

Create Rewrite HintDb counts.
#[local] Hint Rewrite CountMap_setCount CountMap_set_RecordNextStmtCount
  CountMap_set_LoopLabels CountMap_set_BreakContinueStack CountMap_push_back
  CountMap_leave : counts.
#[local] Hint Rewrite lookup_set_CountMap lookup_RecordStmtCount
  using done : counts.
#[local] Hint Rewrite lookup_insert_other using done : counts.

Ltac rewrite_counts := autorewrite with counts in *.

(** The visit of an expression writes only at addresses of the
    expression. *)
Lemma visitE_frame e :
  ∀ v v' k, visitE PGO e v = Some v' → k ∉ addrsE e →
            CountMap v' !! k = CountMap v !! k.
Proof.
  induction e as [E ops IH|E c e1 e2 IHc IH1 IH2|E e1 e2 IH1 IH2|E e1 e2 IH1 IH2]
    using Expression_ind'; intros v v' k H Hk; simpl in H.
  - apply not_elem_of_cons in Hk as [_ Hk].
    revert v H. induction ops as [|o ops IHo]; intros v H; simpl in H.
    + by injection H as ->.
    + apply Forall_cons in IH as [IHhd IHtl].
      change ((o :: ops) ≫= addrsE) with (addrsE o ++ (ops ≫= addrsE)) in Hk.
      apply not_elem_of_app in Hk as [Hk1 Hk2].
      apply bind_Some in H as (v1 & Hv1 & H).
      rewrite (IHo IHtl Hk2 _ H). by apply IHhd.
  - pose proof (addrE_addrsE e1). pose proof (addrE_addrsE e2).
    split_keys Hk.
    apply bind_Some in H as (v1 & Hv1 & H).
    apply bind_Some in H as (v2 & Hv2 & H).
    apply bind_Some in H as (v3 & Hv3 & [= <-]).
    apply (IHc _ _ k) in Hv1; [|done]. apply (IH1 _ _ k) in Hv2; [|done].
    apply (IH2 _ _ k) in Hv3; [|done].
    assert (k ≠ addrE e1) by (by intros ->). assert (k ≠ addrE e2) by (by intros ->).
    rewrite_counts. congruence.
  - pose proof (addrE_addrsE e2). split_keys Hk.
    apply bind_Some in H as (v1 & Hv1 & H).
    apply bind_Some in H as (v2 & Hv2 & [= <-]).
    apply (IH1 _ _ k) in Hv1; [|done]. apply (IH2 _ _ k) in Hv2; [|done].
    assert (k ≠ addrE e2) by (by intros ->).
    rewrite_counts. congruence.
  - pose proof (addrE_addrsE e2). split_keys Hk.
    apply bind_Some in H as (v1 & Hv1 & H).
    apply bind_Some in H as (v2 & Hv2 & [= <-]).
    apply (IH1 _ _ k) in Hv1; [|done]. apply (IH2 _ _ k) in Hv2; [|done].
    assert (k ≠ addrE e2) by (by intros ->).
    rewrite_counts. congruence.
Qed.

Lemma recurse_visitE_frame exp v v' k :
  recurse (visitE PGO) exp v = Some v' → k ∉ keysE exp →
  CountMap v' !! k = CountMap v !! k.
Proof.
  destruct exp as [e|]; unfold recurse; simpl; intros H Hk.
  - by apply (visitE_frame e).
  - by injection H as ->.
Qed.

(** The count recorded for an expression before its visit is still there
    after it, when the expression does not contain itself. *)
Lemma visitE_keeps e v v' c :
  visitE PGO e v = Some v' →
  CountMap v !! addrE e = Some c → CurrentCount v = c →
  NoDup (addrsE e) →
  CountMap v' !! addrE e = Some c.
Proof.
  intros H Hc Hcur Hnd.
  assert (Hrec : ∀ E, addrE e = E →
            CountMap (RecordStmtCount E v) !! E = Some c).
  { intros E <-. unfold RecordStmtCount.
    destruct (RecordNextStmtCount v); [|done].
    rewrite CountMap_set_RecordNextStmtCount, lookup_set_CountMap_eq. by rewrite Hcur. }
  destruct e as [E ops|E c0 e1 e2|E e1 e2|E e1 e2]; simpl in *;
    apply NoDup_cons in Hnd as [Hnotin Hnd].
  - rewrite <- Hc. clear Hc Hrec Hcur. revert v H.
    induction ops as [|o ops IHo]; intros v H; simpl in H.
    + by injection H as ->.
    + change ((o :: ops) ≫= addrsE) with (addrsE o ++ (ops ≫= addrsE)) in *.
      apply not_elem_of_app in Hnotin as [Hk1 Hk2].
      apply NoDup_app in Hnd as (_ & _ & Hnd).
      apply bind_Some in H as (v1 & Hv1 & H).
      rewrite (IHo Hk2 Hnd _ H). by apply (visitE_frame o).
  - pose proof (addrE_addrsE e1). pose proof (addrE_addrsE e2).
    split_keys Hnotin.
    apply bind_Some in H as (v1 & Hv1 & H).
    apply bind_Some in H as (v2 & Hv2 & H).
    apply bind_Some in H as (v3 & Hv3 & [= <-]).
    apply (visitE_frame _ _ _ E) in Hv1; [|done].
    apply (visitE_frame _ _ _ E) in Hv2; [|done].
    apply (visitE_frame _ _ _ E) in Hv3; [|done].
    assert (E ≠ addrE e1) by (by intros ->). assert (E ≠ addrE e2) by (by intros ->).
    specialize (Hrec E eq_refl). rewrite_counts. congruence.
  - pose proof (addrE_addrsE e2). split_keys Hnotin.
    apply bind_Some in H as (v1 & Hv1 & H).
    apply bind_Some in H as (v2 & Hv2 & [= <-]).
    apply (visitE_frame _ _ _ E) in Hv1; [|done].
    apply (visitE_frame _ _ _ E) in Hv2; [|done].
    assert (E ≠ addrE e2) by (by intros ->).
    specialize (Hrec E eq_refl). rewrite_counts. congruence.
  - pose proof (addrE_addrsE e2). split_keys Hnotin.
    apply bind_Some in H as (v1 & Hv1 & H).
    apply bind_Some in H as (v2 & Hv2 & [= <-]).
    apply (visitE_frame _ _ _ E) in Hv1; [|done].
    apply (visitE_frame _ _ _ E) in Hv2; [|done].
    assert (E ≠ addrE e2) by (by intros ->).
    specialize (Hrec E eq_refl). rewrite_counts. congruence.
Qed.

#[local] Arguments keysE : simpl never.

Lemma recurse_child_frame x v v' k :
  child (λ s, ∀ v v' k, visitS PGO s v = Some v' → k ∉ keysS s →
                        CountMap v' !! k = CountMap v !! k) x →
  recurse (visitS PGO) x v = Some v' → k ∉ from_option keysS [] x →
  CountMap v' !! k = CountMap v !! k.
Proof.
  destruct x as [s|]; unfold recurse; simpl; intros IH H Hk; [by apply IH|].
  by injection H as ->.
Qed.

Lemma recurse_all_frame {A : Type}
    (visit : A → ComputeRegionCounts.t → option ComputeRegionCounts.t)
    (keys : A → list ptr) xs k :
  Forall (λ x, ∀ v v', visit x v = Some v' → k ∉ keys x →
                       CountMap v' !! k = CountMap v !! k) xs →
  k ∉ xs ≫= keys →
  ∀ v v', recurse_all visit xs v = Some v' → CountMap v' !! k = CountMap v !! k.
Proof.
  induction xs as [|x xs IH]; intros Hall Hk v v' H; simpl in H.
  - by injection H as ->.
  - apply Forall_cons in Hall as [Hhd Htl].
    change ((x :: xs) ≫= keys) with (keys x ++ (xs ≫= keys)) in Hk.
    apply not_elem_of_app in Hk as [Hk1 Hk2].
    apply bind_Some in H as (v1 & Hv1 & H).
    rewrite (IH Htl Hk2 _ _ H). by apply Hhd.
Qed.

Ltac frame_step k :=
  match goal with
  | H : (_ ≫= _) = Some _ |- _ => apply bind_Some in H as (? & ? & H)
  | H : Some _ = Some _ |- _ => injection H as <-
  | H : recurse (visitE _) ?e ?w = Some ?w' |- _ =>
      apply (recurse_visitE_frame e w w' k) in H; [|solve [done|unfold keysE; simpl; done]]
  | H : visitE _ ?e ?w = Some ?w' |- _ =>
      apply (visitE_frame e w w' k) in H; [|done]
  | H : pop_back_val _ = Some _ |- _ => apply pop_back_val_CountMap in H
  | H : target_frame _ _ = Some _ |- _ => clear H
  | IH : child _ ?x, H : recurse (visitS _) ?x ?w = Some ?w' |- _ =>
      apply (recurse_child_frame x w w' k IH) in H; [|solve [done|simpl; done]]
  | IH : ∀ v v' k, visitS _ ?s v = Some v' → _,
    H : visitS _ ?s ?w = Some ?w' |- _ =>
      apply (IH w w' k) in H; [|done]
  | x : (_ * _)%type |- _ => destruct x; simpl in *
  end.

(** The visit of a statement writes only at the keys of the statement. *)
Lemma visitS_frame s :
  ∀ v v' k, visitS PGO s v = Some v' → k ∉ keysS s →
            CountMap v' !! k = CountMap v !! k.
Proof.
  induction s using Statement_ind'; intros v v' k Hv Hk; simpl in Hv.
  all: try (destruct gototarget).
  all: try (destruct increment as [inc|]; [pose proof (addrE_addrsE inc)|]).
  all: try (destruct elsebody as [els|]; simpl in * ).
  all: split_keys Hk.
  all: repeat frame_step k.
  all: try case_decide.
  all: try (destruct condition; simpl in * ).
  all: try (rewrite_counts; congruence).
  - (* compound *)
    eapply (recurse_all_frame (visitS PGO) keysS statements k); [|done|exact Hv].
    eapply Forall_impl; [exact H|]. intros s IH w w'. apply IH.
  - (* try/catch *)
    match goal with
    | Hall : Forall _ ?cs, Hc : recurse_all (visitCatch PGO) ?cs _ = Some _,
      Hk : _ ∉ ?cs ≫= ?keys |- _ =>
        apply (recurse_all_frame (visitCatch PGO) keys cs k) in Hc;
        [|eapply Forall_impl; [exact Hall|]|done]
    end.
    + rewrite_counts. congruence.
    + intros [c h] Hc w w' Hw Hkh. simpl in *.
      apply (recurse_child_frame _ _ _ k Hc) in Hw; [|done].
      rewrite_counts. congruence.
Qed.

Lemma recurse_visitS_frame x v v' k :
  recurse (visitS PGO) x v = Some v' → k ∉ from_option keysS [] x →
  CountMap v' !! k = CountMap v !! k.
Proof.
  destruct x as [s|]; unfold recurse; simpl; intros H Hk.
  - by apply (visitS_frame s).
  - by injection H as ->.
Qed.

Lemma statements_frame statements v v' k :
  recurse_all (visitS PGO) statements v = Some v' → k ∉ statements ≫= keysS →
  CountMap v' !! k = CountMap v !! k.
Proof.
  intros H Hk.
  eapply (recurse_all_frame (visitS PGO) keysS statements k); [|done|exact H].
  apply Forall_forall. intros s _ w w'. apply visitS_frame.
Qed.

Lemma catches_frame catches v v' k :
  recurse_all (visitCatch PGO) catches v = Some v' →
  k ∉ catches ≫= (λ c, match c with
                       | mkCatch _ handler => from_option keysS [] handler
                       end) →
  CountMap v' !! k = CountMap v !! k.
Proof.
  intros H Hk.
  eapply (recurse_all_frame (visitCatch PGO) _ catches k); [|exact Hk|exact H].
  apply Forall_forall. intros [c h] _ w w' Hw Hkh. simpl in *.
  apply (recurse_visitS_frame _ _ _ k) in Hw; [|done].
  rewrite_counts. congruence.
Qed.

Ltac keeps_step k :=
  match goal with
  | H : (_ ≫= _) = Some _ |- _ => apply bind_Some in H as (? & ? & H)
  | H : Some _ = Some _ |- _ => injection H as <-
  | H : recurse (visitE _) ?e ?w = Some ?w' |- _ =>
      apply (recurse_visitE_frame e w w' k) in H;
      [|solve [done|unfold keysE; simpl; done]]
  | H : visitE _ ?e ?w = Some ?w' |- _ =>
      apply (visitE_frame e w w' k) in H; [|done]
  | H : pop_back_val _ = Some _ |- _ => apply pop_back_val_CountMap in H
  | H : target_frame _ _ = Some _ |- _ => clear H
  | H : recurse (visitS _) ?x ?w = Some ?w' |- _ =>
      apply (recurse_visitS_frame x w w' k) in H; [|solve [done|simpl; done]]
  | H : visitS _ ?s ?w = Some ?w' |- _ =>
      apply (visitS_frame s w w' k) in H; [|done]
  | H : recurse_all (visitS _) ?ss ?w = Some ?w' |- _ =>
      apply (statements_frame ss w w' k) in H; [|done]
  | H : recurse_all (visitCatch _) ?cs ?w = Some ?w' |- _ =>
      apply (catches_frame cs w w' k) in H; [|done]
  | x : (_ * _)%type |- _ => destruct x; simpl in *
  end.

(** The count recorded for a statement before its visit is still there
    after it: a statement other than a label, a case and a default
    statement writes at its own address only the current count it is
    entered with, provided its own address is not one of its other keys. *)
Lemma visitS_keeps s v v' c :
  visitS PGO s v = Some v' → own_counter s = false →
  CountMap v !! addrS s = Some c → CurrentCount v = c →
  addrS s ∉ tail (keysS s) →
  CountMap v' !! addrS s = Some c.
Proof.
  intros Hv Hown Hc Hcur Hk.
  assert (Hrec : CountMap (RecordStmtCount (addrS s) v) !! addrS s = Some c).
  { unfold RecordStmtCount. destruct (RecordNextStmtCount v); [|done].
    rewrite CountMap_set_RecordNextStmtCount, lookup_set_CountMap_eq.
    by rewrite Hcur. }
  destruct s as [S_|S_ exp|S_ statements|S_ exp|S_ exp|S_|S_ statement|S_ target
                |S_ target|S_ condition _body|S_ _body condition
                |S_ _init condition increment _body|S_ aggr _body
                |S_ lwr upr _body|S_ condition _body|S_ gototarget statement
                |S_ gototarget statement|S_|S_|S_ condition ifbody elsebody
                |S_ _body catches|S_ _body finalbody];
    try discriminate Hown; simpl in Hv, Hc, Hrec; cbn [keysS tail addrS] in *.
  all: try (destruct increment as [inc|]; [pose proof (addrE_addrsE inc)|]).
  all: try (destruct elsebody as [els|]; simpl in * ).
  all: rewrite ?not_elem_of_cons, ?not_elem_of_app, ?not_elem_of_cons in Hk;
    destruct_and?.
  all: repeat keeps_step S_.
  all: try case_decide.
  all: try (destruct condition; simpl in * ).
  all: try (rewrite_counts; congruence).
Qed.

End Frame.

Lemma recurse_visitS_keeps PGO x v v' c :
  recurse (visitS PGO) x v = Some v' → keeps_count x →
  CountMap v !! ptrS x = Some c → CurrentCount v = c →
  CountMap v' !! ptrS x = Some c.
Proof.
  destruct x as [s|]; unfold recurse; simpl.
  - intros H [Hown Hk] Hc Hcur. by apply (visitS_keeps PGO s v v' c).
  - by intros [= <-].
Qed.

Lemma recurse_visitE_keeps PGO x v v' c :
  recurse (visitE PGO) x v = Some v' → distinct_nodes x →
  CountMap v !! ptrE x = Some c → CurrentCount v = c →
  CountMap v' !! ptrE x = Some c.
Proof.
  destruct x as [e|]; unfold recurse; simpl.
  - intros H Hnd Hc Hcur. by apply (visitE_keeps PGO e v v' c).
  - by intros [= <-].
Qed.

(** *** The loops *)

Lemma CurrentCount_RecordStmtCount S_ v :
  CurrentCount (RecordStmtCount S_ v) = CurrentCount v.
Proof. unfold RecordStmtCount. by destruct (RecordNextStmtCount v). Qed.

(** After the body of a loop the frame pushed for the loop is on top of
    the stack again. *)
Lemma loop_frame PGO S_ (_body : option Statement) key c v vb :
  recurse (visitS PGO) _body
    (set_CountMap key c (setCount c (push_back (RecordStmtCount S_ v)))) = Some vb →
  ∃ BC below,
    BreakContinueStack vb = below ++ [BC]
    ∧ length below = depth v
    ∧ pop_back_val vb = Some (BC, set_BreakContinueStack below vb).
Proof.
  intros Hb.
  assert (Hd : depth vb = S (depth v)).
  { destruct _body as [s|]; simpl in Hb.
    - apply visitS_depth in Hb. by autorewrite with depth in Hb.
    - injection Hb as <-. by autorewrite with depth. }
  destruct (pop_back_val_is_Some vb ltac:(lia)) as (BC & v' & Hpop).
  destruct (pop_back_val_Some _ _ _ Hpop) as (Hstack & Hv' & Hdepth).
  exists BC, (BreakContinueStack v'). split; [done|]. split.
  - change (length (BreakContinueStack v')) with (depth v'). lia.
  - by rewrite <- Hv'.
Qed.

(** C3.  For every while loop, visited with the current count
    [ParentCount] and with [BodyCount] the raw counter of the loop: once the
    body has been visited, the frame [BC] that was pushed for the loop is
    on top of the stack; the count [ParentCount + BackedgeCount +
    BC.ContinueCount] is recorded for the condition and is the current count
    when the condition is visited; the visit of the condition returns, and
    the visit of the loop ends with the current count [BC.BreakCount +
    CondCount - BodyCount] (in 64-bit arithmetic) and the flag to record the
    next statement set; the count recorded for the condition is still in
    the map then, when no node occurs twice in the condition.  With
    [ParentCount = 5], [BodyCount = 5] and no breaks or continues the exit
    count is [0 + CondCount - 5]. *)
Theorem visit_WhileStatement_counts (PGO : CodeGenPGO.t) (S_ : ptr)
    (condition : option Expression) (_body : option Statement)
    (v vb : ComputeRegionCounts.t) :
  let ParentCount := CurrentCount v in
  let BodyCount := getRegionCount PGO S_ in
  recurse (visitS PGO) _body
    (set_CountMap (ptrS _body) BodyCount
       (setCount BodyCount (push_back (RecordStmtCount S_ v)))) = Some vb →
  ∃ BC below ve v',
    BreakContinueStack vb = below ++ [BC]
    ∧ length below = length (BreakContinueStack v)
    ∧ let BackedgeCount := CurrentCount vb in
      let CondCount := add64 (add64 ParentCount BackedgeCount) (ContinueCount BC) in
      let vc :=
        set_CountMap (ptrE condition) CondCount
          (setCount CondCount (set_BreakContinueStack below vb)) in
      CountMap vc !! ptrE condition = Some CondCount
      ∧ CurrentCount vc = CondCount
      ∧ recurse (visitE PGO) condition vc = Some ve
      ∧ visitS PGO (WhileStatement S_ condition _body) v = Some v'
      ∧ CurrentCount v' = sub64 (add64 (BreakCount BC) CondCount) BodyCount
      ∧ RecordNextStmtCount v' = true
      ∧ CountMap v' = CountMap ve
      ∧ BreakContinueStack v' = below
      ∧ (distinct_nodes condition →
         CountMap v' !! ptrE condition = Some CondCount)
      ∧ (ParentCount = 5 → BodyCount = 5 →
         BreakCount BC = 0 → ContinueCount BC = 0 →
         CurrentCount v' = sub64 (add64 0 CondCount) 5).
Proof.
  intros ParentCount BodyCount Hb.
  destruct (loop_frame PGO S_ _body _ _ v vb Hb) as (BC & below & Hstack & Hlen & Hpop).
  set (CondCount := add64 (add64 ParentCount (CurrentCount vb)) (ContinueCount BC)).
  set (vc := set_CountMap (ptrE condition) CondCount
               (setCount CondCount (set_BreakContinueStack below vb))).
  destruct (recurse_visitE_total PGO condition vc) as [ve He].
  exists BC, below, ve. eexists. split; [done|]. split; [done|]. cbv zeta.
  split; [apply lookup_insert_eq|]. split; [done|]. split; [exact He|]. split.
  - cbn [visitS]. rewrite CurrentCount_RecordStmtCount.
    fold BodyCount. change (CurrentCount (setCount BodyCount ?x)) with BodyCount.
    rewrite Hb. cbn [mbind option_bind]. rewrite Hpop. cbn [mbind option_bind].
    fold ParentCount. fold CondCount. fold vc. rewrite He. reflexivity.
  - split; [done|]. split; [done|]. split; [done|]. split.
    + change (BreakContinueStack ve = below).
      destruct condition as [e|]; unfold recurse in He.
      * destruct (visitE_stack PGO e _ _ He) as [Hs _]. exact Hs.
      * by injection He as <-.
    + split.
      * intros Hnd. change (CountMap ve !! ptrE condition = Some CondCount).
        apply (recurse_visitE_keeps PGO condition vc); try done.
        apply lookup_insert_eq.
      * intros _ HB HBr _. cbn. by rewrite HB, HBr.
Qed.

Lemma visit_WhileStatement_counts_witness :
  ∃ v', visitS (counts_of 5 5) while_loop (setCount 5 init) = Some v'
        ∧ CountMap v' !! 48%N = Some 10
        ∧ CurrentCount v' = 5.
Proof.
  destruct (visit_WhileStatement_counts (counts_of 5 5) 32
              (Some (OtherExp 48 [])) (Some (CompoundStatement 64 [OtherStatement 80]))
              (setCount 5 init)
              (set_CountMap 64 5 (setCount 5 (push_back (setCount 5 init)))))
    as (BC & below & ve & v' & Hstack & _ & _ & _ & He & Hv' & Hc & _ & Hm & _).
  - reflexivity.
  - apply (app_inj_tail [] below _ BC) in Hstack as [<- <-].
    injection He as <-.
    exists v'. split; [exact Hv'|]. split.
    + rewrite Hm. reflexivity.
    + rewrite Hc. reflexivity.
Defined.

(** C4, as stated, fails: a do loop reached with the count 5 whose raw
    counter is 7 and whose body runs straight through has the back-edge
    count 7; the count recorded for its condition is 7, not
    [Parent + Backedge + ContinueCount] = 12, and the exit count is 5, not
    [BreakCount + CondCount - BodyCount] = 0 for the recorded [CondCount]. *)
Lemma do_condition_count_excludes_parent :
  ∃ v', visitS (counts_of 5 7) do_loop (setCount 5 init) = Some v'
        ∧ CountMap v' !! 48%N = Some 7
        ∧ add64 (add64 5 7) 0 = 12
        ∧ CountMap v' !! 48%N ≠ Some (add64 (add64 5 7) 0)
        ∧ CurrentCount v' = 5
        ∧ CurrentCount v' ≠ sub64 (add64 0 7) 7.
Proof. eexists. split; [reflexivity|]. by vm_compute. Qed.

(** Sums and differences modulo 2^64 may be regrouped. *)
Lemma do_exit_regroup Br P Bk C B :
  sub64 (add64 Br (add64 Bk C)) (sub64 B P)
  = sub64 (add64 Br (add64 (add64 P Bk) C)) B.
Proof.
  unfold sub64, add64, wrap64. generalize (2 ^ 64). intros m.
  repeat (rewrite ?Zplus_mod_idemp_l, ?Zplus_mod_idemp_r,
            ?Zminus_mod_idemp_l, ?Zminus_mod_idemp_r).
  f_equal. lia.
Qed.

(** C4, amended.  For every do statement, visited with the current count
    [FallThroughCount] and with [BodyCount] the raw counter of the loop: the
    count recorded for the condition is [BackedgeCount + BC.ContinueCount],
    without the count of the parent, which the raw counter of the body
    already includes; the exit count is [BC.BreakCount + CondCount -
    (BodyCount - FallThroughCount)].  That exit count is the value of
    [BreakCount + (Parent + Backedge + ContinueCount) - BodyCount] in 64-bit
    arithmetic. *)
Theorem visit_DoStatement_counts (PGO : CodeGenPGO.t) (S_ : ptr)
    (_body : option Statement) (condition : option Expression)
    (v vb : ComputeRegionCounts.t) :
  let FallThroughCount := CurrentCount v in
  let BodyCount := getRegionCount PGO S_ in
  recurse (visitS PGO) _body
    (set_CountMap (ptrS _body) BodyCount
       (setCount BodyCount (push_back (RecordStmtCount S_ v)))) = Some vb →
  ∃ BC below ve v',
    BreakContinueStack vb = below ++ [BC]
    ∧ length below = length (BreakContinueStack v)
    ∧ let BackedgeCount := CurrentCount vb in
      let CondCount := add64 BackedgeCount (ContinueCount BC) in
      let vc :=
        set_CountMap (ptrE condition) CondCount
          (setCount CondCount (set_BreakContinueStack below vb)) in
      CountMap vc !! ptrE condition = Some CondCount
      ∧ CurrentCount vc = CondCount
      ∧ recurse (visitE PGO) condition vc = Some ve
      ∧ visitS PGO (DoStatement S_ _body condition) v = Some v'
      ∧ CurrentCount v'
        = sub64 (add64 (BreakCount BC) CondCount)
            (sub64 BodyCount FallThroughCount)
      ∧ CurrentCount v'
        = sub64 (add64 (BreakCount BC)
                   (add64 (add64 FallThroughCount BackedgeCount)
                      (ContinueCount BC)))
            BodyCount
      ∧ RecordNextStmtCount v' = true
      ∧ CountMap v' = CountMap ve
      ∧ BreakContinueStack v' = below
      ∧ (distinct_nodes condition →
         CountMap v' !! ptrE condition = Some CondCount).
Proof.
  intros FallThroughCount BodyCount Hb.
  destruct (loop_frame PGO S_ _body _ _ v vb Hb) as (BC & below & Hstack & Hlen & Hpop).
  set (CondCount := add64 (CurrentCount vb) (ContinueCount BC)).
  set (vc := set_CountMap (ptrE condition) CondCount
               (setCount CondCount (set_BreakContinueStack below vb))).
  destruct (recurse_visitE_total PGO condition vc) as [ve He].
  exists BC, below, ve. eexists. split; [done|]. split; [done|]. cbv zeta.
  split; [apply lookup_insert_eq|]. split; [done|]. split; [exact He|]. split.
  - cbn [visitS]. rewrite CurrentCount_RecordStmtCount.
    fold BodyCount. rewrite Hb. cbn [mbind option_bind].
    rewrite Hpop. cbn [mbind option_bind].
    fold CondCount. fold vc. rewrite He. reflexivity.
  - split; [done|]. split; [apply do_exit_regroup|]. split; [done|].
    split; [done|]. split.
    + change (BreakContinueStack ve = below).
      destruct condition as [e|]; unfold recurse in He.
      * destruct (visitE_stack PGO e _ _ He) as [Hs _]. exact Hs.
      * by injection He as <-.
    + intros Hnd. change (CountMap ve !! ptrE condition = Some CondCount).
      apply (recurse_visitE_keeps PGO condition vc); try done.
      apply lookup_insert_eq.
Qed.

Lemma visit_DoStatement_counts_witness :
  ∃ v', visitS (counts_of 5 7) do_loop (setCount 5 init) = Some v'
        ∧ CountMap v' !! 48%N = Some 7
        ∧ CurrentCount v' = 5.
Proof.
  destruct (visit_DoStatement_counts (counts_of 5 7) 32
              (Some (CompoundStatement 64 [OtherStatement 80])) (Some (OtherExp 48 []))
              (setCount 5 init)
              (set_CountMap 64 7 (setCount 7 (push_back (setCount 5 init)))))
    as (BC & below & ve & v' & Hstack & _ & _ & _ & He & Hv' & Hc & _ & _ & Hm & _).
  - reflexivity.
  - apply (app_inj_tail [] below _ BC) in Hstack as [<- <-].
    injection He as <-.
    exists v'. split; [exact Hv'|]. split.
    + rewrite Hm. reflexivity.
    + rewrite Hc. reflexivity.
Defined.

(** *** The branches *)

(** C2.  For every if statement visited with the current count [P] whose
    raw counter is [T] with [0 <= T <= P]: the visit of the condition
    returns; the count [T] is recorded for the then branch and is the
    current count when that branch is visited; with an else branch, the
    count [P - T] is recorded for it and is the current count when it is
    visited, and the visit of the statement ends with the current count
    [thenExit + elseExit]; without an else branch it ends with
    [thenExit + (P - T)]; the sums are 64-bit.  The counts recorded for the
    branches are still in the map at the end of the visit, for a branch
    that is not itself a label, case or default statement (these replace
    the count by their own counter) and whose address is not among the
    other keys written.  For an if statement without
    else whose then branch runs straight through, [P = 100] and [T = 60]:
    60 is recorded for the then branch, the count of the absent else branch
    is 40 and the exit count is 60 + 40 = 100. *)
Theorem visit_IfStatement_counts (PGO : CodeGenPGO.t) (S_ : ptr)
    (condition : option Expression) (ifbody elsebody : option Statement)
    (v : ComputeRegionCounts.t) :
  let P := CurrentCount v in
  let T := getRegionCount PGO S_ in
  0 <= T <= P → P < 2 ^ 64 →
  (∃ vc,
     recurse (visitE PGO) condition (RecordStmtCount S_ v) = Some vc
     ∧ let vthen := set_CountMap (ptrS ifbody) T (setCount T vc) in
       CountMap vthen !! ptrS ifbody = Some T
       ∧ CurrentCount vthen = T
       ∧ ∀ vt, recurse (visitS PGO) ifbody vthen = Some vt →
           let thenExit := CurrentCount vt in
           match elsebody with
           | Some e =>
               let velse := set_CountMap (addrS e) (P - T) (setCount (P - T) vt) in
               CountMap velse !! addrS e = Some (P - T)
               ∧ CurrentCount velse = P - T
               ∧ ∀ ve, visitS PGO e velse = Some ve →
                   ∃ v', visitS PGO (IfStatement S_ condition ifbody elsebody) v
                           = Some v'
                         ∧ CurrentCount v' = add64 thenExit (CurrentCount ve)
                         ∧ RecordNextStmtCount v' = true
                         ∧ CountMap v' = CountMap ve
                         ∧ (keeps_count ifbody → ptrS ifbody ∉ keysS e →
                            CountMap v' !! ptrS ifbody = Some T)
                         ∧ (keeps_count elsebody →
                            CountMap v' !! addrS e = Some (P - T))
           | None =>
               ∃ v', visitS PGO (IfStatement S_ condition ifbody elsebody) v
                       = Some v'
                     ∧ CurrentCount v' = add64 thenExit (P - T)
                     ∧ RecordNextStmtCount v' = true
                     ∧ CountMap v' = CountMap vt
                     ∧ (keeps_count ifbody →
                        CountMap v' !! ptrS ifbody = Some T)
           end)
  ∧ (let v100 := setCount 100 init in
     ∃ v', visitS (counts_of 100 60) if_statement v100 = Some v'
           ∧ CountMap v' !! 64%N = Some 60
           ∧ sub64 (CurrentCount v100) (getRegionCount (counts_of 100 60) 32) = 40
           ∧ CurrentCount v' = 100).
Proof.
  intros P T HT HP.
  assert (Hsub : sub64 P T = P - T) by (apply sub64_exact; unfold u64; lia).
  split.
  - destruct (recurse_visitE_total PGO condition (RecordStmtCount S_ v)) as [vc Hc].
    exists vc. split; [exact Hc|]. cbv zeta.
    split; [apply lookup_insert_eq|]. split; [done|].
    intros vt Ht.
    assert (Hthen : keeps_count ifbody → CountMap vt !! ptrS ifbody = Some T).
    { intros Hkeep.
      apply (recurse_visitS_keeps PGO ifbody
               (set_CountMap (ptrS ifbody) T (setCount T vc))); try done.
      apply lookup_insert_eq. }
    destruct elsebody as [e|].
    + split; [apply lookup_insert_eq|]. split; [done|].
      intros ve He. eexists. split.
      * cbn [visitS]. rewrite CurrentCount_RecordStmtCount. rewrite Hc.
        cbn [mbind option_bind]. fold T. rewrite Ht.
        cbn [mbind option_bind]. fold P. rewrite Hsub, He. reflexivity.
      * split; [done|]. split; [done|]. split; [done|]. split.
        -- intros Hkeep Hnotin.
           change (CountMap ve !! ptrS ifbody = Some T).
           rewrite (visitS_frame PGO e _ _ (ptrS ifbody) He Hnotin).
           unfold set_CountMap, setCount. simpl.
           rewrite lookup_insert_ne; [by apply Hthen|].
           intros Heq. apply Hnotin. rewrite <- Heq. apply addrS_keysS.
        -- intros [Hown Hk]. change (CountMap ve !! addrS e = Some (P - T)).
           apply (visitS_keeps PGO e _ _ _ He); try done.
           apply lookup_insert_eq.
    + eexists. split.
      * cbn [visitS]. rewrite CurrentCount_RecordStmtCount. rewrite Hc.
        cbn [mbind option_bind]. fold T. rewrite Ht.
        cbn [mbind option_bind]. fold P. rewrite Hsub. reflexivity.
      * split; [done|]. split; [done|]. split; [done|]. exact Hthen.
  - eexists. split; [reflexivity|]. by vm_compute.
Qed.

Lemma visit_IfStatement_counts_witness :
  ∃ v', visitS (counts_of 100 60) if_statement (setCount 100 init) = Some v'
        ∧ CurrentCount v' = add64 60 (100 - 60).
Proof.
  destruct (visit_IfStatement_counts (counts_of 100 60) 32
              (Some (OtherExp 48 []))
              (Some (CompoundStatement 64 [OtherStatement 80; OtherStatement 96]))
              None (setCount 100 init))
    as ((vc & Hvc & _ & _ & Hv) & _).
  - vm_compute. split; discriminate.
  - reflexivity.
  - injection Hvc as <-.
    destruct (Hv _ eq_refl) as (v' & Hv' & Hc & _).
    exists v'. split; [exact Hv'|exact Hc].
Defined.

End Counting.

(** ** The passes at work *)

Section MappingExample.
Import PGOHash MapRegionCounters.

(** The mapping pass numbers the nodes in the order of the walk; the case
    statement that is the target of a goto has a second counter at the next
    address; the ten tokens fit one word, which is the hash. *)
Example mapRegionCounters_sample :
  let v := walk (Tr (FuncDeclaration 16) (try_function ++ switch_function)) init in
  CounterMap v
    = {[ 16%N := 0; 32%N := 1; 48%N := 2; 64%N := 3; 80%N := 4; 96%N := 5;
         112%N := 6; 128%N := 7; 129%N := 8; 144%N := 9; 160%N := 10 ]}
  ∧ NextCounter v = 11
  ∧ finalize no_digest (Hash v)
    = pack [TryCatchStmt; TryCatchCatch; TryCatchCatch; IfStmt; WhileStmt;
            SwitchStmt; CaseStmt; CaseGoto; IfStmt; DefaultStmt].
Proof. vm_compute. repeat split. Qed.

End MappingExample.

Section CountingExample.
Import CodeGenPGO ComputeRegionCounts.

(** The counting pass on the loop with a break and a continue: 3 of the
    50 iterations break, 7 continue, 40 reach the end of the body; the
    condition is evaluated 10 + 40 + 7 = 57 times and the loop is left
    3 + 57 - 50 = 10 times. *)
Example visit_loop_with_jumps :
  ∃ v', visitS jumps_profile loop_with_jumps (setCount 10 init) = Some v'
        ∧ CountMap v'
          = {[ 64%N := 50; 112%N := 3; 128%N := 47; 160%N := 7; 176%N := 40;
               48%N := 57 ]}
        ∧ CurrentCount v' = 10
        ∧ BreakContinueStack v' = [].
Proof. eexists. split; [vm_compute; reflexivity|]. vm_compute. repeat split. Qed.

(** A label that is the then branch of an if statement has the address
    the count of the branch is recorded at; its visit replaces that count,
    60, by the raw counter of the label, 75, which also flows out of the
    branch. *)
Example visit_if_label :
  ∃ v', visitS label_profile if_label (setCount 100 init) = Some v'
        ∧ CountMap v' !! 64%N = Some 75
        ∧ CurrentCount v' = 75 + 40.
Proof. eexists. split; [vm_compute; reflexivity|]. vm_compute. repeat split. Qed.

(** The pass returns for every function body without labelled or stray
    break and continue statements. *)
Lemma computeRegionCounts_returns (FD : FuncDeclaration) (pgo : CodeGenPGO.t) :
  from_option (safe false) true (fbody FD) = true →
  ∃ pgo', computeRegionCounts FD pgo = Some pgo'
          ∧ is_Some (StmtCountMap pgo')
          ∧ RegionCounts pgo' = RegionCounts pgo.
Proof.
  intros Hsafe. unfold computeRegionCounts, visitFuncDeclaration.
  destruct (fbody FD) as [s|]; simpl in *.
  - match goal with
    | |- context [visitS pgo s ?w] =>
        destruct (visitS_returns pgo s false w Hsafe) as [v' ->]; [done|]
    end.
    simpl. eauto.
  - eauto.
Qed.

End CountingExample.

(* ===================================================================== *)
(** * Further properties                                                   *)
(* ===================================================================== *)

(** ** The weights of more than two branches *)

Section WeightsArrayProperties.
Import CodeGenPGO.

Lemma max_element_upper Weights :
  Forall (λ W, W <= WeightsArray.max_element Weights) Weights.
Proof.
  destruct Weights as [|W Ws]; [constructor|]. simpl.
  assert (Hge : ∀ Ws a, a <= foldl Z.max a Ws
                        ∧ Forall (λ W, W <= foldl Z.max a Ws) Ws).
  { clear. induction Ws as [|x Ws IH]; intros a; simpl; [split; [lia|constructor]|].
    destruct (IH (Z.max a x)) as [H1 H2]. split; [lia|].
    constructor; [lia|exact H2]. }
  destruct (Hge Ws W) as [H1 H2]. by constructor.
Qed.

Lemma max_element_elem Weights :
  Weights ≠ [] → WeightsArray.max_element Weights ∈ Weights.
Proof.
  destruct Weights as [|W Ws]; [done|]. intros _. simpl.
  assert (Hin : ∀ Ws a, foldl Z.max a Ws = a ∨ foldl Z.max a Ws ∈ Ws).
  { clear. induction Ws as [|x Ws IH]; intros a; simpl; [by left|].
    destruct (IH (Z.max a x)) as [->| Hin].
    - destruct (Z.max_spec a x) as [[_ ->]|[_ ->]]; [right; by left|by left].
    - right. by right. }
  destruct (Hin Ws W) as [->|Hin']; [by left|by right].
Qed.

Lemma max_element_zero Weights :
  Forall u64 Weights → Weights ≠ [] →
  WeightsArray.max_element Weights = 0 ↔ Forall (λ W, W = 0) Weights.
Proof.
  intros Hu Hne. pose proof (max_element_upper Weights) as Hup.
  pose proof (max_element_elem Weights Hne) as Hin. split.
  - intros H0. rewrite H0 in Hup. rewrite Forall_forall in *.
    intros W HW. specialize (Hup W HW). specialize (Hu W HW). unfold u64 in Hu. lia.
  - intros Hall. rewrite Forall_forall in Hall. by apply Hall.
Qed.

Lemma mapM_scaleBranchWeight Weights m :
  u64 m → Forall (λ W, 0 <= W <= m) Weights →
  mapM (λ W, scaleBranchWeight W (calculateWeightScale m)) Weights
  = Some (map (λ W, W / weight_scale m + 1) Weights).
Proof.
  intros Hm Hall. apply mapM_Some. apply Forall2_fmap_r, Forall_Forall2_diag.
  eapply Forall_impl; [exact Hall|]. intros W HW. simpl.
  by apply scaleBranchWeight_ok.
Qed.

(** The weights of an array that has two counts or more, not all zero. *)
Lemma createProfileWeights_array_long Weights :
  Forall u64 Weights → (2 ≤ length Weights)%nat → ¬ Forall (λ W, W = 0) Weights →
  WeightsArray.max_element Weights ∈ Weights
  ∧ u64 (WeightsArray.max_element Weights)
  ∧ WeightsArray.createProfileWeights Weights
    = Some (BranchWeights
              (map (λ W, W / weight_scale (WeightsArray.max_element Weights) + 1)
                 Weights)).
Proof.
  intros Hu Hlen Hnz. set (MaxWeight := WeightsArray.max_element Weights).
  pose proof (max_element_upper Weights) as Hup. fold MaxWeight in Hup.
  assert (Hne : Weights ≠ []) by (intros ->; simpl in Hlen; lia).
  pose proof (max_element_elem Weights Hne) as Hin. fold MaxWeight in Hin.
  assert (HuM : u64 MaxWeight) by (rewrite Forall_forall in Hu; by apply Hu).
  split; [done|]. split; [done|].
  unfold WeightsArray.createProfileWeights. fold MaxWeight.
  destruct (Z.of_nat (length Weights) <? 2) eqn:E; [apply Z.ltb_lt in E; lia|].
  destruct (MaxWeight =? 0) eqn:E0.
  { apply Z.eqb_eq in E0. by apply (max_element_zero Weights Hu Hne) in E0. }
  rewrite (mapM_scaleBranchWeight Weights MaxWeight HuM); [done|].
  rewrite Forall_forall in *. intros W HW.
  specialize (Hu W HW). specialize (Hup W HW). unfold u64 in Hu. lia.
Qed.

(** The array has no weights when it is short or all zero. *)
Lemma createProfileWeights_array_null Weights :
  Forall u64 Weights → (length Weights < 2)%nat ∨ Forall (λ W, W = 0) Weights →
  WeightsArray.createProfileWeights Weights = Some null.
Proof.
  intros Hu. unfold WeightsArray.createProfileWeights. intros [Hlen|Hall].
  - destruct (Z.of_nat (length Weights) <? 2) eqn:E; [done|].
    apply Z.ltb_ge in E. lia.
  - destruct (Z.of_nat (length Weights) <? 2) eqn:E; [done|].
    assert (Hne : Weights ≠ []).
    { intros ->. apply Z.ltb_ge in E. simpl in E. lia. }
    apply (max_element_zero Weights Hu Hne) in Hall. rewrite Hall. done.
Qed.

(** X1.  [createProfileWeights] on an array of 64-bit counts returns no
    weights exactly when the array has fewer than two counts or every count
    is zero.  Otherwise, with the scale of the largest count, it returns one
    weight per count, in order, each count/scale + 1; every weight lies
    between 1 and 2^32 - 1, so that no assertion of [scaleBranchWeight]
    fails. *)
Theorem createProfileWeights_array_spec (Weights : list Z) :
  Forall u64 Weights →
  let MaxWeight := WeightsArray.max_element Weights in
  (WeightsArray.createProfileWeights Weights = Some null
     ↔ (length Weights < 2)%nat ∨ Forall (λ W, W = 0) Weights)
  ∧ ((2 ≤ length Weights)%nat → ¬ Forall (λ W, W = 0) Weights →
     MaxWeight ∈ Weights
     ∧ Forall (λ W, W <= MaxWeight) Weights
     ∧ calculateWeightScale MaxWeight = weight_scale MaxWeight
     ∧ WeightsArray.createProfileWeights Weights
       = Some (BranchWeights (map (λ W, W / weight_scale MaxWeight + 1) Weights))
     ∧ Forall (λ W, 1 <= W / weight_scale MaxWeight + 1 < 2 ^ 32) Weights).
Proof.
  intros Hu MaxWeight.
  pose proof (max_element_upper Weights) as Hup. fold MaxWeight in Hup.
  pose proof (createProfileWeights_array_long Weights Hu) as Hlong.
  fold MaxWeight in Hlong.
  split.
  - split; [|by apply createProfileWeights_array_null].
    intros Hnull.
    destruct (decide (length Weights < 2)%nat) as [|Hlen]; [by left|].
    destruct (decide (Forall (λ W, W = 0) Weights)) as [|Hnz]; [by right|].
    destruct (Hlong ltac:(lia) Hnz) as (_ & _ & Hw). rewrite Hw in Hnull. discriminate.
  - intros Hlen Hnz. destruct (Hlong Hlen Hnz) as (Hin & HuM & Hw).
    split; [done|]. split; [done|].
    split; [by apply calculateWeightScale_scale|]. split; [done|].
    rewrite Forall_forall in *. intros W HW.
    specialize (Hu W HW). specialize (Hup W HW). unfold u64 in Hu.
    pose proof (scaled_bound W MaxWeight ltac:(lia)) as Hb. unfold UINT32_MAX in Hb.
    pose proof (weight_scale_pos MaxWeight ltac:(unfold u64 in HuM; lia)) as Hpos.
    assert (0 <= W / weight_scale MaxWeight) by (apply Z.div_pos; lia).
    lia.
Qed.

Lemma createProfileWeights_array_spec_witness :
  WeightsArray.createProfileWeights [2 ^ 40; 7; 0]
  = Some (BranchWeights [4278255361; 1; 1]).
Proof.
  assert (Hu : Forall u64 [2 ^ 40; 7; 0]).
  { repeat constructor; unfold u64; lia. }
  destruct (createProfileWeights_array_spec [2 ^ 40; 7; 0] Hu) as [_ H].
  destruct H as (_ & _ & _ & Hw & _).
  - simpl. lia.
  - intros Hall. apply Forall_cons in Hall as [Hz _]. vm_compute in Hz. discriminate.
  - rewrite Hw. vm_compute. reflexivity.
Defined.

(** X2.  On an array of two 64-bit counts, the overload for arrays returns
    what the overload for a true count and a false count returns. *)
Theorem createProfileWeights_array_pair (TrueCount FalseCount : Z) :
  u64 TrueCount → u64 FalseCount →
  WeightsArray.createProfileWeights [TrueCount; FalseCount]
  = createProfileWeights TrueCount FalseCount.
Proof.
  intros HT HF.
  assert (Hmax : WeightsArray.max_element [TrueCount; FalseCount]
                 = Z.max TrueCount FalseCount) by done.
  destruct (decide (TrueCount = 0 ∧ FalseCount = 0)) as [[-> ->]|Hnz]; [done|].
  rewrite (createProfileWeights_nonzero _ _ HT HF Hnz).
  unfold WeightsArray.createProfileWeights. rewrite Hmax.
  change (Z.of_nat (length [TrueCount; FalseCount]) <? 2) with false. cbv iota.
  destruct (Z.max TrueCount FalseCount =? 0) eqn:E.
  { apply Z.eqb_eq in E. unfold u64 in *. destruct Hnz. lia. }
  rewrite (mapM_scaleBranchWeight _ (Z.max TrueCount FalseCount)); [done| |].
  - unfold u64 in *. lia.
  - unfold u64 in *. repeat constructor; lia.
Qed.

Lemma createProfileWeights_array_pair_witness :
  WeightsArray.createProfileWeights [3; 0] = Some (BranchWeights [4; 1]).
Proof.
  rewrite (createProfileWeights_array_pair 3 0); [reflexivity| |]; unfold u64; lia.
Defined.

(** X3.  Scaling keeps the order of the counts: in the weights that
    [createProfileWeights] returns for an array of 64-bit counts, a count
    that is no larger than another has a weight that is no larger. *)
Theorem createProfileWeights_array_monotone (Weights ws : list Z) (i j : nat)
    (a b a' b' : Z) :
  Forall u64 Weights →
  WeightsArray.createProfileWeights Weights = Some (BranchWeights ws) →
  Weights !! i = Some a → Weights !! j = Some b →
  ws !! i = Some a' → ws !! j = Some b' →
  a <= b → a' <= b'.
Proof.
  intros Hu Hw Ha Hb Ha' Hb' Hab.
  destruct (decide ((length Weights < 2)%nat ∨ Forall (λ W, W = 0) Weights))
    as [Hnull|Hlong].
  { rewrite (createProfileWeights_array_null Weights Hu Hnull) in Hw. discriminate. }
  destruct (createProfileWeights_array_long Weights Hu) as (_ & HuM & Hws).
  { destruct (decide (2 ≤ length Weights)%nat); [done|]. destruct Hlong. left. lia. }
  { intros Hall. destruct Hlong. by right. }
  rewrite Hws in Hw. injection Hw as <-.
  rewrite list_lookup_fmap, Ha in Ha'. rewrite list_lookup_fmap, Hb in Hb'.
  simpl in Ha', Hb'. injection Ha' as <-. injection Hb' as <-.
  pose proof (weight_scale_pos (WeightsArray.max_element Weights)
                ltac:(unfold u64 in HuM; lia)) as Hpos.
  assert (a / weight_scale (WeightsArray.max_element Weights)
          <= b / weight_scale (WeightsArray.max_element Weights)); [|lia].
  apply Z.div_le_mono; lia.
Qed.

Lemma createProfileWeights_array_monotone_witness :
  WeightsArray.createProfileWeights [2 ^ 40; 7; 2 ^ 33]
  = Some (BranchWeights [4278255361; 1; 33423871]) ∧ 1 <= 33423871.
Proof.
  assert (Hu : Forall u64 [2 ^ 40; 7; 2 ^ 33]).
  { repeat constructor; unfold u64; lia. }
  assert (Hw : WeightsArray.createProfileWeights [2 ^ 40; 7; 2 ^ 33]
               = Some (BranchWeights [4278255361; 1; 33423871]))
    by (vm_compute; reflexivity).
  split; [exact Hw|].
  apply (createProfileWeights_array_monotone [2 ^ 40; 7; 2 ^ 33]
           [4278255361; 1; 33423871] 1 2 7 (2 ^ 33) 1 33423871 Hu Hw);
    (reflexivity || lia).
Defined.

End WeightsArrayProperties.

(** ** Loading the raw counts, again *)

Section LoadingProperties.
Import CodeGenPGO.

(** X4.  When the reader answers with success, [loadRegionCounts] leaves in
    [RegionCounts] the counts the reader wrote and nothing else of the
    object changes; no warning is issued, and the only output is the line
    for the logger, when logging is on.  Region counts are then available
    exactly when the reader wrote at least one count. *)
Theorem loadRegionCounts_success (logging : bool)
    (PGOReader : IndexedInstrProfReader) (pretty : string) (pgo : CodeGenPGO.t)
    (Counts : list Z) :
  PGOReader (FuncName pgo) (FunctionHash pgo) = (success, Counts) →
  let result := loadRegionCounts logging PGOReader pretty pgo in
  result.1 = set_RegionCounts Counts pgo
  ∧ RegionCounts result.1 = Counts
  ∧ warnings result.2 = []
  ∧ result.2
    = (if logging
       then [LogLine ("Loaded profile counts for function: " +:+ FuncName pgo)]
       else [])
  ∧ (haveRegionCounts result.1 = true ↔ Counts ≠ []).
Proof.
  intros Hread result. subst result. unfold loadRegionCounts.
  change (FuncName (set_RegionCounts [] pgo)) with (FuncName pgo).
  change (FunctionHash (set_RegionCounts [] pgo)) with (FunctionHash pgo).
  rewrite Hread. simpl.
  split; [done|]. split; [done|]. split; [by destruct logging|].
  split; [by destruct logging|].
  unfold haveRegionCounts. simpl. by destruct Counts.
Qed.

Lemma loadRegionCounts_success_witness :
  RegionCounts
    (loadRegionCounts false (λ _ _, (success, [4; 5])) "m.foo" foo_profile).1
  = [4; 5].
Proof.
  by destruct (loadRegionCounts_success false (λ _ _, (success, [4; 5])) "m.foo"
                 foo_profile [4; 5] eq_refl) as (_ & H & _).
Defined.

(** X5.  The counts an object holds before [loadRegionCounts] have no
    effect on its result, and loading a second time from the same reader
    gives the object and the output of the first time: counts of an earlier
    load never survive. *)
Theorem loadRegionCounts_reload (logging : bool)
    (PGOReader : IndexedInstrProfReader) (pretty : string) (pgo : CodeGenPGO.t)
    (stale : list Z) :
  loadRegionCounts logging PGOReader pretty (set_RegionCounts stale pgo)
  = loadRegionCounts logging PGOReader pretty pgo
  ∧ loadRegionCounts logging PGOReader pretty
      (loadRegionCounts logging PGOReader pretty pgo).1
    = loadRegionCounts logging PGOReader pretty pgo.
Proof.
  assert (Hstale : ∀ cs,
            loadRegionCounts logging PGOReader pretty (set_RegionCounts cs pgo)
            = loadRegionCounts logging PGOReader pretty pgo).
  { intros cs. unfold loadRegionCounts.
    change (set_RegionCounts [] (set_RegionCounts cs pgo))
      with (set_RegionCounts [] pgo). done. }
  split; [apply Hstale|].
  assert (Hfst : ∃ cs, (loadRegionCounts logging PGOReader pretty pgo).1
                       = set_RegionCounts cs pgo).
  { unfold loadRegionCounts.
    change (FuncName (set_RegionCounts [] pgo)) with (FuncName pgo).
    change (FunctionHash (set_RegionCounts [] pgo)) with (FunctionHash pgo).
    destruct (PGOReader (FuncName pgo) (FunctionHash pgo)) as [EC Counts].
    destruct EC; simpl; eauto. }
  destruct Hfst as [cs ->]. apply Hstale.
Qed.

End LoadingProperties.

(** ** The structural hash, again *)

Section HashingProperties.
Import PGOHash.

Lemma value_inj ty1 ty2 : value ty1 = value ty2 → ty1 = ty2.
Proof. destruct ty1, ty2; simpl; intros H; (reflexivity || discriminate H). Qed.

(** Packed sequences of valid tokens are numerals in base 64 without the
    digit 0: the number determines the sequence. *)
Lemma pack_inj tys1 :
  ∀ tys2, Forall (λ ty, valid ty = true) tys1 → Forall (λ ty, valid ty = true) tys2 →
          pack tys1 = pack tys2 → tys1 = tys2.
Proof.
  induction tys1 as [|x xs IH] using rev_ind; intros tys2 H1 H2 Heq.
  - destruct tys2 as [|y ys _] using rev_ind; [done|].
    apply Forall_app in H2 as [Hys Hy]. apply Forall_singleton, valid_range in Hy.
    pose proof (pack_bound ys Hys). rewrite pack_snoc in Heq.
    change (pack []) with 0 in Heq. lia.
  - apply Forall_app in H1 as [Hxs Hx]. apply Forall_singleton, valid_range in Hx.
    pose proof (pack_bound xs Hxs). rewrite pack_snoc in Heq.
    destruct tys2 as [|y ys _] using rev_ind.
    { change (pack []) with 0 in Heq. lia. }
    apply Forall_app in H2 as [Hys Hy]. apply Forall_singleton, valid_range in Hy.
    pose proof (pack_bound ys Hys). rewrite pack_snoc in Heq.
    assert (value x = value y ∧ pack xs = pack ys) as [Hv Hp] by lia.
    apply value_inj in Hv as ->. by rewrite (IH ys Hxs Hys Hp).
Qed.

(** X6.  Two sequences of at most ten valid tokens that have the same
    hash are the same sequence: up to ten tokens the hash loses nothing,
    whatever the digest function. *)
Theorem finalize_short_injective (MD5_final : list Z → list Z)
    (tys1 tys2 : list HashType) :
  Forall (λ ty, valid ty = true) tys1 → Forall (λ ty, valid ty = true) tys2 →
  (length tys1 <= 10)%nat → (length tys2 <= 10)%nat →
  finalize MD5_final (combine_all init tys1)
  = finalize MD5_final (combine_all init tys2) →
  tys1 = tys2.
Proof.
  intros H1 H2 L1 L2 Heq.
  destruct (finalize_short MD5_final tys1 H1 L1) as [E1 _].
  destruct (finalize_short MD5_final tys2 H2 L2) as [E2 _].
  rewrite E1, E2 in Heq. by apply pack_inj.
Qed.

Lemma finalize_short_injective_witness :
  finalize no_digest (combine_all init [IfStmt; WhileStmt])
  ≠ finalize no_digest (combine_all init [WhileStmt; IfStmt]).
Proof.
  intros Heq.
  apply (finalize_short_injective no_digest [IfStmt; WhileStmt] [WhileStmt; IfStmt])
    in Heq; [discriminate Heq| | |simpl; lia|simpl; lia];
    repeat constructor.
Defined.

(** One more word of tokens, combined into a hasher that holds a full
    word: the full word goes to MD5, least significant byte first, and the
    new tokens are packed from an empty word. *)
Lemma combine_all_word h w :
  Forall (λ ty, valid ty = true) w → (1 <= length w <= 10)%nat →
  0 < Count h → Count h mod 10 = 0 → Count h + Z.of_nat (length w) < 2 ^ 32 →
  combine_all h w
  = {| Working := pack w; Count := Count h + Z.of_nat (length w);
       MD5 := PGOHash.MD5 h ++ little_bytes (Working h) |}.
Proof.
  induction w as [|ty w IH] using rev_ind; intros Hall Hlen Hpos Hmod Hwrap.
  { simpl in Hlen. lia. }
  rewrite length_app in Hlen, Hwrap. simpl in Hlen, Hwrap.
  apply Forall_app in Hall as [Hall Hty]. apply Forall_singleton, valid_range in Hty.
  rewrite combine_all_snoc, pack_snoc, length_app. simpl length.
  destruct (decide (w = [])) as [->|Hne].
  - (* the first token of the word *)
    simpl combine_all. unfold combine.
    change NumTypesPerWord with 10. rewrite Hmod.
    destruct (Count h =? 0) eqn:E0; [apply Z.eqb_eq in E0; lia|].
    cbn [negb andb Count Working PGOHash.MD5]. rewrite Z.eqb_refl.
    cbn [Count Working PGOHash.MD5]. f_equal.
    unfold wrap32. rewrite Z.mod_small; simpl length; lia.
  - assert (Hlw : (1 <= length w)%nat) by (destruct w; [done|simpl; lia]).
    rewrite IH by (done || lia).
    pose proof (pack_bound w Hall) as Hb.
    unfold combine. cbn [Count Working PGOHash.MD5].
    assert (Hnofold : negb (Count h + Z.of_nat (length w) =? 0)
                      && ((Count h + Z.of_nat (length w)) mod NumTypesPerWord =? 0)
                      = false).
    { change NumTypesPerWord with 10. apply andb_false_iff. right.
      apply Z.eqb_neq.
      rewrite <- Zplus_mod_idemp_l, Hmod, Z.add_0_l.
      rewrite Z.mod_small by lia. lia. }
    rewrite Hnofold. cbn [Count Working PGOHash.MD5].
    assert (Hpow : 2 ^ (6 * Z.of_nat (length w)) <= 2 ^ 54)
      by (apply Z.pow_le_mono_r; lia).
    f_equal.
    + change NumBitsPerType with 6.
      unfold wrap64. rewrite Z.mod_small.
      * apply shift_or_token; lia.
      * rewrite Z.shiftl_mul_pow2 by lia. lia.
    + unfold wrap32. rewrite Z.mod_small; lia.
Qed.

(** The hasher after any number of full words and one last word. *)
Lemma combine_all_words ws :
  ∀ w, Forall (λ x, length x = 10%nat ∧ Forall (λ ty, valid ty = true) x) ws →
       Forall (λ ty, valid ty = true) w → (1 <= length w <= 10)%nat →
       10 * Z.of_nat (length ws) + Z.of_nat (length w) < 2 ^ 32 →
       combine_all init (concat ws ++ w)
       = {| Working := pack w;
            Count := 10 * Z.of_nat (length ws) + Z.of_nat (length w);
            MD5 := ws ≫= (λ x, little_bytes (pack x)) |}.
Proof.
  induction ws as [|x ws IH] using rev_ind; intros w Hws Hw Hlen Hwrap.
  { simpl. rewrite combine_all_short by (done || lia). done. }
  apply Forall_app in Hws as [Hws Hx]. apply Forall_singleton in Hx as [Hlx Hvx].
  rewrite length_app in Hwrap. simpl length in Hwrap.
  rewrite concat_app. simpl concat. rewrite app_nil_r.
  unfold combine_all in *. rewrite foldl_app.
  rewrite (IH x Hws Hvx) by lia. fold (combine_all).
  change (foldl combine ?h w) with (combine_all h w).
  rewrite combine_all_word; cbn [Count Working PGOHash.MD5]; try done; try lia.
  - rewrite length_app. simpl length. f_equal; [lia|].
    rewrite bind_app. f_equal.
  - rewrite Hlx. rewrite <- Zplus_mod_idemp_l, Z.mul_comm, Z_mod_mult. done.
Qed.

(** X7.  The hash of a sequence of more than ten valid tokens, cut into
    full words of ten tokens and a last word of one to ten tokens: every
    full word has gone to MD5 as eight bytes, least significant first; the
    last word goes to MD5 as one byte, its lowest eight bits; the hash is
    the first eight bytes of the digest, read least significant first.
    The number of tokens is counted without wrapping around. *)
Theorem finalize_words (MD5_final : list Z → list Z)
    (ws : list (list HashType)) (w : list HashType) :
  Forall (λ x, length x = 10%nat ∧ Forall (λ ty, valid ty = true) x) ws →
  Forall (λ ty, valid ty = true) w → (1 <= length w <= 10)%nat →
  ws ≠ [] →
  10 * Z.of_nat (length ws) + Z.of_nat (length w) < 2 ^ 32 →
  Count (combine_all init (concat ws ++ w)) = Z.of_nat (length (concat ws ++ w))
  ∧ PGOHash.MD5 (combine_all init (concat ws ++ w))
    = ws ≫= (λ x, little_bytes (pack x))
  ∧ finalize MD5_final (combine_all init (concat ws ++ w))
    = read_little
        (MD5_final ((ws ≫= (λ x, little_bytes (pack x))) ++ [pack w mod 2 ^ 8])).
Proof.
  intros Hws Hw Hlen Hne Hwrap.
  rewrite combine_all_words by done. cbn [Count PGOHash.MD5].
  assert (Hcat : length (concat ws) = (10 * length ws)%nat).
  { clear -Hws. induction ws as [|x ws IH]; [done|].
    apply Forall_cons in Hws as [[Hx _] Hws]. simpl.
    rewrite length_app, Hx, IH by done. lia. }
  split; [rewrite length_app, Hcat; lia|]. split; [done|].
  unfold finalize. cbn [Count Working PGOHash.MD5].
  change NumTypesPerWord with 10.
  assert (Hl : (1 <= length ws)%nat) by (destruct ws; [done|simpl; lia]).
  destruct (10 * Z.of_nat (length ws) + Z.of_nat (length w) <=? 10) eqn:E;
    [apply Z.leb_le in E; lia|].
  assert (Hpos : 0 < pack w).
  { destruct w as [|ty w' _] using rev_ind; [simpl in Hlen; lia|].
    apply Forall_app in Hw as [Hw' Hty]. apply Forall_singleton, valid_range in Hty.
    pose proof (pack_bound w' Hw'). rewrite pack_snoc. lia. }
  destruct (pack w =? 0) eqn:E0; [apply Z.eqb_eq in E0; lia|]. done.
Qed.

Lemma finalize_words_witness :
  finalize no_digest (combine_all init tokens_label)
  = read_little
      (no_digest (little_bytes (pack (replicate 10 IfStmt)) ++ [75])).
Proof.
  destruct (finalize_words no_digest [replicate 10 IfStmt] [LabelStmt; IfStmt])
    as (_ & _ & H).
  - repeat constructor.
  - repeat constructor.
  - simpl. lia.
  - done.
  - simpl. lia.
  - exact H.
Defined.

End HashingProperties.

(** ** The mapping pass, again *)

Section MappingProperties.
Import PGOHash MapRegionCounters.

Lemma wrap32_small z : 0 <= z < 2 ^ 32 → wrap32 z = z.
Proof. intros H. unfold wrap32. apply Z.mod_small. lia. Qed.

Lemma SKIP_VISITED_present stmt v rest :
  is_Some (CounterMap v !! stmt) → SKIP_VISITED stmt v rest = v.
Proof. intros H. unfold SKIP_VISITED. by case_decide. Qed.

Lemma SKIP_VISITED_absent stmt v rest :
  CounterMap v !! stmt = None → SKIP_VISITED stmt v rest = rest v.
Proof.
  intros H. unfold SKIP_VISITED. case_decide as Hs; [|done].
  rewrite H in Hs. by destruct Hs.
Qed.

(** The loop over the catch clauses keeps every key of the map. *)
Lemma catches_keep cs :
  ∀ v k, is_Some (CounterMap v !! k) →
         is_Some (CounterMap (foldl (λ v c, hash TryCatchCatch (assign c v)) v cs) !! k).
Proof.
  induction cs as [|c cs IH]; intros v k Hk; [done|]. simpl.
  apply IH. simpl. by apply is_Some_insert_mono.
Qed.

(** *** A node is counted once *)

(** X8.  Visiting a statement or an expression a second time changes
    nothing: whatever the state of the pass, the visit of a node other than
    a function declaration leaves the node with a counter or is a visit that
    does nothing, so the next visit of the same node is skipped.  A node
    that the tree reaches twice is counted once. *)
Theorem visit_twice (n : Node) (v : MapRegionCounters.t) :
  (∀ fbody, n ≠ FuncDeclaration fbody) →
  visit n (visit n v) = visit n v.
Proof.
  intros Hn.
  assert (Hskip : ∀ stmt (rest : MapRegionCounters.t → MapRegionCounters.t),
            (∀ w, is_Some (CounterMap (rest w) !! stmt)) →
            ∀ rest', SKIP_VISITED stmt (SKIP_VISITED stmt v rest) rest'
                     = SKIP_VISITED stmt v rest).
  { intros stmt rest Hrest rest'.
    destruct (CounterMap v !! stmt) as [i|] eqn:Hv.
    - rewrite (SKIP_VISITED_present stmt v rest) by eauto.
      apply SKIP_VISITED_present. eauto.
    - rewrite (SKIP_VISITED_absent stmt v rest Hv).
      apply SKIP_VISITED_present, Hrest. }
  assert (Hassign : ∀ stmt w, is_Some (CounterMap (assign stmt w) !! stmt)).
  { intros stmt w. simpl. rewrite lookup_insert_eq. eauto. }
  destruct n as [|fbody|stmt|stmt|stmt|stmt|stmt|stmt|stmt|stmt|stmt g|stmt g
                |stmt catches|stmt b f|expr|expr|expr];
    cbn [visit]; try done; try (apply Hskip; intros w; apply Hassign).
  - by destruct (Hn fbody).
  - apply Hskip. intros w. destruct g; simpl.
    + apply is_Some_insert_mono. rewrite lookup_insert_eq. eauto.
    + rewrite lookup_insert_eq. eauto.
  - apply Hskip. intros w. destruct g; simpl.
    + apply is_Some_insert_mono. rewrite lookup_insert_eq. eauto.
    + rewrite lookup_insert_eq. eauto.
  - apply Hskip. intros w. apply catches_keep. simpl.
    rewrite lookup_insert_eq. eauto.
  - case_decide; [done|]. apply Hskip. intros w. apply Hassign.
Qed.

Lemma visit_twice_witness :
  visit (CaseStatement 128 true) (visit (CaseStatement 128 true) init)
  = visit (CaseStatement 128 true) init.
Proof. apply (visit_twice (CaseStatement 128 true) init). discriminate. Defined.

(** *** What the walk counts and hashes *)

Lemma combine_all_app h tys1 tys2 :
  combine_all h (tys1 ++ tys2) = combine_all (combine_all h tys1) tys2.
Proof. unfold combine_all. apply foldl_app. Qed.

Lemma catches_fold cs :
  ∀ v, 0 <= NextCounter v → NextCounter v + Z.of_nat (length cs) < 2 ^ 32 →
       let v' := foldl (λ v c, hash TryCatchCatch (assign c v)) v cs in
       NextCounter v' = NextCounter v + Z.of_nat (length cs)
       ∧ Hash v' = combine_all (Hash v) (replicate (length cs) TryCatchCatch)
       ∧ stop v' = stop v
       ∧ ∀ k, is_Some (CounterMap v' !! k) ↔ is_Some (CounterMap v !! k) ∨ k ∈ cs.
Proof.
  induction cs as [|c cs IH]; intros v Hpos Hwrap; cbv zeta.
  { simpl. split; [lia|]. split; [done|]. split; [done|].
    intros k. rewrite elem_of_nil. tauto. }
  simpl length in *.
  destruct (IH (hash TryCatchCatch (assign c v))) as (Hn & Hh & Hs & Hd).
  { simpl. rewrite wrap32_small; lia. }
  { simpl. rewrite wrap32_small; lia. }
  simpl foldl. simpl in Hn, Hh, Hs, Hd. rewrite wrap32_small in Hn by lia.
  split; [lia|]. split; [exact Hh|]. split; [exact Hs|].
  intros k. rewrite Hd, elem_of_cons, lookup_insert. case_decide; subst.
  - split; [intros _; right; by left|]. intros _. left. eauto.
  - split; [intros [?|?]; eauto|]. intros [?|[?|?]]; eauto. congruence.
Qed.

Lemma first_visit_counted ty stmt v :
  0 <= NextCounter v → NextCounter v + 1 < 2 ^ 32 →
  Hash (hash ty (assign stmt v)) = combine_all (Hash v) [ty]
  ∧ NextCounter (hash ty (assign stmt v)) = NextCounter v + Z.of_nat (length [ty])
  ∧ stop (hash ty (assign stmt v)) = stop v
  ∧ ∀ k, is_Some (CounterMap (hash ty (assign stmt v)) !! k)
         ↔ is_Some (CounterMap v !! k) ∨ k ∈ [stmt].
Proof.
  intros Hpos Hwrap. simpl. rewrite wrap32_small by lia.
  split; [done|]. split; [lia|]. split; [done|].
  intros k. rewrite list_elem_of_singleton, lookup_insert. case_decide; subst.
  - split; [by right|]. intros _. eauto.
  - split; [by left|]. intros [?|?]; [done|congruence].
Qed.

Lemma tokens_of_counters n : Z.of_nat (length (tokens_of n)) <= counters_of n.
Proof.
  destruct n; simpl; try lia; try (destruct gototarget; simpl; lia).
  - rewrite length_replicate. lia.
  - case_decide; simpl; lia.
Qed.


(** A visit of a node other than a function declaration is skipped, does
    nothing, or is the first visit of the node. *)
Lemma visit_cases n v :
  (∀ fbody, n ≠ FuncDeclaration fbody) →
  0 <= NextCounter v → NextCounter v + counters_of n < 2 ^ 32 →
  (visit n v = v ∧ ∀ p, first_key n = Some p → is_Some (CounterMap v !! p))
  ∨ first_visit n v (visit n v).
Proof.
  intros Hn Hpos Hwrap.
  assert (Hone : ∀ ty stmt,
            NextCounter v + 1 < 2 ^ 32 →
            (SKIP_VISITED stmt v (λ v, hash ty (assign stmt v)) = v
             ∧ ∀ p, Some stmt = Some p → is_Some (CounterMap v !! p))
            ∨ (Hash (SKIP_VISITED stmt v (λ v, hash ty (assign stmt v)))
               = combine_all (Hash v) [ty]
               ∧ NextCounter (SKIP_VISITED stmt v (λ v, hash ty (assign stmt v)))
                 = NextCounter v + Z.of_nat (length [ty])
               ∧ stop (SKIP_VISITED stmt v (λ v, hash ty (assign stmt v))) = stop v
               ∧ ∀ k, is_Some (CounterMap
                                 (SKIP_VISITED stmt v (λ v, hash ty (assign stmt v))) !! k)
                      ↔ is_Some (CounterMap v !! k) ∨ k ∈ [stmt])).
  { intros ty stmt Hw. destruct (CounterMap v !! stmt) as [i|] eqn:Hv.
    - left. rewrite SKIP_VISITED_present by eauto. split; [done|].
      intros p [= <-]. eauto.
    - right. rewrite (SKIP_VISITED_absent _ _ _ Hv). by apply first_visit_counted. }
  assert (Hcase : ∀ ty stmt (g : bool),
            NextCounter v + (if g then 2 else 1) < 2 ^ 32 →
            let v' := SKIP_VISITED stmt v (λ v,
                        let v := hash ty (assign stmt v) in
                        if g then hash CaseGoto (assign (CodeGenPGO.getCounterPtr stmt 1) v)
                        else v) in
            (v' = v ∧ ∀ p, Some stmt = Some p → is_Some (CounterMap v !! p))
            ∨ (Hash v' = combine_all (Hash v) (ty :: (if g then [CaseGoto] else []))
               ∧ NextCounter v'
                 = NextCounter v
                   + Z.of_nat (length (ty :: (if g then [CaseGoto] else [])))
               ∧ stop v' = stop v
               ∧ ∀ k, is_Some (CounterMap v' !! k)
                      ↔ is_Some (CounterMap v !! k)
                        ∨ k ∈ stmt :: (if g then [CodeGenPGO.getCounterPtr stmt 1]
                                       else []))).
  { intros ty stmt g Hw v'. subst v'.
    destruct (CounterMap v !! stmt) as [i|] eqn:Hv.
    - left. rewrite SKIP_VISITED_present by eauto. split; [done|].
      intros p [= <-]. eauto.
    - right. rewrite (SKIP_VISITED_absent _ _ _ Hv). cbv zeta.
      destruct g.
      + simpl. rewrite (wrap32_small (NextCounter v + 1)) by lia.
        rewrite wrap32_small by lia.
        split; [done|]. split; [lia|]. split; [done|].
        intros k. rewrite !elem_of_cons, elem_of_nil, !lookup_insert.
        repeat case_decide; subst; split; eauto; intros; destruct_or?; eauto; congruence.
      + by apply first_visit_counted. }
  destruct n as [|fbody|stmt|stmt|stmt|stmt|stmt|stmt|stmt|stmt|stmt g|stmt g
                |stmt catches|stmt b f|expr|expr|expr];
    unfold first_visit, first_key; cbn [visit tokens_of keys_of counters_of head] in *;
    try (by apply Hone); try (by apply Hcase).
  - by left.
  - by destruct (Hn fbody).
  - (* try/catch *)
    destruct (CounterMap v !! stmt) as [i|] eqn:Hv.
    + left. rewrite SKIP_VISITED_present by eauto. split; [done|].
      intros p [= <-]. eauto.
    + right. rewrite (SKIP_VISITED_absent _ _ _ Hv).
      destruct (catches_fold catches (hash TryCatchStmt (assign stmt v)))
        as (Hc1 & Hc2 & Hc3 & Hc4).
      { simpl. rewrite wrap32_small; lia. }
      { simpl. rewrite wrap32_small; lia. }
      simpl in Hc1, Hc2, Hc3, Hc4. rewrite wrap32_small in Hc1 by lia.
      split; [exact Hc2|]. split.
      { rewrite Hc1. simpl length. rewrite length_replicate. lia. }
      split; [exact Hc3|].
      intros k. rewrite Hc4, elem_of_cons, lookup_insert.
      case_decide; subst; split; eauto; intros; destruct_or?; eauto; congruence.
  - (* try/finally *)
    case_decide.
    + left. split; [done|]. simpl. discriminate.
    + by apply Hone.
Qed.

Lemma walked_nil v : stop v = false → walked [] v v.
Proof.
  intros Hstop. exists []. split; [done|]. split; [done|]. split; [simpl; lia|].
  split; [done|]. split.
  - intros k. simpl. rewrite elem_of_nil. tauto.
  - intros n p Hn. by apply elem_of_nil in Hn.
Qed.

Lemma walked_app ns1 ns2 v1 v2 v3 :
  walked ns1 v1 v2 → walked ns2 v2 v3 → walked (ns1 ++ ns2) v1 v3.
Proof.
  intros (vis1 & Hs1 & Hh1 & Hn1 & Hst1 & Hd1 & Hf1)
         (vis2 & Hs2 & Hh2 & Hn2 & Hst2 & Hd2 & Hf2).
  exists (vis1 ++ vis2). split; [by apply sublist_app|].
  rewrite !bind_app, combine_all_app, length_app.
  split; [by rewrite <- Hh1|]. split; [lia|]. split; [done|]. split.
  - intros k. rewrite Hd2, Hd1, elem_of_app. tauto.
  - intros n p Hn Hp. apply elem_of_app in Hn as [Hn|Hn].
    + apply Hd2. left. by apply (Hf1 n).
    + by apply (Hf2 n).
Qed.

Lemma walked_bound ns v v' :
  walked ns v v' → NextCounter v' <= NextCounter v + capacity ns.
Proof.
  intros (vis & Hs & _ & Hn & _). rewrite Hn.
  assert (Z.of_nat (length (vis ≫= tokens_of)) <= capacity ns); [|lia].
  clear -Hs. induction Hs as [|x l1 l2 Hs IH|x l1 l2 Hs IH].
  - simpl. lia.
  - change ((x :: l1) ≫= tokens_of) with (tokens_of x ++ (l1 ≫= tokens_of)).
    change (capacity (x :: l2)) with (counters_of x + capacity l2).
    rewrite length_app. pose proof (tokens_of_counters x). lia.
  - change (capacity (x :: l2)) with (counters_of x + capacity l2).
    pose proof (counters_of_nonneg x). lia.
Qed.

Lemma reached_capacity tr : capacity (reached tr) <= capacity (nodes tr).
Proof.
  induction tr as [n children IH] using Tree_ind'.
  assert (Hc : capacity (children ≫= reached) <= capacity (children ≫= nodes)).
  { induction children as [|c cs IHc]; [simpl; lia|].
    apply Forall_cons in IH as [Hhd Htl].
    change ((c :: cs) ≫= reached) with (reached c ++ (cs ≫= reached)).
    change ((c :: cs) ≫= nodes) with (nodes c ++ (cs ≫= nodes)).
    rewrite !capacity_app. specialize (IHc Htl). lia. }
  pose proof (capacity_nonneg (children ≫= nodes)).
  destruct n; simpl; lia.
Qed.

Lemma walk_walked tr :
  ∀ v, stop v = false → 1 <= NextCounter v →
       NextCounter v + capacity (nodes tr) < 2 ^ 32 →
       walked (reached tr) v (walk tr v).
Proof.
  induction tr as [n children IH] using Tree_ind'.
  intros v Hstop Hpos Hwrap. simpl nodes in Hwrap. simpl capacity in Hwrap.
  pose proof (capacity_nonneg (children ≫= nodes)) as Hcap.
  pose proof (counters_of_nonneg n) as Hcn.
  assert (Hchildren : ∀ v1, stop v1 = false → 1 <= NextCounter v1 →
            NextCounter v1 + capacity (children ≫= nodes) < 2 ^ 32 →
            walked (children ≫= reached) v1 (foldl (λ v c, walk c v) v1 children)).
  { clear -IH. induction children as [|c cs IHc]; intros v1 Hstop Hpos Hwrap.
    { by apply walked_nil. }
    apply Forall_cons in IH as [IHhd IHtl].
    change ((c :: cs) ≫= reached) with (reached c ++ (cs ≫= reached)).
    change ((c :: cs) ≫= nodes) with (nodes c ++ (cs ≫= nodes)) in Hwrap.
    rewrite capacity_app in Hwrap.
    pose proof (capacity_nonneg (cs ≫= nodes)). pose proof (capacity_nonneg (nodes c)).
    assert (Hw1 : walked (reached c) v1 (walk c v1)) by (apply IHhd; (done || lia)).
    pose proof (walked_bound _ _ _ Hw1) as Hb1.
    pose proof (reached_capacity c) as Hrc.
    simpl foldl. eapply walked_app; [exact Hw1|].
    destruct Hw1 as (vis & _ & _ & Hn1 & Hst1 & _).
    apply IHc; try done; lia. }
  assert (Hdec : (∃ fbody, n = FuncDeclaration fbody)
                 ∨ ¬ (∃ fbody, n = FuncDeclaration fbody)).
  { destruct n; try (right; intros [fb Hfb]; discriminate Hfb). left. eauto. }
  destruct Hdec as [[fbody ->]|Hnf].
  - (* a nested function declaration *)
    simpl. destruct (NextCounter v =? 0) eqn:E; [apply Z.eqb_eq in E; lia|].
    simpl. exists []. split; [done|]. split; [done|]. split; [simpl; lia|].
    split; [done|]. split.
    + intros k. simpl. rewrite elem_of_nil. tauto.
    + intros n p Hn. by apply elem_of_nil in Hn.
  - assert (Hn : ∀ fbody, n ≠ FuncDeclaration fbody) by (intros fb ->; eauto).
    assert (Hreached : reached (Tr n children) = n :: (children ≫= reached)).
    { destruct n; try done. by destruct (Hn fbody). }
    rewrite Hreached. simpl walk.
    destruct (visit_cases n v Hn ltac:(lia) ltac:(lia)) as [[Hsame Hkey]|Hfirst].
    + (* skipped *)
      rewrite Hsame, Hstop.
      change (n :: children ≫= reached) with ([n] ++ (children ≫= reached)).
      eapply walked_app; [|apply Hchildren; (done || lia)].
      exists []. split; [apply sublist_nil_l|]. split; [done|]. split; [simpl; lia|].
      split; [done|]. split.
      * intros k. simpl. rewrite elem_of_nil. tauto.
      * intros n' p Hn' Hp. apply list_elem_of_singleton in Hn' as ->. by apply Hkey.
    + (* the first visit *)
      destruct Hfirst as (Hh & Hnx & Hst & Hd).
      pose proof (tokens_of_counters n) as Htc.
      rewrite Hst, Hstop.
      change (n :: children ≫= reached) with ([n] ++ (children ≫= reached)).
      eapply walked_app; [|apply Hchildren; (congruence || lia)].
      exists [n]. split; [done|].
      change ([n] ≫= tokens_of) with (tokens_of n ++ []).
      change ([n] ≫= keys_of) with (keys_of n ++ []).
      rewrite !(right_id_L [] (++)).
      split; [done|]. split; [done|]. split; [congruence|]. split; [done|].
      intros n' p Hn' Hp. apply list_elem_of_singleton in Hn' as ->.
      apply Hd. right. unfold first_key in Hp. destruct (keys_of n); [done|].
      injection Hp as ->. by left.
Qed.

(** The walk of a function from its declaration. *)
Lemma walk_function fbody children :
  capacity (nodes (Tr (FuncDeclaration fbody) children)) < 2 ^ 32 →
  walked (children ≫= reached) (assign fbody init)
    (walk (Tr (FuncDeclaration fbody) children) init).
Proof.
  intros Hcap. simpl nodes in Hcap. simpl capacity in Hcap.
  pose proof (capacity_nonneg (children ≫= nodes)) as Hcn.
  change (walk (Tr (FuncDeclaration fbody) children) init)
    with (foldl (λ v c, walk c v) (assign fbody init) children).
  assert (Hgen : ∀ children v, stop v = false → 1 <= NextCounter v →
            NextCounter v + capacity (children ≫= nodes) < 2 ^ 32 →
            walked (children ≫= reached) v (foldl (λ v c, walk c v) v children)).
  { clear. induction children as [|c cs IHc]; intros v Hstop Hpos Hwrap.
    { by apply walked_nil. }
    change ((c :: cs) ≫= reached) with (reached c ++ (cs ≫= reached)).
    change ((c :: cs) ≫= nodes) with (nodes c ++ (cs ≫= nodes)) in Hwrap.
    rewrite capacity_app in Hwrap.
    pose proof (capacity_nonneg (cs ≫= nodes)). pose proof (capacity_nonneg (nodes c)).
    assert (Hw1 : walked (reached c) v (walk c v)) by (apply walk_walked; (done || lia)).
    pose proof (walked_bound _ _ _ Hw1) as Hb1.
    pose proof (reached_capacity c) as Hrc.
    simpl foldl. eapply walked_app; [exact Hw1|].
    destruct Hw1 as (vis & _ & _ & Hn1 & Hst1 & _).
    apply IHc; try done; lia. }
  apply Hgen; [done|done|]. change (NextCounter (assign fbody init)) with 1. lia.
Qed.




(** X10.  The keys of the counter map that [mapRegionCounters] leaves are
    the body of the function and keys of nodes of the function: a statement
    or an expression that takes a counter, the second slot of a case or
    default statement that is the target of a goto, a catch clause; no node
    of a nested function has a key.  Conversely, every node of the function
    that takes a counter has one. *)
Theorem mapRegionCounters_keys (MD5_final : list Z → list Z) (fbody : ptr)
    (children : list Tree) (pgo pgo' : CodeGenPGO.t) (m : gmap N Z) :
  capacity (nodes (Tr (FuncDeclaration fbody) children)) < 2 ^ 32 →
  mapRegionCounters MD5_final fbody children pgo = Some pgo' →
  CodeGenPGO.RegionCounterMap pgo' = Some m →
  is_Some (m !! fbody)
  ∧ (∀ k, is_Some (m !! k) → k = fbody ∨ k ∈ (children ≫= reached) ≫= keys_of)
  ∧ (∀ n p, n ∈ children ≫= reached → first_key n = Some p → is_Some (m !! p)).
Proof.
  intros Hcap Hmap Hm.
  destruct (walk_function fbody children Hcap)
    as (visited & Hs & _ & _ & _ & Hd & Hf).
  unfold mapRegionCounters in Hmap.
  destruct (negb (0 <? NextCounter _)); [done|].
  destruct (negb (NextCounter _ =? _)); [done|].
  injection Hmap as <-. cbn [CodeGenPGO.RegionCounterMap] in Hm.
  injection Hm as <-.
  split; [|split].
  - apply Hd. left. simpl. rewrite lookup_insert_eq. eauto.
  - intros k Hk. apply Hd in Hk as [Hk|Hk].
    + left. simpl in Hk. rewrite lookup_insert in Hk.
      case_decide; [done|]. rewrite lookup_empty in Hk. by destruct Hk.
    + right. apply list_elem_of_bind in Hk as (n & Hk & Hn).
      apply list_elem_of_bind. exists n. split; [done|].
      by apply (elem_of_sublist visited).
  - exact Hf.
Qed.

Lemma mapRegionCounters_keys_witness :
  ∃ pgo' m, mapRegionCounters no_digest 16 (try_function ++ switch_function)
              empty_profile = Some pgo'
            ∧ CodeGenPGO.RegionCounterMap pgo' = Some m
            ∧ is_Some (m !! 144%N).
Proof.
  assert (Hmap : ∃ pgo' m, mapRegionCounters no_digest 16
                             (try_function ++ switch_function) empty_profile
                           = Some pgo'
                           ∧ CodeGenPGO.RegionCounterMap pgo' = Some m).
  { eexists _, _. split; vm_compute; reflexivity. }
  destruct Hmap as (pgo' & m & Hmap & Hm).
  destruct (mapRegionCounters_keys no_digest 16 (try_function ++ switch_function)
              empty_profile pgo' m ltac:(vm_compute; reflexivity) Hmap Hm)
    as (_ & _ & Hf).
  exists pgo', m. split; [exact Hmap|]. split; [exact Hm|].
  apply (Hf (IfStatement 144)); [|reflexivity].
  clear. vm_compute. do 8 right. left.
Defined.

End MappingProperties.

(** ** The counting pass, again *)

Section CountingProperties.
Import CodeGenPGO ComputeRegionCounts.

#[local] Arguments RecordStmtCount : simpl never.
#[local] Arguments setCount : simpl never.
#[local] Arguments set_CountMap : simpl never.
#[local] Arguments set_RecordNextStmtCount : simpl never.
#[local] Arguments set_LoopLabels : simpl never.
#[local] Arguments set_BreakContinueStack : simpl never.
#[local] Arguments push_back : simpl never.
#[local] Arguments pop_back_val : simpl never.
#[local] Arguments leave : simpl never.
#[local] Arguments target_frame : simpl never.
#[local] Arguments recurse : simpl never.

(** *** A property of every count *)

Section Within.
Variable PGO : CodeGenPGO.t.
Variable P : Z → Prop.
Hypothesis P_zero : P 0.
Hypothesis P_add : ∀ a b, P a → P b → P (add64 a b).
Hypothesis P_sub : ∀ a b, P a → P b → P (sub64 a b).
Hypothesis P_raw : ∀ k, P (getRegionCount PGO k).

Lemma within_current v : within P v → P (CurrentCount v).
Proof. by intros (H & _). Qed.

Lemma within_setCount c v : P c → within P v → within P (setCount c v).
Proof. intros Hc (H1 & H2 & H3). by split. Qed.

Lemma within_set_CountMap k c v : P c → within P v → within P (set_CountMap k c v).
Proof.
  intros Hc (H1 & H2 & H3). split; [done|]. split; [|done].
  unfold set_CountMap. simpl. by apply map_Forall_insert_2.
Qed.

Lemma within_set_RecordNextStmtCount b v :
  within P v → within P (set_RecordNextStmtCount b v).
Proof. intros (H1 & H2 & H3). by split. Qed.

Lemma within_set_LoopLabels l v : within P v → within P (set_LoopLabels l v).
Proof. intros (H1 & H2 & H3). by split. Qed.

Lemma within_RecordStmtCount S_ v : within P v → within P (RecordStmtCount S_ v).
Proof.
  intros Hv. unfold RecordStmtCount. destruct (RecordNextStmtCount v); [|done].
  apply within_set_RecordNextStmtCount, within_set_CountMap; [|done].
  by apply within_current.
Qed.

Lemma within_leave v : within P v → within P (leave v).
Proof.
  intros Hv. unfold leave.
  by apply within_set_RecordNextStmtCount, within_setCount.
Qed.

Lemma within_push_back v : within P v → within P (push_back v).
Proof.
  intros (H1 & H2 & H3). split; [done|]. split; [done|].
  unfold push_back, set_BreakContinueStack. simpl.
  apply Forall_app. split; [done|]. by repeat constructor.
Qed.

Lemma within_pop v BC v' :
  pop_back_val v = Some (BC, v') → within P v →
  within P v' ∧ P (BreakCount BC) ∧ P (ContinueCount BC).
Proof.
  intros Hpop (H1 & H2 & H3).
  apply pop_back_val_Some in Hpop as (Hstack & Hv' & _).
  rewrite Hstack in H3. apply Forall_app in H3 as [Hbelow HBC].
  apply Forall_singleton in HBC as [? ?].
  split; [|done]. rewrite Hv'. by split.
Qed.

Lemma within_add_BreakCount i v :
  within P v →
  within P (set_BreakContinueStack
              (alter (add_BreakCount (CurrentCount v)) i (BreakContinueStack v)) v).
Proof.
  intros (H1 & H2 & H3). split; [done|]. split; [done|].
  unfold set_BreakContinueStack. simpl.
  apply Forall_alter; [done|]. intros BC _ [Hb Hc]. split; simpl; [|done].
  by apply P_add.
Qed.

Lemma within_add_ContinueCount c i v :
  P c → within P v →
  within P (set_BreakContinueStack
              (alter (add_ContinueCount c) i (BreakContinueStack v)) v).
Proof.
  intros Hc (H1 & H2 & H3). split; [done|]. split; [done|].
  unfold set_BreakContinueStack. simpl.
  apply Forall_alter; [done|]. intros BC _ [Hb Hcc]. split; simpl; [done|].
  by apply P_add.
Qed.

Ltac within_solve :=
  solve [repeat match goal with
    | |- _ => assumption
    | |- P 0 => apply P_zero
    | |- P (getRegionCount _ _) => apply P_raw
    | |- P (add64 _ _) => apply P_add
    | |- P (sub64 _ _) => apply P_sub
    | |- P (CurrentCount _) => apply within_current
    | |- within _ (setCount _ _) => apply within_setCount
    | |- within _ (set_CountMap _ _ _) => apply within_set_CountMap
    | |- within _ (set_RecordNextStmtCount _ _) =>
        apply within_set_RecordNextStmtCount
    | |- within _ (set_LoopLabels _ _) => apply within_set_LoopLabels
    | |- within _ (RecordStmtCount _ _) => apply within_RecordStmtCount
    | |- within _ (leave _) => apply within_leave
    | |- within _ (push_back _) => apply within_push_back
    | |- within _ (set_BreakContinueStack (alter (add_BreakCount _) _ _) _) =>
        apply within_add_BreakCount
    | |- within _ (set_BreakContinueStack (alter (add_ContinueCount _) _ _) _) =>
        apply within_add_ContinueCount
    end].

Lemma recurse_all_within {A : Type}
    (visit : A → ComputeRegionCounts.t → option ComputeRegionCounts.t) xs :
  Forall (λ x, ∀ v v', visit x v = Some v' → within P v → within P v') xs →
  ∀ v v', recurse_all visit xs v = Some v' → within P v → within P v'.
Proof.
  induction xs as [|x xs IH]; intros Hall v v' H Hv; simpl in H.
  - by injection H as <-.
  - apply Forall_cons in Hall as [Hhd Htl].
    apply bind_Some in H as (v1 & H1 & H).
    apply (IH Htl _ _ H). by apply (Hhd v).
Qed.

Lemma visitE_within e :
  ∀ v v', visitE PGO e v = Some v' → within P v → within P v'.
Proof.
  induction e as [E ops IH|E c e1 e2 IHc IH1 IH2|E e1 e2 IH1 IH2|E e1 e2 IH1 IH2]
    using Expression_ind'; intros v v' H Hv; simpl in H.
  - by apply (recurse_all_within (visitE PGO) ops IH v v').
  - apply bind_Some in H as (v1 & H1 & H).
    apply bind_Some in H as (v2 & H2 & H).
    apply bind_Some in H as (v3 & H3 & [= <-]).
    apply IHc in H1; [|within_solve]. apply IH1 in H2; [|within_solve].
    apply IH2 in H3; [|within_solve]. within_solve.
  - apply bind_Some in H as (v1 & H1 & H).
    apply bind_Some in H as (v2 & H2 & [= <-]).
    apply IH1 in H1; [|within_solve]. apply IH2 in H2; [|within_solve].
    within_solve.
  - apply bind_Some in H as (v1 & H1 & H).
    apply bind_Some in H as (v2 & H2 & [= <-]).
    apply IH1 in H1; [|within_solve]. apply IH2 in H2; [|within_solve].
    within_solve.
Qed.

Lemma recurse_visitE_within exp v v' :
  recurse (visitE PGO) exp v = Some v' → within P v → within P v'.
Proof.
  destruct exp as [e|]; unfold recurse; [apply visitE_within|].
  by intros [= <-].
Qed.

Lemma recurse_child_within x v v' :
  child (λ s, ∀ v v', visitS PGO s v = Some v' → within P v → within P v') x →
  recurse (visitS PGO) x v = Some v' → within P v → within P v'.
Proof.
  destruct x as [s|]; unfold recurse; simpl; intros IH H; [by apply IH|].
  by injection H as <-.
Qed.

Ltac within_step :=
  match goal with
  | H : (_ ≫= _) = Some _ |- _ => apply bind_Some in H as (? & ? & H)
  | H : Some _ = Some _ |- _ => injection H as <-
  | x : (_ * _)%type |- _ => destruct x; simpl in *
  | H : target_frame _ _ = Some _ |- _ => clear H
  | H : recurse (visitE PGO) _ _ = Some _ |- _ =>
      apply recurse_visitE_within in H; [|within_solve]
  | H : visitE PGO _ _ = Some _ |- _ =>
      apply visitE_within in H; [|within_solve]
  | H : pop_back_val _ = Some _ |- _ =>
      apply within_pop in H as (? & ? & ?); [|within_solve]
  | IH : child _ ?x, H : recurse (visitS PGO) ?x _ = Some _ |- _ =>
      apply (recurse_child_within _ _ _ IH) in H; [|within_solve]
  | IH : ∀ v v', visitS PGO ?s v = Some v' → _,
    H : visitS PGO ?s _ = Some _ |- _ =>
      apply IH in H; [|within_solve]
  end.

(** Every count of the state has the property after the visit of a
    statement, if it had before. *)
Lemma visitS_within s :
  ∀ v v', visitS PGO s v = Some v' → within P v → within P v'.
Proof.
  induction s using Statement_ind'; intros v v' Hv Hin; simpl in Hv.
  all: try (destruct gototarget).
  all: try (destruct increment).
  all: try (destruct elsebody; simpl in * ).
  all: repeat within_step.
  all: try case_decide.
  all: try within_solve.
  - (* compound *)
    by apply (recurse_all_within (visitS PGO) statements H v v').
  - (* try/catch *)
    match goal with
    | Hall : Forall _ ?cs, Hc : recurse_all (visitCatch PGO) ?cs _ = Some _ |- _ =>
        apply (recurse_all_within (visitCatch PGO) cs) in Hc;
        [|eapply Forall_impl; [exact Hall|]|within_solve]
    end.
    + within_solve.
    + intros [c h] Hc w w' Hw Hww. simpl in *.
      apply (recurse_child_within _ _ _ Hc) in Hw; [done|within_solve].
Qed.

Lemma recurse_visitS_within x v v' :
  recurse (visitS PGO) x v = Some v' → within P v → within P v'.
Proof.
  destruct x as [s|]; unfold recurse; [apply visitS_within|].
  by intros [= <-].
Qed.

Lemma within_init : within P init.
Proof.
  split; [exact P_zero|]. split; [apply map_Forall_empty|constructor].
Qed.

(** The counts that [computeRegionCounts] records. *)
Lemma computeRegionCounts_within FD pgo' :
  computeRegionCounts FD PGO = Some pgo' →
  ∃ m, StmtCountMap pgo' = Some m ∧ map_Forall (λ _ c, P c) m.
Proof.
  unfold computeRegionCounts, visitFuncDeclaration. intros H.
  apply bind_Some in H as (Walker & Hw & [= <-]). simpl.
  exists (CountMap Walker). split; [done|].
  apply recurse_visitS_within in Hw; [apply Hw|].
  pose proof within_init. within_solve.
Qed.

End Within.

(** *** The keys of the count map *)

Section Has.
Variable PGO : CodeGenPGO.t.

Lemma has_setCount k c v : has k v → has k (setCount c v).
Proof. done. Qed.
Lemma has_set_CountMap k key c v : has k v → has k (set_CountMap key c v).
Proof. unfold has, set_CountMap. simpl. apply is_Some_insert_mono. Qed.
Lemma has_set_CountMap_eq k c v : has k (set_CountMap k c v).
Proof. unfold has, set_CountMap. simpl. rewrite lookup_insert_eq. eauto. Qed.
Lemma has_set_RecordNextStmtCount k b v :
  has k v → has k (set_RecordNextStmtCount b v).
Proof. done. Qed.
Lemma has_set_LoopLabels k l v : has k v → has k (set_LoopLabels l v).
Proof. done. Qed.
Lemma has_set_BreakContinueStack k l v :
  has k v → has k (set_BreakContinueStack l v).
Proof. done. Qed.
Lemma has_RecordStmtCount k S_ v : has k v → has k (RecordStmtCount S_ v).
Proof.
  intros Hk. unfold RecordStmtCount. destruct (RecordNextStmtCount v); [|done].
  by apply has_set_RecordNextStmtCount, has_set_CountMap.
Qed.
Lemma has_leave k v : has k v → has k (leave v).
Proof. done. Qed.
Lemma has_push_back k v : has k v → has k (push_back v).
Proof. done. Qed.
Lemma has_pop v BC v' :
  pop_back_val v = Some (BC, v') → grows v v'.
Proof.
  intros Hpop k. apply pop_back_val_Some in Hpop as (_ & -> & _). done.
Qed.

Ltac has_solve :=
  solve [repeat match goal with
    | |- _ => assumption
    | |- has ?k (set_CountMap ?k _ _) => apply has_set_CountMap_eq
    | H : grows ?w ?w' |- has _ ?w' => apply H
    | |- has _ (setCount _ _) => apply has_setCount
    | |- has _ (set_CountMap _ _ _) => apply has_set_CountMap
    | |- has _ (set_RecordNextStmtCount _ _) => apply has_set_RecordNextStmtCount
    | |- has _ (set_LoopLabels _ _) => apply has_set_LoopLabels
    | |- has _ (set_BreakContinueStack _ _) => apply has_set_BreakContinueStack
    | |- has _ (RecordStmtCount _ _) => apply has_RecordStmtCount
    | |- has _ (leave _) => apply has_leave
    | |- has _ (push_back _) => apply has_push_back
    end].

Lemma recurse_all_has {A : Type}
    (visit : A → ComputeRegionCounts.t → option ComputeRegionCounts.t) xs :
  Forall (λ x, ∀ v v', visit x v = Some v' → grows v v') xs →
  ∀ v v', recurse_all visit xs v = Some v' → grows v v'.
Proof.
  induction xs as [|x xs IH]; intros Hall v v' H k Hk; simpl in H.
  - by injection H as <-.
  - apply Forall_cons in Hall as [Hhd Htl].
    apply bind_Some in H as (v1 & H1 & H).
    apply (IH Htl _ _ H). by apply (Hhd v).
Qed.

Lemma visitE_has e :
  ∀ v v', visitE PGO e v = Some v' → grows v v'.
Proof.
  induction e as [E ops IH|E c e1 e2 IHc IH1 IH2|E e1 e2 IH1 IH2|E e1 e2 IH1 IH2]
    using Expression_ind'; intros v v' H k Hk; simpl in H.
  - by apply (recurse_all_has (visitE PGO) ops IH v v').
  - apply bind_Some in H as (v1 & H1 & H).
    apply bind_Some in H as (v2 & H2 & H).
    apply bind_Some in H as (v3 & H3 & [= <-]).
    apply IHc in H1. apply IH1 in H2. apply IH2 in H3. has_solve.
  - apply bind_Some in H as (v1 & H1 & H).
    apply bind_Some in H as (v2 & H2 & [= <-]).
    apply IH1 in H1. apply IH2 in H2. has_solve.
  - apply bind_Some in H as (v1 & H1 & H).
    apply bind_Some in H as (v2 & H2 & [= <-]).
    apply IH1 in H1. apply IH2 in H2. has_solve.
Qed.

Lemma recurse_visitE_has exp v v' :
  recurse (visitE PGO) exp v = Some v' → grows v v'.
Proof.
  destruct exp as [e|]; unfold recurse; [apply visitE_has|].
  intros [= <-]. by intros k Hk.
Qed.

Lemma recurse_child_has x v v' :
  child (λ s, ∀ v v', visitS PGO s v = Some v' → grows v v') x →
  recurse (visitS PGO) x v = Some v' → grows v v'.
Proof.
  destruct x as [s|]; unfold recurse; simpl; intros IH H; [by apply IH|].
  injection H as <-. by intros k Hk.
Qed.

Ltac has_step :=
  match goal with
  | H : (_ ≫= _) = Some _ |- _ => apply bind_Some in H as (? & ? & H)
  | H : Some _ = Some _ |- _ => injection H as <-
  | x : (_ * _)%type |- _ => destruct x; simpl in *
  | H : target_frame _ _ = Some _ |- _ => clear H
  | H : recurse (visitE PGO) _ _ = Some _ |- _ => apply recurse_visitE_has in H
  | H : visitE PGO _ _ = Some _ |- _ => apply visitE_has in H
  | H : pop_back_val _ = Some _ |- _ => apply has_pop in H
  | IH : child _ ?x, H : recurse (visitS PGO) ?x _ = Some _ |- _ =>
      apply (recurse_child_has _ _ _ IH) in H
  | IH : ∀ v v', visitS PGO ?s v = Some v' → _,
    H : visitS PGO ?s _ = Some _ |- _ => apply IH in H
  end.

(** The visit of a statement removes no entry of the count map. *)
Lemma visitS_has s :
  ∀ v v', visitS PGO s v = Some v' → grows v v'.
Proof.
  induction s using Statement_ind'; intros v v' Hv k Hk; simpl in Hv.
  all: try (destruct gototarget).
  all: try (destruct increment).
  all: try (destruct elsebody; simpl in * ).
  all: repeat has_step.
  all: try case_decide.
  all: try has_solve.
  - (* compound *)
    by apply (recurse_all_has (visitS PGO) statements H v v').
  - (* try/catch *)
    match goal with
    | Hall : Forall _ ?cs, Hc : recurse_all (visitCatch PGO) ?cs _ = Some _ |- _ =>
        apply (recurse_all_has (visitCatch PGO) cs) in Hc;
        [|eapply Forall_impl; [exact Hall|]]
    end.
    + has_solve.
    + intros [c h] Hc w w' Hw k' Hk'. simpl in *.
      apply (recurse_child_has _ _ _ Hc) in Hw. has_solve.
Qed.

Lemma recurse_visitS_has x v v' :
  recurse (visitS PGO) x v = Some v' → grows v v'.
Proof.
  destruct x as [s|]; unfold recurse; [apply visitS_has|].
  intros [= <-]. by intros k Hk.
Qed.

Lemma statements_has statements v v' :
  recurse_all (visitS PGO) statements v = Some v' → grows v v'.
Proof.
  apply (recurse_all_has (visitS PGO)). apply Forall_forall.
  intros s _. apply visitS_has.
Qed.

Lemma visitCatch_has c v v' :
  visitCatch PGO c v = Some v' → grows v v'.
Proof.
  destruct c as [c h]. simpl. intros H k Hk.
  apply recurse_visitS_has in H. has_solve.
Qed.

Lemma catches_has catches v v' :
  recurse_all (visitCatch PGO) catches v = Some v' → grows v v'.
Proof.
  apply (recurse_all_has (visitCatch PGO)). apply Forall_forall.
  intros c _. apply visitCatch_has.
Qed.

(** *** Every statement is visited *)

Lemma visited_before_later l w' v' :
  visited_before PGO l w' → grows w' v' → visited_before PGO l v'.
Proof.
  intros (a & a' & Ha & Hk) Hlater. exists a, a'. split; [done|].
  intros k Hk0. by apply Hlater, Hk.
Qed.

Lemma recurse_child_visited x v v' l :
  child (λ s, ∀ v v' l, visitS PGO s v = Some v' → l ∈ substatements s →
                        visited_before PGO l v') x →
  recurse (visitS PGO) x v = Some v' → l ∈ from_option substatements [] x →
  visited_before PGO l v'.
Proof.
  destruct x as [s|]; unfold recurse; simpl; intros IH H Hl; [by apply (IH v)|].
  by apply elem_of_nil in Hl.
Qed.

Lemma recurse_all_visited {A : Type}
    (visit : A → ComputeRegionCounts.t → option ComputeRegionCounts.t)
    (subs : A → list Statement) xs l :
  (∀ x v v', visit x v = Some v' → grows v v') →
  Forall (λ x, ∀ v v', visit x v = Some v' → l ∈ subs x → visited_before PGO l v') xs →
  ∀ v v', recurse_all visit xs v = Some v' → l ∈ xs ≫= subs → visited_before PGO l v'.
Proof.
  intros Hhas. induction xs as [|x xs IH]; intros Hall v v' H Hl; simpl in H.
  - by apply elem_of_nil in Hl.
  - apply Forall_cons in Hall as [Hhd Htl].
    change ((x :: xs) ≫= subs) with (subs x ++ (xs ≫= subs)) in Hl.
    apply bind_Some in H as (v1 & H1 & H).
    apply elem_of_app in Hl as [Hl|Hl].
    + apply (visited_before_later l v1); [by apply (Hhd v)|].
      apply (recurse_all_has visit xs); [|exact H].
      apply Forall_forall. intros y _. apply Hhas.
    + by apply (IH Htl v1).
Qed.

Ltac visited_step l :=
  match goal with
  | H : (_ ≫= _) = Some _ |- _ => apply bind_Some in H as (? & ? & H)
  | H : Some _ = Some _ |- _ => injection H as <-
  | x : (_ * _)%type |- _ => destruct x; simpl in *
  | H : target_frame _ _ = Some _ |- _ => clear H
  | H : recurse (visitE PGO) _ _ = Some _ |- _ => apply recurse_visitE_has in H
  | H : visitE PGO _ _ = Some _ |- _ => apply visitE_has in H
  | H : pop_back_val _ = Some _ |- _ => apply has_pop in H
  | IH : child _ ?x, Hl : l ∈ from_option substatements [] ?x,
    H : recurse (visitS PGO) ?x ?w = Some ?w' |- _ =>
      pose proof (recurse_child_visited x w w' l IH H Hl);
      clear Hl; apply recurse_visitS_has in H
  | IH : ∀ v v' l, visitS PGO ?s v = Some v' → _, Hl : l ∈ substatements ?s,
    H : visitS PGO ?s ?w = Some ?w' |- _ =>
      pose proof (IH w w' l H Hl); clear Hl; apply visitS_has in H
  | H : recurse (visitS PGO) _ _ = Some _ |- _ => apply recurse_visitS_has in H
  | H : visitS PGO _ _ = Some _ |- _ => apply visitS_has in H
  | H : recurse_all (visitS PGO) _ _ = Some _ |- _ => apply statements_has in H
  | H : recurse_all (visitCatch PGO) _ _ = Some _ |- _ => apply catches_has in H
  end.

Ltac visited_solve :=
  match goal with
  | Hb : visited_before _ ?l ?w |- visited_before _ ?l _ =>
      apply (visited_before_later l w); [exact Hb|]; intros ? ?; has_solve
  end.

(** Every statement of a statement is visited in the course of its
    visit. *)
Lemma visitS_visited s :
  ∀ v v' l, visitS PGO s v = Some v' → l ∈ substatements s → visited_before PGO l v'.
Proof.
  induction s using Statement_ind'; intros v v' l Hv Hl.
  all: cbn [substatements] in Hl.
  all: apply elem_of_cons in Hl as [->|Hl];
    [exists v, v'; split; [exact Hv|by intros k Hk]|].
  all: try (by apply elem_of_nil in Hl).
  all: simpl in Hv.
  all: rewrite ?elem_of_app in Hl; destruct_or?.
  all: try (destruct gototarget).
  all: try (destruct increment).
  all: try (destruct elsebody; simpl in * ).
  all: try (by apply elem_of_nil in Hl).
  all: try (repeat visited_step l; try case_decide; visited_solve).
  - (* compound *)
    apply (recurse_all_visited (visitS PGO) substatements statements l
             (visitS_has)) with (v := v); [|done|done].
    eapply Forall_impl; [exact H|]. intros s IH w w'. apply IH.
  - (* try/catch: a handler *)
    apply bind_Some in Hv as (v1 & H1 & Hv).
    apply bind_Some in Hv as (v2 & H2 & [= <-]).
    apply (visited_before_later l v2); [|intros ? ?; has_solve].
    apply (recurse_all_visited (visitCatch PGO)
             (λ c, match c with
                   | mkCatch _ handler => from_option substatements [] handler
                   end) catches l visitCatch_has) with (v := v1); [|done|done].
    eapply Forall_impl; [exact H0|]. intros [c h] Hc w w' Hw Hlc. simpl in *.
    by apply (recurse_child_visited h _ w' l Hc Hw).
Qed.

(** The visit of a loop records the count of its condition. *)
Lemma visitS_condition_key s v v' k :
  visitS PGO s v = Some v' → condition_key s = Some k → has k v'.
Proof.
  destruct s; simpl; intros Hv Hkey; try discriminate Hkey;
    injection Hkey as <-; repeat has_step.
  all: try (destruct increment; simpl in * ).
  all: repeat has_step.
  all: try (destruct condition; simpl in * ).
  all: has_solve.
Qed.

End Has.

(** *** The loop adapters find the counts they look up *)

Lemma getRegionCount_u64 pgo k :
  Forall u64 (RegionCounts pgo) → u64 (getRegionCount pgo k).
Proof.
  intros Hu. unfold getRegionCount.
  assert (H0 : u64 0) by (unfold u64; lia).
  destruct (RegionCounterMap pgo) as [m|]; [|done].
  destruct (haveRegionCounts pgo); [|done].
  destruct (RegionCounts pgo !! _) as [c|] eqn:Hc; [|done]. simpl.
  rewrite Forall_forall in Hu. apply Hu. by apply list_elem_of_lookup_2 in Hc.
Qed.

(** The counts that [computeRegionCounts] records are 64-bit values. *)
Lemma computeRegionCounts_u64 FD pgo pgo' :
  Forall u64 (RegionCounts pgo) → computeRegionCounts FD pgo = Some pgo' →
  ∃ m, StmtCountMap pgo' = Some m ∧ map_Forall (λ _ c, u64 c) m.
Proof.
  intros Hu. apply (computeRegionCounts_within pgo u64).
  - unfold u64. lia.
  - intros a b _ _. apply add64_range.
  - intros a b _ _. apply sub64_range.
  - intros k. by apply getRegionCount_u64.
Qed.

Lemma computeRegionCounts_condition FD pgo pgo' l k :
  computeRegionCounts FD pgo = Some pgo' →
  l ∈ from_option substatements [] (fbody FD) → condition_key l = Some k →
  ∃ m C, StmtCountMap pgo' = Some m ∧ m !! k = Some C
         ∧ RegionCounts pgo' = RegionCounts pgo
         ∧ RegionCounterMap pgo' = RegionCounterMap pgo.
Proof.
  unfold computeRegionCounts, visitFuncDeclaration. intros H Hl Hk.
  apply bind_Some in H as (Walker & Hw & [= <-]). simpl.
  destruct (fbody FD) as [s|]; simpl in Hl; [|by apply elem_of_nil in Hl].
  unfold recurse in Hw.
  destruct (visitS_visited pgo s _ _ l Hw Hl) as (w & w' & Hlw & Hgrows).
  pose proof (visitS_condition_key pgo l w w' k Hlw Hk) as Hhas.
  apply Hgrows in Hhas. destruct Hhas as [C HC]. by exists (CountMap Walker), C.
Qed.

Lemma createProfileWeights_total T F :
  u64 T → u64 F → ∃ node, createProfileWeights T F = Some node.
Proof.
  intros HT HF. destruct (decide (T = 0 ∧ F = 0)) as [[-> ->]|Hnz].
  - by exists null.
  - rewrite (createProfileWeights_nonzero T F HT HF Hnz). eauto.
Qed.

Lemma loop_weights_total C L :
  u64 L → ∃ node, createProfileWeights L (sub64 (Z.max C L) L) = Some node.
Proof. intros HL. apply createProfileWeights_total; [done|apply sub64_range]. Qed.

(** X11.  After [computeRegionCounts], for every while loop and every do
    loop of the function, wherever it lies in the body: the count of the
    condition of the loop is recorded, it is a 64-bit value when the raw
    counts are, and the adapter for while loops, asked for the condition
    with any 64-bit count of the loop, returns: its assertion that the
    count is there does not fail, nor does an assertion of the scaling. *)
Theorem while_adapter_returns (FD : FuncDeclaration) (pgo pgo' : CodeGenPGO.t)
    (l : Statement) (S_ : ptr) (condition : option Expression)
    (_body : option Statement) (LoopCount : Z) :
  Forall u64 (RegionCounts pgo) →
  computeRegionCounts FD pgo = Some pgo' →
  l ∈ from_option substatements [] (fbody FD) →
  l = WhileStatement S_ condition _body ∨ l = DoStatement S_ _body condition →
  u64 LoopCount →
  ∃ CondCount node,
    getStmtCount pgo' (ptrE condition) = (true, CondCount)
    ∧ u64 CondCount
    ∧ createProfileWeightsWhileLoop pgo' (ptrE condition) LoopCount = Some node.
Proof.
  intros Hu Hc Hl Hloop HL.
  assert (Hk : condition_key l = Some (ptrE condition)) by (by destruct Hloop as [->| ->]).
  destruct (computeRegionCounts_condition FD pgo pgo' l _ Hc Hl Hk)
    as (m & C & Hm & HC & _).
  destruct (computeRegionCounts_u64 FD pgo pgo' Hu Hc) as (m' & Hm' & Hall).
  assert (m' = m) as -> by congruence.
  assert (Hget : getStmtCount pgo' (ptrE condition) = (true, C)).
  { unfold getStmtCount. by rewrite Hm, HC. }
  destruct (loop_weights_total C LoopCount HL) as [node Hnode].
  exists C. unfold createProfileWeightsWhileLoop. rewrite Hget. simpl.
  destruct (haveRegionCounts pgo'); simpl;
    [destruct (C =? 0)|]; eexists; (split; [done|]);
    (split; [by apply (Hall (ptrE condition))|]); done.
Qed.

Lemma while_adapter_returns_witness :
  ∃ pgo' CondCount node,
    computeRegionCounts (mkFuncDeclaration (Some while_loop)) (counts_of 5 5)
    = Some pgo'
    ∧ getStmtCount pgo' 48%N = (true, CondCount)
    ∧ u64 CondCount
    ∧ createProfileWeightsWhileLoop pgo' 48%N 5 = Some node.
Proof.
  assert (Hc : ∃ pgo', computeRegionCounts (mkFuncDeclaration (Some while_loop))
                         (counts_of 5 5) = Some pgo').
  { eexists. vm_compute. reflexivity. }
  destruct Hc as [pgo' Hc].
  destruct (while_adapter_returns (mkFuncDeclaration (Some while_loop))
              (counts_of 5 5) pgo' while_loop 32
              (Some (OtherExp 48 [])) (Some (CompoundStatement 64 [OtherStatement 80]))
              5) as (CondCount & node & H1 & H2 & H3).
  - repeat constructor; unfold u64; lia.
  - exact Hc.
  - left.
  - left. reflexivity.
  - unfold u64. lia.
  - exists pgo', CondCount, node. split; [exact Hc|]. split; [exact H1|].
    split; [exact H2|exact H3].
Defined.

(** X12.  After [computeRegionCounts], for every for, foreach and foreach
    range statement of the function, the adapter for that kind of loop
    returns: the count it looks up, under the condition of the for
    statement or under the second slot of the statement, is recorded, and
    no assertion fails.  The condition of a for statement, when there is
    one, does not lie at the null address. *)
Theorem statement_adapters_return (FD : FuncDeclaration)
    (pgo pgo' : CodeGenPGO.t) (l : Statement) :
  Forall u64 (RegionCounts pgo) →
  computeRegionCounts FD pgo = Some pgo' →
  l ∈ from_option substatements [] (fbody FD) →
  match l with
  | ForStatement S_ _ condition _ _ =>
      child (λ c, addrE c ≠ nullptr) condition →
      ∃ node, createProfileWeightsForLoop pgo' S_ (ptrE condition) = Some node
  | ForeachStatement S_ _ _ =>
      ∃ node, createProfileWeightsForeach pgo' S_ = Some node
  | ForeachRangeStatement S_ _ _ _ =>
      ∃ node, createProfileWeightsForeachRange pgo' S_ = Some node
  | _ => True
  end.
Proof.
  intros Hu Hc Hl.
  assert (Hfind : ∀ k, condition_key l = Some k →
            ∃ C, getStmtCount pgo' k = (true, C)).
  { intros k Hk.
    destruct (computeRegionCounts_condition FD pgo pgo' l _ Hc Hl Hk)
      as (m & C & Hm & HC & _).
    exists C. unfold getStmtCount. by rewrite Hm, HC. }
  assert (HuL : ∀ S_, u64 (getRegionCount pgo' S_)).
  { intros S_. apply getRegionCount_u64.
    unfold computeRegionCounts in Hc.
    apply bind_Some in Hc as (Walker & _ & [= <-]). done. }
  destruct l; try done.
  - (* for *)
    intros Hnull.
    destruct (Hfind _ eq_refl) as [C HC].
    destruct (loop_weights_total C _ (HuL S)) as [node Hnode].
    unfold createProfileWeightsForLoop.
    assert (Hkey : (if decide (ptrE condition ≠ nullptr) then ptrE condition
                    else getCounterPtr S 1)
                   = match condition with
                     | Some c => addrE c
                     | None => getCounterPtr S 1
                     end).
    { destruct condition as [c|]; simpl in *; [|done].
      case_decide as Hd; [done|]. by destruct Hd. }
    rewrite Hkey, HC. simpl.
    destruct (haveRegionCounts pgo'); simpl; [destruct (C =? 0)|]; eauto.
  - (* foreach *)
    destruct (Hfind _ eq_refl) as [C HC].
    destruct (loop_weights_total C _ (HuL S)) as [node Hnode].
    unfold createProfileWeightsForeach. rewrite HC. simpl.
    destruct (haveRegionCounts pgo'); simpl; [destruct (C =? 0)|]; eauto.
  - (* foreach range *)
    destruct (Hfind _ eq_refl) as [C HC].
    destruct (loop_weights_total C _ (HuL S)) as [node Hnode].
    unfold createProfileWeightsForeachRange. rewrite HC. simpl.
    destruct (haveRegionCounts pgo'); simpl; [destruct (C =? 0)|]; eauto.
Qed.

Lemma statement_adapters_return_witness :
  ∃ pgo' node,
    computeRegionCounts (mkFuncDeclaration (Some foreach_loop)) (counts_of 5 5)
    = Some pgo'
    ∧ createProfileWeightsForeach pgo' 32 = Some node.
Proof.
  assert (Hc : ∃ pgo', computeRegionCounts (mkFuncDeclaration (Some foreach_loop))
                         (counts_of 5 5) = Some pgo').
  { eexists. vm_compute. reflexivity. }
  destruct Hc as [pgo' Hc].
  destruct (statement_adapters_return (mkFuncDeclaration (Some foreach_loop))
              (counts_of 5 5) pgo' foreach_loop) as [node Hnode].
  - repeat constructor; unfold u64; lia.
  - exact Hc.
  - left.
  - exists pgo', node. split; [exact Hc|exact Hnode].
Defined.

(** *** The count that leaves a statement *)

Lemma add64_sub64_cancel p t : u64 p → add64 t (sub64 p t) = p.
Proof.
  unfold u64, add64, sub64, wrap64. generalize (2 ^ 64). intros m Hp.
  rewrite Zplus_mod_idemp_r.
  replace (t + (p - t)) with p by lia. apply Z.mod_small. lia.
Qed.

Lemma sub64_add64_cancel p r : u64 p → sub64 (add64 p r) r = p.
Proof.
  unfold u64, add64, sub64, wrap64. generalize (2 ^ 64). intros m Hp.
  rewrite Zminus_mod_idemp_l.
  replace (p + r - r) with p by lia. apply Z.mod_small. lia.
Qed.

(** The exit count of a loop without break and continue whose body runs
    to its end. *)
Lemma loop_exit_conserved p b :
  u64 p → sub64 (add64 0 (add64 (add64 p b) 0)) b = p.
Proof.
  unfold u64, add64, sub64, wrap64. generalize (2 ^ 64). intros m Hp.
  rewrite !Z.add_0_r, !Z.add_0_l, !Z.mod_mod by lia.
  rewrite Zminus_mod_idemp_l.
  replace (p + b - b) with p by lia. apply Z.mod_small. lia.
Qed.

Lemma do_exit_conserved p b :
  u64 p → sub64 (add64 0 (add64 b 0)) (sub64 b p) = p.
Proof.
  unfold u64, add64, sub64, wrap64. generalize (2 ^ 64). intros m Hp.
  rewrite !Z.add_0_r, !Z.add_0_l, !Z.mod_mod by lia.
  rewrite Zminus_mod_idemp_l, Zminus_mod_idemp_r.
  replace (b - (b - p)) with p by lia. apply Z.mod_small. lia.
Qed.

Lemma CurrentCount_setCount c v : CurrentCount (setCount c v) = c.
Proof. done. Qed.
Lemma CurrentCount_set_CountMap k c v :
  CurrentCount (set_CountMap k c v) = CurrentCount v.
Proof. done. Qed.
Lemma CurrentCount_set_RecordNextStmtCount b v :
  CurrentCount (set_RecordNextStmtCount b v) = CurrentCount v.
Proof. done. Qed.
Lemma CurrentCount_set_BreakContinueStack l v :
  CurrentCount (set_BreakContinueStack l v) = CurrentCount v.
Proof. done. Qed.
Lemma CurrentCount_push_back v : CurrentCount (push_back v) = CurrentCount v.
Proof. done. Qed.

Lemma stack_setCount c v :
  BreakContinueStack (setCount c v) = BreakContinueStack v.
Proof. done. Qed.
Lemma stack_set_CountMap k c v :
  BreakContinueStack (set_CountMap k c v) = BreakContinueStack v.
Proof. done. Qed.
Lemma stack_set_RecordNextStmtCount b v :
  BreakContinueStack (set_RecordNextStmtCount b v) = BreakContinueStack v.
Proof. done. Qed.
Lemma stack_set_BreakContinueStack l v :
  BreakContinueStack (set_BreakContinueStack l v) = l.
Proof. done. Qed.
Lemma stack_push_back v :
  BreakContinueStack (push_back v)
  = BreakContinueStack v ++ [{| BreakCount := 0; ContinueCount := 0 |}].
Proof. done. Qed.
Lemma stack_RecordStmtCount S_ v :
  BreakContinueStack (RecordStmtCount S_ v) = BreakContinueStack v.
Proof. unfold RecordStmtCount. by destruct (RecordNextStmtCount v). Qed.

Create Rewrite HintDb flow.
#[local] Hint Rewrite CurrentCount_setCount CurrentCount_set_CountMap
  CurrentCount_set_RecordNextStmtCount CurrentCount_set_BreakContinueStack
  CurrentCount_push_back CurrentCount_RecordStmtCount
  stack_setCount stack_set_CountMap stack_set_RecordNextStmtCount
  stack_set_BreakContinueStack stack_push_back stack_RecordStmtCount : flow.

Lemma pop_back_val_snoc v below BC :
  BreakContinueStack v = below ++ [BC] →
  pop_back_val v = Some (BC, set_BreakContinueStack below v).
Proof.
  intros Hs. unfold pop_back_val. rewrite Hs, last_snoc. simpl.
  by rewrite removelast_last.
Qed.

Section Conservation.
Variable PGO : CodeGenPGO.t.
Hypothesis raw_u64 : ∀ k, u64 (getRegionCount PGO k).

(** The visit of an expression leaves the current count as it was. *)
Lemma visitE_current e :
  ∀ v v', visitE PGO e v = Some v' → u64 (CurrentCount v) →
          CurrentCount v' = CurrentCount v.
Proof.
  induction e as [E ops IH|E c e1 e2 IHc IH1 IH2|E e1 e2 IH1 IH2|E e1 e2 IH1 IH2]
    using Expression_ind'; intros v v' H Hu; simpl in H.
  - revert v H Hu. induction ops as [|o ops IHo]; intros v H Hu; simpl in H.
    + by injection H as <-.
    + apply Forall_cons in IH as [IHhd IHtl].
      apply bind_Some in H as (v1 & H1 & H).
      apply IHhd in H1; [|done]. rewrite <- H1. apply (IHo IHtl); [done|].
      by rewrite H1.
  - apply bind_Some in H as (v1 & H1 & H).
    apply bind_Some in H as (v2 & H2 & H).
    apply bind_Some in H as (v3 & H3 & [= <-]).
    apply IH1 in H2; [|autorewrite with flow; apply raw_u64].
    apply IH2 in H3; [|autorewrite with flow; apply sub64_range].
    autorewrite with flow in *. rewrite H2, H3.
    by apply add64_sub64_cancel.
  - apply bind_Some in H as (v1 & H1 & H).
    apply bind_Some in H as (v2 & H2 & [= <-]).
    apply IH2 in H2; [|autorewrite with flow; apply raw_u64].
    autorewrite with flow in *. rewrite H2.
    by apply sub64_add64_cancel.
  - apply bind_Some in H as (v1 & H1 & H).
    apply bind_Some in H as (v2 & H2 & [= <-]).
    apply IH2 in H2; [|autorewrite with flow; apply raw_u64].
    autorewrite with flow in *. rewrite H2.
    by apply sub64_add64_cancel.
Qed.

(** The visit of an expression returns, with the current count and the
    stack of loops as they were. *)
Lemma recurse_visitE_conserves exp v :
  u64 (CurrentCount v) →
  ∃ v', recurse (visitE PGO) exp v = Some v'
        ∧ CurrentCount v' = CurrentCount v
        ∧ BreakContinueStack v' = BreakContinueStack v.
Proof.
  intros Hu. destruct (recurse_visitE_total PGO exp v) as [v' Hv].
  exists v'. split; [done|]. destruct exp as [e|]; unfold recurse in Hv.
  - split; [by apply (visitE_current e)|].
    by destruct (visitE_stack PGO e _ _ Hv).
  - by injection Hv as <-.
Qed.

Lemma recurse_child_conserves x v :
  child (conserves PGO) x → u64 (CurrentCount v) →
  ∃ v', recurse (visitS PGO) x v = Some v'
        ∧ CurrentCount v' = CurrentCount v
        ∧ BreakContinueStack v' = BreakContinueStack v.
Proof.
  destruct x as [s|]; unfold recurse; simpl; intros IH Hu; [by apply IH|eauto].
Qed.

Ltac flow_expression :=
  match goal with
  | |- context [recurse (visitE PGO) ?e ?w] =>
      let He := fresh "He" in let Hc := fresh "Hc" in let Hs := fresh "Hs" in
      destruct (recurse_visitE_conserves e w) as (? & He & Hc & Hs);
      [autorewrite with flow; first [assumption|apply raw_u64|apply add64_range
                                     |apply sub64_range|congruence]|];
      rewrite He; cbn [mbind option_bind]; autorewrite with flow in Hc, Hs
  | |- context [visitE PGO ?e ?w] =>
      let He := fresh "He" in let Hc := fresh "Hc" in let Hs := fresh "Hs" in
      destruct (recurse_visitE_conserves (Some e) w) as (? & He & Hc & Hs);
      [autorewrite with flow; first [assumption|apply raw_u64|apply add64_range
                                     |apply sub64_range|congruence]|];
      unfold recurse in He;
      rewrite He; cbn [mbind option_bind]; autorewrite with flow in Hc, Hs
  end.

Ltac flow_child :=
  match goal with
  | IH : child (conserves PGO) ?x |- context [recurse (visitS PGO) ?x ?w] =>
      let Hb := fresh "Hb" in let Hc := fresh "Hc" in let Hs := fresh "Hs" in
      destruct (recurse_child_conserves x w IH) as (? & Hb & Hc & Hs);
      [autorewrite with flow; first [assumption|apply raw_u64|apply add64_range
                                     |apply sub64_range|congruence]|];
      rewrite Hb; cbn [mbind option_bind]; autorewrite with flow in Hc, Hs
  end.

Ltac flow_pop :=
  match goal with
  | Hs : BreakContinueStack ?w = _ ++ [_] |- context [pop_back_val ?w] =>
      rewrite (pop_back_val_snoc w _ _ Hs); cbn [mbind option_bind]
  end.

Ltac flow_done :=
  eexists; split; [reflexivity|]; autorewrite with flow; cbn [BreakCount ContinueCount];
  split; [|congruence];
  repeat match goal with H : CurrentCount _ = _ |- _ => rewrite H end.

Lemma jump_free_child x :
  child (λ s, jump_free s = true → conserves PGO s) x →
  from_option jump_free true x = true → child (conserves PGO) x.
Proof. destruct x as [s|]; simpl; [|done]. intros IH Hj. by apply IH. Qed.

(** A statement without jumps conserves the current count. *)
Lemma visitS_conserves s : jump_free s = true → conserves PGO s.
Proof.
  induction s using Statement_ind'; intros Hj; try discriminate Hj;
    simpl in Hj;
    repeat match goal with
           | H : _ && _ = true |- _ => apply andb_true_iff in H as [? ?]
           end;
    repeat match goal with
           | IH : child (λ s, jump_free s = true → conserves PGO s) ?x,
             Hx : from_option jump_free true ?x = true |- _ =>
               apply (jump_free_child x) in IH; [|exact Hx]
           end;
    intros v Hu; cbn [visitS].
  - (* a plain statement *)
    eexists. split; [reflexivity|]. by autorewrite with flow.
  - (* an expression statement *)
    flow_expression. eexists. split; [reflexivity|]. split; congruence.
  - (* compound *)
    revert v Hu. induction statements as [|s ss IHss]; intros v Hu; simpl.
    { eauto. }
    apply Forall_cons in H as [Hhd Htl].
    simpl in Hj. apply andb_true_iff in Hj as [Hj1 Hj2].
    destruct (Hhd Hj1 v Hu) as (v1 & Hv1 & Hc1 & Hs1). rewrite Hv1. simpl.
    destruct (IHss Htl Hj2 v1) as (v2 & Hv2 & Hc2 & Hs2); [congruence|].
    exists v2. split; [done|]. split; congruence.
  - (* while *)
    flow_child. flow_pop. flow_expression. flow_done.
    by apply loop_exit_conserved.
  - (* do *)
    flow_child. flow_pop. flow_expression. flow_done.
    by apply do_exit_conserved.
  - (* for *)
    flow_child. flow_child. flow_pop.
    destruct increment; cbn [mbind option_bind].
    + flow_expression. flow_expression. flow_done.
      apply loop_exit_conserved. congruence.
    + flow_expression. flow_done. apply loop_exit_conserved. congruence.
  - (* foreach *)
    flow_expression. flow_child. flow_pop. flow_done.
    apply loop_exit_conserved. congruence.
  - (* foreach range *)
    flow_expression. flow_expression. flow_child. flow_pop. flow_done.
    apply loop_exit_conserved. congruence.
  - (* if *)
    flow_expression. flow_child.
    destruct elsebody as [e|]; simpl in *.
    + match goal with
      | IH : conserves PGO e |- context [visitS PGO e ?w] =>
          destruct (IH w) as (ve & Hve & Hce & Hse);
          [autorewrite with flow; apply sub64_range|];
          rewrite Hve; cbn [mbind option_bind]; autorewrite with flow in Hce, Hse
      end.
      flow_done. by apply add64_sub64_cancel.
    + flow_done. by apply add64_sub64_cancel.
Qed.

(** The foreach loops whose body has no jumps. *)
Lemma foreach_visit S_ aggr _body v :
  child (conserves PGO) _body → u64 (CurrentCount v) →
  ∃ v', visitS PGO (ForeachStatement S_ aggr _body) v = Some v'
        ∧ CurrentCount v' = CurrentCount v
        ∧ BreakContinueStack v' = BreakContinueStack v
        ∧ CountMap v' !! getCounterPtr S_ 1
          = Some (add64 (add64 (CurrentCount v) (getRegionCount PGO S_)) 0).
Proof.
  intros IH Hu. cbn [visitS].
  flow_expression. flow_child. flow_pop.
  eexists. split; [reflexivity|]. autorewrite with flow.
  cbn [BreakCount ContinueCount].
  repeat match goal with H : CurrentCount _ = _ |- _ => rewrite H end.
  split; [apply loop_exit_conserved; congruence|]. split; [congruence|].
  unfold set_RecordNextStmtCount, setCount, set_CountMap. simpl.
  by rewrite lookup_insert_eq.
Qed.

Lemma foreach_range_visit S_ lwr upr _body v :
  child (conserves PGO) _body → u64 (CurrentCount v) →
  ∃ v', visitS PGO (ForeachRangeStatement S_ lwr upr _body) v = Some v'
        ∧ CurrentCount v' = CurrentCount v
        ∧ BreakContinueStack v' = BreakContinueStack v
        ∧ CountMap v' !! getCounterPtr S_ 1
          = Some (add64 (add64 (CurrentCount v) (getRegionCount PGO S_)) 0).
Proof.
  intros IH Hu. cbn [visitS].
  flow_expression. flow_expression. flow_child. flow_pop.
  eexists. split; [reflexivity|]. autorewrite with flow.
  cbn [BreakCount ContinueCount].
  repeat match goal with H : CurrentCount _ = _ |- _ => rewrite H end.
  split; [apply loop_exit_conserved; congruence|]. split; [congruence|].
  unfold set_RecordNextStmtCount, setCount, set_CountMap. simpl.
  by rewrite lookup_insert_eq.
Qed.

(** The for statements whose initializer and body have no jumps. *)
Lemma for_visit S_ _init condition increment _body v :
  child (conserves PGO) _init → child (conserves PGO) _body →
  distinct_nodes condition → u64 (CurrentCount v) →
  ∃ v', visitS PGO (ForStatement S_ _init condition increment _body) v = Some v'
        ∧ CurrentCount v' = CurrentCount v
        ∧ BreakContinueStack v' = BreakContinueStack v
        ∧ CountMap v' !! (match condition with
                          | Some c => addrE c
                          | None => getCounterPtr S_ 1
                          end)
          = Some (add64 (add64 (CurrentCount v) (getRegionCount PGO S_)) 0).
Proof.
  intros IHi IHb Hnd Hu. cbn [visitS].
  flow_child. flow_child. flow_pop.
  assert (Hcond : ∀ w,
            u64 (CurrentCount w) →
            ∃ x, recurse (visitE PGO) condition
                   (set_CountMap (match condition with
                                  | Some c => addrE c
                                  | None => getCounterPtr S_ 1
                                  end) (CurrentCount w) w) = Some x
                 ∧ CurrentCount x = CurrentCount w
                 ∧ BreakContinueStack x = BreakContinueStack w
                 ∧ CountMap x !! (match condition with
                                  | Some c => addrE c
                                  | None => getCounterPtr S_ 1
                                  end) = Some (CurrentCount w)).
  { intros w Hw.
    destruct (recurse_visitE_conserves condition
                (set_CountMap (match condition with
                               | Some c => addrE c
                               | None => getCounterPtr S_ 1
                               end) (CurrentCount w) w)) as (xc & Hx & Hcx & Hsx).
    { by autorewrite with flow. }
    exists xc. autorewrite with flow in Hcx, Hsx.
    split; [done|]. split; [done|]. split; [done|].
    destruct condition as [c|].
    - apply (recurse_visitE_keeps PGO (Some c) _ xc _ Hx Hnd); [|done].
      simpl. unfold set_CountMap. simpl. by rewrite lookup_insert_eq.
    - unfold recurse in Hx. injection Hx as <-.
      unfold set_CountMap. simpl. by rewrite lookup_insert_eq. }
  destruct increment as [inc|]; cbn [mbind option_bind].
  - flow_expression.
    match goal with
    | |- context [recurse (visitE PGO) condition
                    (set_CountMap ?key ?c (setCount ?c ?w))] =>
        destruct (Hcond (setCount c w)) as (x' & Hx' & Hcx' & Hsx' & Hmx');
        [autorewrite with flow; apply add64_range|];
        autorewrite with flow in Hx', Hcx', Hsx', Hmx';
        rewrite Hx'; cbn [mbind option_bind]
    end.
    eexists. split; [reflexivity|]. autorewrite with flow.
    cbn [BreakCount ContinueCount].
    repeat match goal with H : CurrentCount _ = _ |- _ => rewrite H in * end.
    split; [apply loop_exit_conserved; congruence|]. split; [congruence|].
    exact Hmx'.
  - match goal with
    | |- context [recurse (visitE PGO) condition
                    (set_CountMap ?key ?c (setCount ?c ?w))] =>
        destruct (Hcond (setCount c w)) as (x' & Hx' & Hcx' & Hsx' & Hmx');
        [autorewrite with flow; apply add64_range|];
        autorewrite with flow in Hx', Hcx', Hsx', Hmx';
        rewrite Hx'; cbn [mbind option_bind]
    end.
    eexists. split; [reflexivity|]. autorewrite with flow.
    cbn [BreakCount ContinueCount].
    repeat match goal with H : CurrentCount _ = _ |- _ => rewrite H in * end.
    split; [apply loop_exit_conserved; congruence|]. split; [congruence|].
    exact Hmx'.
Qed.

End Conservation.

Lemma raw_counts_u64 pgo :
  Forall u64 (RegionCounts pgo) → ∀ k, u64 (getRegionCount pgo k).
Proof. intros Hu k. by apply getRegionCount_u64. Qed.

(** X13.  The visit of an expression returns and leaves the current count
    as it found it, and the stack of loops and the labels too, whatever
    the raw counters of the conditional and logical operators in it are, as
    long as the counts are 64-bit values: an expression is left where it is
    entered. *)
Theorem visitE_conserves (PGO : CodeGenPGO.t) (e : Expression)
    (v : ComputeRegionCounts.t) :
  Forall u64 (RegionCounts PGO) → u64 (CurrentCount v) →
  ∃ v', visitE PGO e v = Some v'
        ∧ CurrentCount v' = CurrentCount v
        ∧ BreakContinueStack v' = BreakContinueStack v
        ∧ LoopLabels v' = LoopLabels v.
Proof.
  intros Hraw Hu. destruct (visitE_total PGO e v) as [v' Hv]. exists v'.
  split; [done|].
  split; [by apply (visitE_current PGO (raw_counts_u64 PGO Hraw) e)|].
  apply (visitE_stack PGO e _ _ Hv).
Qed.

Lemma visitE_conserves_witness :
  ∃ v', visitE (counts_of 100 60) conditional (setCount 100 init) = Some v'
        ∧ CurrentCount v' = 100.
Proof.
  destruct (visitE_conserves (counts_of 100 60) conditional (setCount 100 init))
    as (v' & Hv & Hc & _).
  - repeat constructor; unfold u64; lia.
  - unfold u64. simpl. lia.
  - exists v'. split; [exact Hv|exact Hc].
Defined.

(** X14.  The visit of a statement that holds no jump (no return, throw,
    goto, break or continue, no label, switch or try statement) returns and
    leaves the current count as it found it, and the stack of loops too, as
    long as the counts are 64-bit values, whatever the raw counters of the
    loops and branches in it are: the count that leaves an if statement or
    a loop is the count that enters it. *)
Theorem jump_free_conserves (PGO : CodeGenPGO.t) (s : Statement)
    (v : ComputeRegionCounts.t) :
  Forall u64 (RegionCounts PGO) → jump_free s = true → u64 (CurrentCount v) →
  ∃ v', visitS PGO s v = Some v'
        ∧ CurrentCount v' = CurrentCount v
        ∧ BreakContinueStack v' = BreakContinueStack v.
Proof.
  intros Hraw Hj Hu.
  by apply (visitS_conserves PGO (raw_counts_u64 PGO Hraw) s Hj v).
Qed.

Lemma jump_free_conserves_witness :
  ∃ v', visitS (counts_of 5 7) while_loop (setCount 5 init) = Some v'
        ∧ CurrentCount v' = 5.
Proof.
  destruct (jump_free_conserves (counts_of 5 7) while_loop (setCount 5 init))
    as (v' & Hv & Hc & _).
  - repeat constructor; unfold u64; lia.
  - reflexivity.
  - unfold u64. simpl. lia.
  - exists v'. split; [exact Hv|exact Hc].
Defined.

(** *** Without raw counts *)

Lemma getRegionCount_without_counts pgo k :
  haveRegionCounts pgo = false → getRegionCount pgo k = 0.
Proof.
  intros H. unfold getRegionCount. rewrite H. by destruct (RegionCounterMap pgo).
Qed.

(** X15.  When no region counts are loaded, [computeRegionCounts] records
    the count 0 for every key it records a count for; accordingly no pair
    of recorded counts has weights, and no loop adapter returns weights. *)
Theorem computeRegionCounts_without_counts (FD : FuncDeclaration)
    (pgo pgo' : CodeGenPGO.t) :
  haveRegionCounts pgo = false →
  computeRegionCounts FD pgo = Some pgo' →
  ∃ m, StmtCountMap pgo' = Some m
       ∧ (∀ k c, m !! k = Some c → c = 0)
       ∧ (∀ k1 k2 c1 c2, m !! k1 = Some c1 → m !! k2 = Some c2 →
                         createProfileWeights c1 c2 = Some null)
       ∧ haveRegionCounts pgo' = false
       ∧ ∀ stmt condition LoopCount,
           createProfileWeightsWhileLoop pgo' condition LoopCount = Some null
           ∧ createProfileWeightsForLoop pgo' stmt condition = Some null
           ∧ createProfileWeightsForeach pgo' stmt = Some null
           ∧ createProfileWeightsForeachRange pgo' stmt = Some null.
Proof.
  intros Hnone Hc.
  destruct (computeRegionCounts_within pgo (λ c, c = 0)) with (FD := FD) (pgo' := pgo')
    as (m & Hm & Hall); try done.
  - by intros a b -> ->.
  - by intros a b -> ->.
  - intros k. by apply getRegionCount_without_counts.
  - assert (Hnone' : haveRegionCounts pgo' = false).
    { unfold computeRegionCounts in Hc.
      apply bind_Some in Hc as (Walker & _ & [= <-]). exact Hnone. }
    exists m. split; [done|]. split; [exact Hall|]. split.
    + intros k1 k2 c1 c2 H1 H2. apply Hall in H1, H2. by subst.
    + split; [exact Hnone'|]. intros stmt condition LoopCount.
      unfold createProfileWeightsWhileLoop, createProfileWeightsForLoop,
        createProfileWeightsForeach, createProfileWeightsForeachRange.
      by rewrite Hnone'.
Qed.

Lemma computeRegionCounts_without_counts_witness :
  ∃ pgo' m, computeRegionCounts (mkFuncDeclaration (Some while_loop)) empty_profile
            = Some pgo'
            ∧ StmtCountMap pgo' = Some m
            ∧ ∀ k c, m !! k = Some c → c = 0.
Proof.
  assert (Hc : ∃ pgo', computeRegionCounts (mkFuncDeclaration (Some while_loop))
                         empty_profile = Some pgo').
  { eexists. vm_compute. reflexivity. }
  destruct Hc as [pgo' Hc].
  destruct (computeRegionCounts_without_counts
              (mkFuncDeclaration (Some while_loop)) empty_profile pgo' eq_refl Hc)
    as (m & Hm & Hz & _).
  exists pgo', m. split; [exact Hc|]. split; [exact Hm|exact Hz].
Defined.

(** *** The weights of a loop *)

Lemma loop_weights_pair P B :
  u64 P → u64 B → P + B < 2 ^ 64 →
  let Cond := add64 (add64 P B) 0 in
  Cond = P + B
  ∧ (if Cond =? 0 then Some null
     else createProfileWeights B (sub64 (Z.max Cond B) B))
    = createProfileWeights B P.
Proof.
  unfold u64. intros HP HB Hsum. cbv zeta.
  assert (HC : add64 (add64 P B) 0 = P + B).
  { rewrite (add64_exact P B) by lia. rewrite add64_exact by lia. lia. }
  split; [exact HC|]. rewrite HC.
  destruct (P + B =? 0) eqn:E.
  - apply Z.eqb_eq in E. assert (P = 0 ∧ B = 0) as [-> ->] by lia. done.
  - rewrite Z.max_l by lia. rewrite sub64_exact by (unfold u64; lia).
    f_equal. lia.
Qed.

(** X16.  For a foreach statement and for a foreach range statement whose
    body holds no jump, visited with the current count [P] and with the raw
    counter [B], where [P + B] is below 2^64: the visit returns with the
    current count [P]; the count recorded under the second slot of the
    statement is [P + B]; and with region counts loaded the adapter of the
    statement, over the counts that the visit leaves, returns the weights of
    the pair ([B], [P]): the body against the exit. *)
Theorem foreach_weights (PGO : CodeGenPGO.t) (S_ : ptr)
    (aggr lwr upr : option Expression) (_body : option Statement)
    (v : ComputeRegionCounts.t) :
  let P := CurrentCount v in
  let B := getRegionCount PGO S_ in
  Forall u64 (RegionCounts PGO) → haveRegionCounts PGO = true →
  from_option jump_free true _body = true →
  u64 P → P + B < 2 ^ 64 →
  (∃ v', visitS PGO (ForeachStatement S_ aggr _body) v = Some v'
         ∧ CurrentCount v' = P
         ∧ CountMap v' !! getCounterPtr S_ 1 = Some (P + B)
         ∧ createProfileWeightsForeach (counted PGO v') S_
           = createProfileWeights B P)
  ∧ (∃ v', visitS PGO (ForeachRangeStatement S_ lwr upr _body) v = Some v'
           ∧ CurrentCount v' = P
           ∧ CountMap v' !! getCounterPtr S_ 1 = Some (P + B)
           ∧ createProfileWeightsForeachRange (counted PGO v') S_
             = createProfileWeights B P).
Proof.
  intros P B Hraw Hhave Hj HP Hsum.
  pose proof (raw_counts_u64 PGO Hraw) as Hu.
  assert (IH : child (conserves PGO) _body).
  { destruct _body as [s|]; simpl in *; [|done]. by apply visitS_conserves. }
  destruct (loop_weights_pair P B HP (Hu S_) Hsum) as [HC Hw].
  split.
  - destruct (foreach_visit PGO Hu S_ aggr _body v IH HP) as (v' & Hv & Hc & _ & Hm).
    exists v'. split; [done|]. split; [done|]. fold P B in Hm. rewrite HC in Hm.
    split; [done|].
    unfold createProfileWeightsForeach, getStmtCount. cbn [counted StmtCountMap].
    change (haveRegionCounts (counted PGO v')) with (haveRegionCounts PGO).
    change (getRegionCount (counted PGO v') S_) with B.
    rewrite Hhave, Hm. simpl. rewrite <- HC. exact Hw.
  - destruct (foreach_range_visit PGO Hu S_ lwr upr _body v IH HP)
      as (v' & Hv & Hc & _ & Hm).
    exists v'. split; [done|]. split; [done|]. fold P B in Hm. rewrite HC in Hm.
    split; [done|].
    unfold createProfileWeightsForeachRange, getStmtCount. cbn [counted StmtCountMap].
    change (haveRegionCounts (counted PGO v')) with (haveRegionCounts PGO).
    change (getRegionCount (counted PGO v') S_) with B.
    rewrite Hhave, Hm. simpl. rewrite <- HC. exact Hw.
Qed.

Lemma foreach_weights_witness :
  ∃ v', visitS (counts_of 5 50) foreach_loop (setCount 5 init) = Some v'
        ∧ CountMap v' !! 33%N = Some 55
        ∧ createProfileWeightsForeach (counted (counts_of 5 50) v') 32
          = Some (BranchWeights [51; 6]).
Proof.
  destruct (foreach_weights (counts_of 5 50) 32 (Some (OtherExp 48 [])) None None
              (Some (OtherStatement 64)) (setCount 5 init))
    as [(v' & Hv & _ & Hm & Hw) _].
  - repeat constructor; unfold u64; lia.
  - reflexivity.
  - reflexivity.
  - unfold u64. simpl. lia.
  - vm_compute. reflexivity.
  - exists v'. split; [exact Hv|]. split; [exact Hm|]. rewrite Hw. reflexivity.
Defined.

(** X17.  For a for statement whose initializer and body hold no jump
    and whose condition, when there is one, is an expression without a
    repeated node that does not lie at the null address, visited with the
    current count [P] and with the raw counter [B], where [P + B] is below
    2^64: the visit returns with the current count [P]; the count [P + B]
    is recorded for the condition, or under the second slot of the
    statement when there is no condition; and with region counts loaded the
    adapter for for statements, over the counts that the visit leaves,
    returns the weights of the pair ([B], [P]). *)
Theorem for_weights (PGO : CodeGenPGO.t) (S_ : ptr) (_init : option Statement)
    (condition increment : option Expression) (_body : option Statement)
    (v : ComputeRegionCounts.t) :
  let P := CurrentCount v in
  let B := getRegionCount PGO S_ in
  let key := match condition with
             | Some c => addrE c
             | None => getCounterPtr S_ 1
             end in
  Forall u64 (RegionCounts PGO) → haveRegionCounts PGO = true →
  from_option jump_free true _init = true →
  from_option jump_free true _body = true →
  distinct_nodes condition → child (λ c, addrE c ≠ nullptr) condition →
  u64 P → P + B < 2 ^ 64 →
  ∃ v', visitS PGO (ForStatement S_ _init condition increment _body) v = Some v'
        ∧ CurrentCount v' = P
        ∧ CountMap v' !! key = Some (P + B)
        ∧ createProfileWeightsForLoop (counted PGO v') S_ (ptrE condition)
          = createProfileWeights B P.
Proof.
  intros P B key Hraw Hhave Hji Hjb Hnd Hnull HP Hsum.
  pose proof (raw_counts_u64 PGO Hraw) as Hu.
  assert (IHi : child (conserves PGO) _init).
  { destruct _init as [s|]; simpl in *; [|done]. by apply visitS_conserves. }
  assert (IHb : child (conserves PGO) _body).
  { destruct _body as [s|]; simpl in *; [|done]. by apply visitS_conserves. }
  destruct (loop_weights_pair P B HP (Hu S_) Hsum) as [HC Hw].
  destruct (for_visit PGO Hu S_ _init condition increment _body v IHi IHb Hnd HP)
    as (v' & Hv & Hc & _ & Hm).
  exists v'. split; [done|]. split; [done|]. fold P B key in Hm. rewrite HC in Hm.
  split; [done|].
  assert (Hkey : (if decide (ptrE condition ≠ nullptr) then ptrE condition
                  else getCounterPtr S_ 1) = key).
  { subst key. destruct condition as [c|]; simpl in *; [|done].
    case_decide as Hd; [done|]. by destruct Hd. }
  unfold createProfileWeightsForLoop, getStmtCount. cbn [counted StmtCountMap].
  change (haveRegionCounts (counted PGO v')) with (haveRegionCounts PGO).
  change (getRegionCount (counted PGO v') S_) with B.
  rewrite Hhave, Hkey, Hm. simpl. rewrite <- HC. exact Hw.
Qed.

Lemma for_weights_witness :
  ∃ v', visitS (counts_of 5 50) for_loop (setCount 5 init) = Some v'
        ∧ CountMap v' !! 33%N = Some 55
        ∧ createProfileWeightsForLoop (counted (counts_of 5 50) v') 32 nullptr
          = Some (BranchWeights [51; 6]).
Proof.
  destruct (for_weights (counts_of 5 50) 32 None None (Some (OtherExp 48 []))
              (Some (OtherStatement 64)) (setCount 5 init))
    as (v' & Hv & _ & Hm & Hw).
  - repeat constructor; unfold u64; lia.
  - reflexivity.
  - reflexivity.
  - reflexivity.
  - exact I.
  - exact I.
  - unfold u64. simpl. lia.
  - vm_compute. reflexivity.
  - exists v'. split; [exact Hv|]. split; [exact Hm|].
    etrans; [exact Hw|]. vm_compute. reflexivity.
Defined.

(** *** The statement that follows *)




(** *** A break or continue statement outside a loop *)



End CountingProperties.

(** ** The entry points of the code generator *)

Section EntryProperties.
Import CodeGenPGO MapRegionCounters EntryPoints.

Lemma walk_function_dense fbody children :
  well_formed (nodes (Tr (FuncDeclaration fbody) children)) = true →
  capacity (nodes (Tr (FuncDeclaration fbody) children)) < 2 ^ 32 →
  dense (walk (Tr (FuncDeclaration fbody) children) init)
  ∧ CounterMap (walk (Tr (FuncDeclaration fbody) children) init) !! fbody = Some 0.
Proof.
  intros Hwf Hcap.
  set (ns := nodes (Tr (FuncDeclaration fbody) children)) in *.
  assert (Hfd : FuncDeclaration fbody ∈ ns) by (by left).
  assert (Hinit : inv ns init) by (split; [apply dense_init|apply keyed_init]).
  pose proof (capacity_nonneg (children ≫= nodes)) as Hcn.
  assert (Hcap' : 1 + capacity (children ≫= nodes) < 2 ^ 32) by exact Hcap.
  pose proof (visit_advances ns Hwf _ init Hfd Hinit ltac:(simpl; lia)) as Hvisit.
  change (visit (FuncDeclaration fbody) init) with (assign fbody init) in Hvisit.
  destruct (walk_children_advances ns Hwf children (assign fbody init))
    as [(Hinvf & Hbf & Hsubf & _) _].
  { intros x Hx. apply elem_of_cons. by right. }
  { apply Hvisit. }
  { done. }
  { change (NextCounter (assign fbody init)) with 1. lia. }
  change (walk (Tr (FuncDeclaration fbody) children) init)
    with (foldl (λ v c, walk c v) (assign fbody init) children).
  split; [apply Hinvf|].
  apply (lookup_weaken (CounterMap (assign fbody init))); [|done].
  simpl. by rewrite lookup_insert_eq.
Qed.

Lemma mapRegionCounters_returns MD5_final fbody children pgo :
  well_formed (nodes (Tr (FuncDeclaration fbody) children)) = true →
  capacity (nodes (Tr (FuncDeclaration fbody) children)) < 2 ^ 32 →
  ∃ pgo' m,
    mapRegionCounters MD5_final fbody children pgo = Some pgo'
    ∧ RegionCounterMap pgo' = Some m
    ∧ m !! fbody = Some 0
    ∧ (∀ k i, m !! k = Some i → 0 <= i < NumRegionCounters pgo')
    ∧ (∀ n p, n ∈ children ≫= reached → first_key n = Some p → is_Some (m !! p)).
Proof.
  intros Hwf Hcap.
  destruct (walk_function_dense fbody children Hwf Hcap) as [Hd Hbody].
  destruct (walk_function fbody children Hcap) as (visited & _ & _ & _ & _ & _ & Hf).
  destruct Hd as [Hrange _ _ Hsize].
  pose proof (Hrange _ _ Hbody) as Hpos.
  unfold mapRegionCounters.
  destruct (0 <? NextCounter _) eqn:E1; [|apply Z.ltb_ge in E1; lia].
  destruct (NextCounter _ =? Z.of_nat (size (CounterMap _))) eqn:E2;
    [|apply Z.eqb_neq in E2; done].
  simpl. eexists _, _. split; [reflexivity|]. simpl. split; [reflexivity|].
  split; [done|]. split; [done|done].
Qed.

Lemma mapRegionCounters_keys_null MD5_final fbody children pgo pgo' :
  capacity (nodes (Tr (FuncDeclaration fbody) children)) < 2 ^ 32 →
  fbody ≠ nullptr →
  nullptr ∉ (children ≫= reached) ≫= keys_of →
  mapRegionCounters MD5_final fbody children pgo = Some pgo' →
  ∃ m, RegionCounterMap pgo' = Some m ∧ m !! nullptr = None
       ∧ FuncName pgo' = FuncName pgo ∧ RegionCounts pgo' = RegionCounts pgo.
Proof.
  intros Hcap Hbody Hnull Hmap.
  destruct (walk_function fbody children Hcap)
    as (visited & Hs & _ & _ & _ & Hd & _).
  unfold mapRegionCounters in Hmap.
  destruct (negb (0 <? NextCounter _)); [done|].
  destruct (negb (NextCounter _ =? _)); [done|].
  injection Hmap as <-. simpl. eexists. split; [reflexivity|]. split; [|done].
  apply eq_None_not_Some. intros Hk. apply Hd in Hk as [Hk|Hk].
  - simpl in Hk. rewrite lookup_insert in Hk.
    case_decide; [done|]. rewrite lookup_empty in Hk. by destruct Hk.
  - apply Hnull. apply list_elem_of_bind in Hk as (n & Hk & Hn).
    apply list_elem_of_bind. exists n. split; [done|].
    by apply (elem_of_sublist visited).
Qed.

Lemma loadRegionCounts_fields logging reader pretty pgo :
  (loadRegionCounts logging reader pretty pgo).1
  = set_RegionCounts
      (if (reader (FuncName pgo) (FunctionHash pgo)).1 is success
       then (reader (FuncName pgo) (FunctionHash pgo)).2 else []) pgo.
Proof.
  unfold loadRegionCounts.
  change (FuncName (set_RegionCounts [] pgo)) with (FuncName pgo).
  change (FunctionHash (set_RegionCounts [] pgo)) with (FunctionHash pgo).
  destruct (reader (FuncName pgo) (FunctionHash pgo)) as [EC Counts].
  by destruct EC.
Qed.

Lemma computeRegionCounts_fields FD pgo pgo' :
  ComputeRegionCounts.computeRegionCounts FD pgo = Some pgo' →
  FuncName pgo' = FuncName pgo
  ∧ NumRegionCounters pgo' = NumRegionCounters pgo
  ∧ FunctionHash pgo' = FunctionHash pgo
  ∧ RegionCounterMap pgo' = RegionCounterMap pgo
  ∧ RegionCounts pgo' = RegionCounts pgo.
Proof.
  unfold ComputeRegionCounts.computeRegionCounts. intros H.
  apply bind_Some in H as (W & _ & [= <-]). done.
Qed.

Section Globals.
Variable LDC_LLVM_VER : Z.
Variable genInstrProf : bool.
Variable getPGOFuncName : string → LinkageTypes → string.
Variable createPGOFuncNameVar : LinkageTypes → string → GlobalVariable.

Lemma setFuncName_Some Name Linkage st st1 :
  setFuncName LDC_LLVM_VER genInstrProf getPGOFuncName createPGOFuncNameVar
    Name Linkage st = Some st1 →
  ∃ name gv,
    st1 = set_FuncNameVar gv (set_FuncName name st)
    ∧ (if genInstrProf && emitInstrumentation st then is_Some gv
       else gv = FuncNameVar st).
Proof.
  unfold setFuncName. intros H.
  destruct (308 <=? LDC_LLVM_VER).
  - change (emitInstrumentation (set_FuncName _ st)) with (emitInstrumentation st) in H.
    destruct (genInstrProf && emitInstrumentation st); injection H as <-.
    + eexists _, _. split; [reflexivity|]. eauto.
    + exists (getPGOFuncName Name Linkage), (FuncNameVar st). by destruct st.
  - destruct Name as [|c rest]; [done|].
    change (emitInstrumentation (set_FuncName _ st)) with (emitInstrumentation st) in H.
    destruct (genInstrProf && emitInstrumentation st); injection H as <-.
    + eexists _, _. split; [reflexivity|]. eauto.
    + eexists _, (FuncNameVar st). split; [|done]. by destruct st.
Qed.

Lemma setFuncName_is_Some Name Linkage st :
  308 <= LDC_LLVM_VER ∨ Name ≠ EmptyString →
  is_Some (setFuncName LDC_LLVM_VER genInstrProf getPGOFuncName
             createPGOFuncNameVar Name Linkage st).
Proof.
  intros H. unfold setFuncName.
  destruct (308 <=? LDC_LLVM_VER) eqn:E.
  - destruct (genInstrProf && _); eauto.
  - apply Z.leb_gt in E. destruct H as [H|H]; [lia|].
    destruct Name; [done|]. destruct (genInstrProf && _); eauto.
Qed.

End Globals.

(** X20.  Code generation with instrumentation: for a declaration that
    asks for instrumentation, whose objects are laid out as objects are and
    that has fewer than 2^32 counters, [assignRegionCounters] returns and
    creates the variable with the name; afterwards [emitCounterIncrement]
    finds the body of the function and every node of the function that
    takes a counter in the counter map, and creates one call each, over the
    name variable, the hash and the number of counters of the function,
    with an index below the number of counters; the index of the body is
    0.  With a reader the body has no labelled or stray break and continue
    statement; builds with LLVM before 3.8 need a name that is not
    empty. *)
Theorem emitCounterIncrement_in_range (LDC_LLVM_VER : Z) (logging : bool)
    (PGOReader : option IndexedInstrProfReader)
    (getPGOFuncName : string → LinkageTypes → string)
    (createPGOFuncNameVar : LinkageTypes → string → GlobalVariable)
    (MD5_final : list Z → list Z) (D : Declaration) (fn : Function)
    (st : EntryPoints.t) :
  D_emitInstrumentation D = true →
  308 <= LDC_LLVM_VER ∨ getName fn ≠ EmptyString →
  well_formed (nodes (Tr (FuncDeclaration (D_fbody D)) (D_children D))) = true →
  capacity (nodes (Tr (FuncDeclaration (D_fbody D)) (D_children D))) < 2 ^ 32 →
  (is_Some PGOReader →
   from_option (safe false) true (ComputeRegionCounts.fbody (D_statements D))
   = true) →
  ∃ st' out entry,
    assignRegionCounters LDC_LLVM_VER true logging PGOReader getPGOFuncName
      createPGOFuncNameVar MD5_final D fn st = Some (st', out, entry)
    ∧ is_Some (FuncNameVar st')
    ∧ (∃ I, emitCounterIncrement true st' (D_fbody D) = Some [I] ∧ Index I = 0)
    ∧ ∀ n p, n ∈ D_children D ≫= reached → first_key n = Some p →
        ∃ I, emitCounterIncrement true st' p = Some [I]
             ∧ NameVar I = FuncNameVar st'
             ∧ EntryPoints.Hash I = FunctionHash (PGO st')
             ∧ NumCounters I = NumRegionCounters (PGO st')
             ∧ 0 <= Index I < NumCounters I.
Proof.
  intros Hemit Hname Hwf Hcap Hsafe.
  destruct (setFuncName_is_Some LDC_LLVM_VER true getPGOFuncName
              createPGOFuncNameVar (getName fn) (getLinkage fn)
              (set_emitInstrumentation (D_emitInstrumentation D) st) Hname)
    as [st1 Hset].
  destruct (setFuncName_Some _ _ _ _ _ _ _ _ Hset) as (name & gv & -> & Hgv).
  change (emitInstrumentation (set_emitInstrumentation _ st))
    with (D_emitInstrumentation D) in Hgv.
  rewrite Hemit in Hgv. simpl in Hgv.
  set (st1 := set_FuncNameVar gv _) in *.
  destruct (mapRegionCounters_returns MD5_final (D_fbody D) (D_children D)
              (PGO st1) Hwf Hcap) as (pgo1 & m & Hmap & Hm & Hbody & Hrange & Hkeys).
  assert (Hinc : ∀ pgo k i,
            RegionCounterMap pgo = Some m → m !! k = Some i →
            emitCounterIncrement true (set_PGO pgo st1) k
            = Some [ {| NameVar := gv; EntryPoints.Hash := FunctionHash pgo;
                        NumCounters := NumRegionCounters pgo; Index := i |} ]).
  { intros pgo k i Hp Hk. unfold emitCounterIncrement.
    change (PGO (set_PGO pgo st1)) with pgo. rewrite Hp.
    change (emitInstrumentation (set_PGO pgo st1)) with (D_emitInstrumentation D).
    rewrite Hemit. simpl. rewrite Hk. done. }
  assert (Hall : ∀ pgo,
            RegionCounterMap pgo = Some m →
            NumRegionCounters pgo = NumRegionCounters pgo1 →
            is_Some (FuncNameVar (set_PGO pgo st1))
            ∧ (∃ I, emitCounterIncrement true (set_PGO pgo st1) (D_fbody D)
                    = Some [I] ∧ Index I = 0)
            ∧ ∀ n p, n ∈ D_children D ≫= reached → first_key n = Some p →
                ∃ I, emitCounterIncrement true (set_PGO pgo st1) p = Some [I]
                     ∧ NameVar I = FuncNameVar (set_PGO pgo st1)
                     ∧ EntryPoints.Hash I = FunctionHash (PGO (set_PGO pgo st1))
                     ∧ NumCounters I = NumRegionCounters (PGO (set_PGO pgo st1))
                     ∧ 0 <= Index I < NumCounters I).
  { intros pgo Hp Hnum. split; [exact Hgv|]. split.
    - eexists. split; [by apply Hinc|done].
    - intros n p Hn Hp'. destruct (Hkeys n p Hn Hp') as [i Hi].
      eexists. split; [by apply Hinc|].
      split; [done|]. split; [done|]. split; [done|].
      simpl. rewrite Hnum. by apply (Hrange p). }
  unfold assignRegionCounters. cbn [negb andb]. rewrite Hset.
  cbn [mbind option_bind]. fold st1. rewrite Hmap. cbn [mbind option_bind].
  destruct PGOReader as [reader|].
  - pose proof (loadRegionCounts_fields logging reader (toPrettyChars D) pgo1)
      as Hload.
    change (PGO (set_PGO pgo1 st1)) with pgo1.
    destruct (loadRegionCounts logging reader (toPrettyChars D) pgo1)
      as [pgo2 out2]. simpl in Hload.
    destruct (computeRegionCounts_returns (D_statements D) pgo2)
      as (pgo3 & Hc & _ & _); [by apply Hsafe|].
    rewrite Hc. cbn [mbind option_bind].
    destruct (computeRegionCounts_fields _ _ _ Hc) as (_ & Hn3 & _ & Hm3 & _).
    eexists _, _, _. split; [reflexivity|].
    change (set_PGO pgo3 (set_PGO pgo1 st1)) with (set_PGO pgo3 st1).
    apply Hall.
    + rewrite Hm3, Hload. exact Hm.
    + rewrite Hn3, Hload. done.
  - eexists _, _, _. split; [reflexivity|]. by apply Hall.
Qed.

(** X21.  Without instrumentation, because the compiler is not asked for
    it or because the declaration opts out of it, [assignRegionCounters]
    creates no variable for the name, and [emitCounterIncrement] then
    creates no call and fails no assertion, whatever the statement is. *)
Theorem emitCounterIncrement_disabled (LDC_LLVM_VER : Z)
    (genInstrProf logging : bool) (PGOReader : option IndexedInstrProfReader)
    (getPGOFuncName : string → LinkageTypes → string)
    (createPGOFuncNameVar : LinkageTypes → string → GlobalVariable)
    (MD5_final : list Z → list Z) (D : Declaration) (fn : Function)
    (st st' : EntryPoints.t) (out : list Diagnostic) (entry : option Z) :
  genInstrProf = false ∨ D_emitInstrumentation D = false →
  assignRegionCounters LDC_LLVM_VER genInstrProf logging PGOReader getPGOFuncName
    createPGOFuncNameVar MD5_final D fn st = Some (st', out, entry) →
  FuncNameVar st' = FuncNameVar st
  ∧ ∀ S, emitCounterIncrement genInstrProf st' S = Some [].
Proof.
  intros Hoff Hassign. unfold assignRegionCounters in Hassign.
  assert (Hnone : ∀ x : EntryPoints.t,
            genInstrProf = false ∨ emitInstrumentation x = false →
            ∀ S, emitCounterIncrement genInstrProf x S = Some []).
  { intros x Hx S. unfold emitCounterIncrement.
    destruct (RegionCounterMap (PGO x)); [|done].
    by destruct Hx as [-> | ->]; [|rewrite orb_true_r]. }
  destruct (negb genInstrProf && negb (bool_decide (is_Some PGOReader))) eqn:E.
  { injection Hassign as <- _ _. split; [done|]. apply Hnone. left.
    by destruct genInstrProf. }
  apply bind_Some in Hassign as (st1 & Hset & Hassign).
  apply setFuncName_Some in Hset as (name & gv & -> & Hgv).
  change (emitInstrumentation (set_emitInstrumentation _ st))
    with (D_emitInstrumentation D) in Hgv.
  assert (Hg : genInstrProf && D_emitInstrumentation D = false).
  { destruct Hoff as [-> | ->]; [done|apply andb_false_r]. }
  rewrite Hg in Hgv. subst gv.
  apply bind_Some in Hassign as (pgo1 & Hmap & Hassign).
  destruct PGOReader as [reader|].
  - destruct (loadRegionCounts _ _ _ _) as [pgo2 out2].
    apply bind_Some in Hassign as (pgo3 & Hc & [= <- _ _]).
    split; [done|]. apply Hnone.
    destruct Hoff as [-> | Hoff]; [by left|by right].
  - injection Hassign as <- _ _. split; [done|]. apply Hnone.
    destruct Hoff as [-> | Hoff]; [by left|by right].
Qed.

(** X22.  Code generation with a profile: when [assignRegionCounters]
    returns for a function with a body whose nodes do not lie at the null
    address, the object holds the counts that the reader wrote for the name
    and the hash of the function when the reader answers with success, and
    no counts otherwise; the entry count set on the function is the first
    of these counts, and no entry count is set when there is none. *)
Theorem assignRegionCounters_entry_count (LDC_LLVM_VER : Z)
    (genInstrProf logging : bool) (reader : IndexedInstrProfReader)
    (getPGOFuncName : string → LinkageTypes → string)
    (createPGOFuncNameVar : LinkageTypes → string → GlobalVariable)
    (MD5_final : list Z → list Z) (D : Declaration) (fn : Function)
    (st st' : EntryPoints.t) (out : list Diagnostic) (entry : option Z) :
  assignRegionCounters LDC_LLVM_VER genInstrProf logging (Some reader)
    getPGOFuncName createPGOFuncNameVar MD5_final D fn st
  = Some (st', out, entry) →
  capacity (nodes (Tr (FuncDeclaration (D_fbody D)) (D_children D))) < 2 ^ 32 →
  D_fbody D ≠ nullptr →
  nullptr ∉ (D_children D ≫= reached) ≫= keys_of →
  let answer := reader (FuncName (PGO st')) (FunctionHash (PGO st')) in
  RegionCounts (PGO st') = (if answer.1 is success then answer.2 else [])
  ∧ entry = head (RegionCounts (PGO st')).
Proof.
  intros Hassign Hcap Hbody Hnull. unfold assignRegionCounters in Hassign.
  rewrite (bool_decide_eq_true_2 (is_Some (Some reader))) in Hassign by eauto.
  rewrite andb_false_r in Hassign.
  apply bind_Some in Hassign as (st1 & Hset & Hassign).
  apply bind_Some in Hassign as (pgo1 & Hmap & Hassign).
  change (PGO (set_PGO pgo1 st1)) with pgo1 in Hassign.
  pose proof (loadRegionCounts_fields logging reader (toPrettyChars D) pgo1)
    as Hload.
  destruct (loadRegionCounts logging reader (toPrettyChars D) pgo1)
    as [pgo2 out2]. simpl in Hload.
  apply bind_Some in Hassign as (pgo3 & Hc & [= <- _ <-]).
  destruct (computeRegionCounts_fields _ _ _ Hc) as (Hf3 & _ & Hh3 & Hm3 & Hr3).
  destruct (mapRegionCounters_keys_null _ _ _ _ _ Hcap Hbody Hnull Hmap)
    as (m & Hm & Hm0 & _ & _).
  cbv zeta. change (PGO (set_PGO pgo3 _)) with pgo3.
  rewrite Hf3, Hh3, Hr3, Hload. simpl. split; [done|].
  unfold applyFunctionAttributes. change (PGO (set_PGO pgo3 _)) with pgo3.
  unfold getRegionCount, haveRegionCounts. rewrite Hm3, Hr3, Hload. simpl.
  rewrite Hm, Hm0. simpl.
  match goal with |- context [head ?cs] => by destruct cs end.
Qed.

(** X23.  The variable that [createFuncNameVar] creates holds the name of
    the function and is constant; it has the linkage of the function,
    unless that is external, internal, available-externally or
    extern-weak, none of which the variable ever has; and it is hidden
    exactly when its linkage is not private. *)
Theorem createFuncNameVar_linkage (FuncName : string) (Linkage : LinkageTypes) :
  let GV := createFuncNameVar FuncName Linkage in
  Initializer GV = FuncName ∧ isConstant GV = true
  ∧ (VarLinkage GV ∉ [ExternalLinkage; InternalLinkage;
                       AvailableExternallyLinkage; ExternalWeakLinkage])
  ∧ (Linkage ∉ [ExternalLinkage; InternalLinkage;
                 AvailableExternallyLinkage; ExternalWeakLinkage] →
     VarLinkage GV = Linkage)
  ∧ (Visibility GV = HiddenVisibility ↔ VarLinkage GV ≠ PrivateLinkage)
  ∧ (Visibility GV = DefaultVisibility ↔ VarLinkage GV = PrivateLinkage).
Proof.
  cbv zeta.
  assert (Hnot : ∀ (x : LinkageTypes) l, Forall (λ y, x ≠ y) l → x ∉ l).
  { intros x l H Hx. by apply (proj1 (Forall_forall _ _) H x Hx). }
  destruct Linkage; simpl.
  all: split; [done|]; split; [done|].
  all: split; [by apply Hnot; repeat constructor|].
  all: split; [|done].
  all: try done.
  all: intros H; exfalso; apply H; repeat constructor.
Qed.

(** X24.  In builds with LLVM before 3.8, a symbol name with the prefix
    byte 1 and the same name without it get the same profile name and the
    same variable: [setFuncName] leaves the same object for both.  The
    profile name is the symbol name without that byte. *)
Theorem setFuncName_prefix (LDC_LLVM_VER : Z) (genInstrProf : bool)
    (getPGOFuncName : string → LinkageTypes → string)
    (createPGOFuncNameVar : LinkageTypes → string → GlobalVariable)
    (c : Ascii.ascii) (rest : string) (Linkage : LinkageTypes)
    (st : EntryPoints.t) :
  LDC_LLVM_VER < 308 →
  c ≠ Ascii.ascii_of_nat 1 →
  let Name := String c rest in
  ∃ st', setFuncName LDC_LLVM_VER genInstrProf getPGOFuncName
           createPGOFuncNameVar (String (Ascii.ascii_of_nat 1) Name) Linkage st
         = Some st'
         ∧ setFuncName LDC_LLVM_VER genInstrProf getPGOFuncName
             createPGOFuncNameVar Name Linkage st = Some st'
         ∧ FuncName (PGO st') = Name.
Proof.
  intros Hver Hc Name. subst Name. unfold setFuncName.
  apply Z.leb_gt in Hver. rewrite Hver. cbv beta iota zeta.
  rewrite Ascii.eqb_refl.
  assert (Hneq : Ascii.eqb c (Ascii.ascii_of_nat 1) = false)
    by (by apply Ascii.eqb_neq).
  rewrite Hneq.
  destruct (genInstrProf && _); eauto.
Qed.

End EntryProperties.

Section EntryExample.
Import CodeGenPGO MapRegionCounters EntryPoints.

Lemma emitCounterIncrement_in_range_witness :
  ∃ st' I,
    assignRegionCounters 307 true false None (λ Name _, Name)
      (λ L Name, createFuncNameVar Name L) no_digest instrumented
      {| getName := "f"; getLinkage := ExternalLinkage |} fresh
    = Some (st', [], None)
    ∧ emitCounterIncrement true st' 144%N = Some [I]
    ∧ 0 <= Index I < NumCounters I.
Proof.
  destruct (emitCounterIncrement_in_range 307 false None (λ Name _, Name)
              (λ L Name, createFuncNameVar Name L) no_digest instrumented
              {| getName := "f"; getLinkage := ExternalLinkage |} fresh)
    as (st' & out & entry & Hassign & _ & _ & Hkeys).
  - reflexivity.
  - right. discriminate.
  - vm_compute. reflexivity.
  - vm_compute. reflexivity.
  - intros [? [=]].
  - destruct (Hkeys (IfStatement 144) 144%N) as (I & HI & _ & _ & _ & Hr).
    + vm_compute. repeat constructor.
    + reflexivity.
    + exists st', I. split; [|split; [exact HI|exact Hr]].
      etrans; [exact Hassign|].
      assert (Hrun : ∃ x, assignRegionCounters 307 true false None (λ Name _, Name)
                (λ L Name, createFuncNameVar Name L) no_digest instrumented
                {| getName := "f"; getLinkage := ExternalLinkage |} fresh
              = Some (x, [], None)).
      { eexists. vm_compute. reflexivity. }
      destruct Hrun as [x Hrun]. rewrite Hrun in Hassign.
      by injection Hassign as <- <- <-.
Defined.

Lemma emitCounterIncrement_disabled_witness :
  ∃ st', assignRegionCounters 307 false false (Some (λ _ _, (success, [7; 3])))
           (λ Name _, Name) (λ L Name, createFuncNameVar Name L) no_digest
           instrumented {| getName := "f"; getLinkage := ExternalLinkage |} fresh
         = Some (st', [], Some 7)
         ∧ FuncNameVar st' = None
         ∧ emitCounterIncrement false st' 144%N = Some [].
Proof.
  assert (Hrun : ∃ st', assignRegionCounters 307 false false
                          (Some (λ _ _, (success, [7; 3])))
                          (λ Name _, Name) (λ L Name, createFuncNameVar Name L)
                          no_digest instrumented
                          {| getName := "f"; getLinkage := ExternalLinkage |} fresh
                        = Some (st', [], Some 7)).
  { eexists. vm_compute. reflexivity. }
  destruct Hrun as [st' Hrun]. exists st'. split; [exact Hrun|].
  destruct (emitCounterIncrement_disabled 307 false false
              (Some (λ _ _, (success, [7; 3])))
              (λ Name _, Name) (λ L Name, createFuncNameVar Name L) no_digest
              instrumented {| getName := "f"; getLinkage := ExternalLinkage |}
              fresh st' [] (Some 7) (or_introl eq_refl) Hrun) as [Hv Hnone].
  split; [exact Hv|apply Hnone].
Defined.

Lemma assignRegionCounters_entry_count_witness :
  ∃ st', assignRegionCounters 307 false false (Some (λ _ _, (success, [7; 3])))
           (λ Name _, Name) (λ L Name, createFuncNameVar Name L) no_digest
           instrumented {| getName := "f"; getLinkage := ExternalLinkage |} fresh
         = Some (st', [], Some 7)
         ∧ RegionCounts (PGO st') = [7; 3].
Proof.
  assert (Hrun : ∃ st', assignRegionCounters 307 false false
                          (Some (λ _ _, (success, [7; 3])))
                          (λ Name _, Name) (λ L Name, createFuncNameVar Name L)
                          no_digest instrumented
                          {| getName := "f"; getLinkage := ExternalLinkage |} fresh
                        = Some (st', [], Some 7)).
  { eexists. vm_compute. reflexivity. }
  destruct Hrun as [st' Hrun]. exists st'. split; [exact Hrun|].
  destruct (assignRegionCounters_entry_count 307 false false
              (λ _ _, (success, [7; 3]))
              (λ Name _, Name) (λ L Name, createFuncNameVar Name L) no_digest
              instrumented {| getName := "f"; getLinkage := ExternalLinkage |}
              fresh st' [] (Some 7) Hrun) as [Hc _].
  - vm_compute. reflexivity.
  - discriminate.
  - vm_compute. intros H.
    repeat (apply elem_of_cons in H as [H|H]; [discriminate H|]).
    by apply elem_of_nil in H.
  - exact Hc.
Defined.

Lemma setFuncName_prefix_witness :
  ∃ st', setFuncName 307 true (λ Name _, Name)
           (λ L Name, createFuncNameVar Name L)
           (String (Ascii.ascii_of_nat 1) "_D1m1fFZv") ExternalLinkage fresh
         = Some st'
         ∧ setFuncName 307 true (λ Name _, Name)
             (λ L Name, createFuncNameVar Name L) "_D1m1fFZv" ExternalLinkage fresh
           = Some st'
         ∧ FuncName (PGO st') = "_D1m1fFZv".
Proof.
  apply (setFuncName_prefix 307 true (λ Name _, Name)
           (λ L Name, createFuncNameVar Name L) (Ascii.ascii_of_nat 95) "D1m1fFZv"
           ExternalLinkage fresh).
  - lia.
  - discriminate.
Defined.

End EntryExample.
